(** * V2 inference engine: adapters, mutators, search strategies

    A shallow embedding of the parts of the V2 sources that the
    specification's testable properties talk about, followed by the
    theorems that settle those properties against the code.

    Conventions used throughout:
    - a JavaScript exception is the [Throw] constructor of [completion];
    - [undefined] / [null] results are [None] (or the dedicated
      constructors of [jsval] where both can occur);
    - in-place updates of arrays are written with stdpp's list insert,
      guarded by the bounds checks the source performs. *)

From Stdlib Require Import ZArith NArith String Ascii List Lia Bool DecimalString.
From stdpp Require Import base list sorting strings gmap.

Import ListNotations.
Local Open Scope string_scope.
Local Open Scope Z_scope.

(** ** JavaScript values and completions *)

(** The outcome of running a function body: a returned value or a thrown
    error (carrying the error message). *)
Inductive completion (A : Type) : Type :=
  | Return (a : A)
  | Throw (msg : string).
Arguments Return {A} a.
Arguments Throw {A} msg.

Definition bindC {A B} (c : completion A) (k : A -> completion B) : completion B :=
  match c with
  | Return a => k a
  | Throw m => Throw m
  end.

(** Values a dependency field can hold. *)
Inductive jsval : Type :=
  | JUndefined
  | JNull
  | JString (s : string).

Definition jsval_eqb (a b : jsval) : bool :=
  match a, b with
  | JUndefined, JUndefined => true
  | JNull, JNull => true
  | JString s, JString t => String.eqb s t
  | _, _ => false
  end.

(** A plain object: its own enumerable string keys in insertion order. *)
Definition object := list (string * jsval).

(** [o.k] *)
Fixpoint get (o : object) (k : string) : jsval :=
  match o with
  | [] => JUndefined
  | (k', v) :: o' => if String.eqb k' k then v else get o' k
  end.

Fixpoint has_key (o : object) (k : string) : bool :=
  match o with
  | [] => false
  | (k', _) :: o' => String.eqb k' k || has_key o' k
  end.

(** [o.k = v] on a fresh copy: an existing key keeps its position, a new
    key is appended. *)
Fixpoint set_key (o : object) (k : string) (v : jsval) : object :=
  match o with
  | [] => [(k, v)]
  | (k', v') :: o' =>
      if String.eqb k' k then (k', v) :: o' else (k', v') :: set_key o' k v
  end.

(** [_.clone(o)]: a shallow copy; values are immutable here. *)
Definition clone (o : object) : object := o.

(** [_.assign(target, source)] *)
Definition assign (target source : object) : object :=
  fold_left (fun acc kv => set_key acc (fst kv) (snd kv)) source target.

(** ** String helpers (ASCII code units) *)

Definition is_upper (c : ascii) : bool :=
  let n := nat_of_ascii c in (65 <=? n)%nat && (n <=? 90)%nat.

Definition lower_char (c : ascii) : ascii :=
  if is_upper c then ascii_of_nat (nat_of_ascii c + 32) else c.

(** [s.toLowerCase()] *)
Fixpoint toLowerCase (s : string) : string :=
  match s with
  | EmptyString => EmptyString
  | String c s' => String (lower_char c) (toLowerCase s')
  end.

(** [s.replace(p, r)] with a one-character string pattern [p]: only the
    first occurrence is replaced. *)
Fixpoint replace_first (p r : ascii) (s : string) : string :=
  match s with
  | EmptyString => EmptyString
  | String c s' =>
      if Ascii.eqb c p then String r s' else String c (replace_first p r s')
  end.

(** [s.startsWith(p)] *)
Definition startsWith (s p : string) : bool := String.prefix p s.

(** ** Module [systems/pip/strategy] *)

Module PIPStrategy.

(** [return pkg.toLowerCase().replace('_', '-');] *)
Definition normalizePackageName (pkg : string) : string :=
  replace_first "_"%char "-"%char (toLowerCase pkg).

End PIPStrategy.

(** ** Module [languages/python/strategy] *)

Module PythonStrategy.

(** One row of [exception_stack]: the attributes of a Python
    [FrameSummary], [[filename, lineno, name, line]].  A row that is too
    short to hold an attribute has [None] there. *)
Record Frame : Type := mkFrame {
  frame_filename : string;
  frame_lineno : option Z;
  frame_name : option string;
  frame_line : option string
}.

Record Execution : Type := mkExecution {
  exception_name : string;
  exception_message : string;
  exception_line : option string;
  exception_stack : option (list Frame)
}.

Record EnvironmentValidation : Type := mkValidation {
  status_code : string;
  execution : option Execution
}.

(** [_.get(v, 'execution.exception_stack[0][1]')] *)
Definition get_line (v : EnvironmentValidation) : option Z :=
  match execution v with
  | None => None
  | Some e =>
      match exception_stack e with
      | None => None
      | Some stack =>
          match stack with
          | [] => None
          | row :: _ => frame_lineno row
          end
      end
  end.

Definition firstExecutionException (v1 v2 : EnvironmentValidation)
  : completion (option EnvironmentValidation) :=
  let line1 := get_line v1 in
  let line2 := get_line v2 in
  match line1, line2 with
  | Some l1, Some l2 =>
      if l1 <? l2 then Return (Some v1)
      else if l2 <? l1 then Return (Some v2)
      else Return None
  | _, _ => Throw "Unable to parse a line number from validation execution."
  end.

(** The managed third-party install prefix, as built in
    [isRepairableVersionError] and [dependencyProducingException]. *)
Definition site_packages_prefix (version : string) : string :=
  "/usr/local/lib/python" ++ version ++ "/site-packages/".

(** *** [extractImportModule]

    The two regular expressions are matched by hand.  Strings are
    sequences of code units below 256, so the line terminators that [.]
    excludes are line feed and carriage return. *)

Definition code_between (lo hi : nat) (c : ascii) : bool :=
  let n := nat_of_ascii c in (lo <=? n)%nat && (n <=? hi)%nat.

(** The class [[a-zA-z]]: its second range runs from [A] to lower-case
    [z]. *)
Definition resource_start (c : ascii) : bool :=
  code_between 97 122 c || code_between 65 122 c.

(** The class [[a-zA-Z0-9.-_]]: its last three characters are the range
    from [.] to [_]. *)
Definition resource_char (c : ascii) : bool :=
  code_between 97 122 c || code_between 65 90 c || code_between 48 57 c
  || code_between 46 95 c.

Definition is_space (c : ascii) : bool := Ascii.eqb c " ".

(** What [.] matches. *)
Definition not_terminator (c : ascii) : bool :=
  negb ((nat_of_ascii c =? 10)%nat || (nat_of_ascii c =? 13)%nat).

Definition is_quote (c : ascii) : bool :=
  Ascii.eqb c "'" || (nat_of_ascii c =? 34)%nat.

Fixpoint all_chars (p : ascii -> bool) (s : string) : bool :=
  match s with
  | EmptyString => true
  | String c s' => p c && all_chars p s'
  end.

(** The longest prefix of characters satisfying [p], and what follows. *)
Fixpoint span (p : ascii -> bool) (s : string) : string * string :=
  match s with
  | EmptyString => (EmptyString, EmptyString)
  | String c s' =>
      if p c then let '(r, rest) := span p s' in (String c r, rest)
      else (EmptyString, s)
  end.

(** [s.substring(n)] *)
Fixpoint substring_from (n : nat) (s : string) : string :=
  match n, s with
  | O, _ => s
  | S n', String _ s' => substring_from n' s'
  | S _, EmptyString => EmptyString
  end.

Definition strip_prefix (p s : string) : option string :=
  if String.prefix p s then Some (substring_from (String.length p) s) else None.

(** The named group [resource] (one character of the first class, then
    any number of the second) at the head of [s]:
    the resource and the rest of [s].  The star is greedy, and no
    character that may follow the group belongs to its class, so only the
    longest run can lead to a match. *)
Definition match_resource (s : string) : option (string * string) :=
  match s with
  | String c s' =>
      if resource_start c then
        let '(r, rest) := span resource_char s' in Some (String c r, rest)
      else None
  | EmptyString => None
  end.

(** The first expression: [import] or [from], one or more spaces, the
    resource, and then either the end of the line or a space followed by
    anything but a line terminator. *)
Definition match_import_statement (line : string) : option string :=
  let after_keyword :=
    match strip_prefix "import" line with
    | Some s => Some s
    | None => strip_prefix "from" line
    end in
  match after_keyword with
  | Some (String c s) =>
      if is_space c then
        match match_resource (snd (span is_space s)) with
        | Some (r, EmptyString) => Some r
        | Some (r, String c' tail) =>
            if is_space c' && all_chars not_terminator tail then Some r else None
        | None => None
        end
      else None
  | _ => None
  end.

(** The call [__import__(Q resource Q)] at the head of [s], each [Q]
    being a single or a double quote. *)
Definition match_import_call_here (s : string) : option string :=
  match strip_prefix "__import__(" s with
  | Some (String q s1) =>
      if is_quote q then
        match match_resource s1 with
        | Some (r, String q' (String p _)) =>
            if is_quote q' && Ascii.eqb p ")" then Some r else None
        | _ => None
        end
      else None
  | _ => None
  end.

(** The leading [.*] is greedy: the call that starts last wins. *)
Fixpoint match_import_call_last (s : string) : option string :=
  match s with
  | EmptyString => None
  | String _ s' =>
      match match_import_call_last s' with
      | Some r => Some r
      | None => match_import_call_here s
      end
  end.

(** The second expression: such a call anywhere on a line without
    line terminators. *)
Definition match_import_call (line : string) : option string :=
  if all_chars not_terminator line then match_import_call_last line else None.

Definition extractImportModule (line : option string) : option string :=
  match line with
  | None | Some EmptyString => None
  | Some l =>
      match match_import_statement l with
      | Some r => Some r
      | None => match_import_call l
      end
  end.

(** *** [isRepairableVersionError] and [dependencyProducingException] *)

(** A row of [metadata.directDependencies.resourcePackageMapping]. *)
Record Mapping : Type := mkMapping {
  mapping_resource : string;
  mapping_package : string
}.

(** The parts of an environment the two heuristics read. *)
Record PyEnvironment : Type := mkPyEnvironment {
  language_version : string;
  metadata_system : jsval;
  resourcePackageMapping : list Mapping;
  py_dependencies : list object
}.

Definition IMPORT_ERRORS : list string := ["ImportError"; "ModuleNotFoundError"].

(** [_.includes(list, x)] *)
Definition includes (l : list string) (x : string) : bool :=
  existsb (String.eqb x) l.

(** The predicate [['resource', resource]] of [_.some] and [_.filter]. *)
Definition maps_resource (resource : option string) (m : Mapping) : bool :=
  match resource with
  | Some r => String.eqb (mapping_resource m) r
  | None => false
  end.

(** Lodash treats a missing collection as an empty one. *)
Definition stack_of (e : Execution) : list Frame :=
  match exception_stack e with
  | Some stack => stack
  | None => []
  end.

Definition in_site_packages (prefix : string) (row : Frame) : bool :=
  startsWith (frame_filename row) prefix.

Definition isRepairableVersionError (environment : PyEnvironment)
    (validation : EnvironmentValidation) : completion bool :=
  match execution validation with
  | None => Throw "TypeError"
  | Some e =>
      let version := language_version environment in
      let stack := stack_of e in
      let exception := exception_name e in
      let unrepairable := includes ["FileNotFoundError"] exception in
      if unrepairable then Return false
      else
        let prefix := site_packages_prefix version in
        let hasSitePackages := existsb (in_site_packages prefix) stack in
        if hasSitePackages then Return true
        else if includes IMPORT_ERRORS exception then
          let resource := extractImportModule (exception_line e) in
          let mappings := resourcePackageMapping environment in
          Return (existsb (maps_resource resource) mappings)
        else Return (includes ["TypeError"; "AttributeError"] exception)
  end.

(** [_.findIndex]: the first index whose element satisfies [p], or -1. *)
Fixpoint findIndex {A} (p : A -> bool) (l : list A) : Z :=
  match l with
  | [] => -1
  | x :: l' =>
      if p x then 0
      else let i := findIndex p l' in if i <? 0 then -1 else i + 1
  end.

(** [s.split(sep)] for a one-character separator. *)
Fixpoint split_on (sep : ascii) (s : string) : list string :=
  match s with
  | EmptyString => [EmptyString]
  | String c s' =>
      if Ascii.eqb c sep then EmptyString :: split_on sep s'
      else match split_on sep s' with
           | h :: t => String c h :: t
           | [] => [String c EmptyString]
           end
  end.

(** Lodash's [toString]: [null] and [undefined] become the empty
    string. *)
Definition toString (v : jsval) : string :=
  match v with
  | JString s => s
  | JUndefined | JNull => EmptyString
  end.

Fixpoint strings_eqb (a b : list string) : bool :=
  match a, b with
  | [], [] => true
  | x :: a', y :: b' => String.eqb x y && strings_eqb a' b'
  | _, _ => false
  end.

(** The [_.matches] predicate [{ name: package, system }]. *)
Definition matches_package (package : string) (system : jsval) (d : object) : bool :=
  jsval_eqb (get d "name") (JString package)
  && (jsval_eqb (get d "system") system && has_key d "system").

(** The predicate handed to [_.findIndex] for a frame: the dependency
    belongs to the environment's system and its dotted name spells the
    first directories of the frame's path. *)
Definition owns_frame (system : jsval) (framePath : list string) (d : object) : bool :=
  let resourcePath := split_on "." (toString (get d "name")) in
  jsval_eqb (get d "system") system
  && strings_eqb resourcePath (firstn (List.length resourcePath) framePath).

Definition frame_path (prefix : string) (frame : Frame) : list string :=
  split_on "/" (substring_from (String.length prefix) (frame_filename frame)).

(** The [for] loop over the site-packages frames. *)
Fixpoint first_managed (deps : list object) (system : jsval) (prefix : string)
    (frames : list Frame) : option Z :=
  match frames with
  | [] => None
  | frame :: rest =>
      let index := findIndex (owns_frame system (frame_path prefix frame)) deps in
      if 0 <=? index then Some index
      else first_managed deps system prefix rest
  end.

Definition dependencyProducingException (environment : PyEnvironment)
    (validation : EnvironmentValidation) : completion (option Z) :=
  match execution validation with
  | None => Throw "TypeError"
  | Some e =>
      let version := language_version environment in
      let stack := stack_of e in
      let prefix := site_packages_prefix version in
      let allSitePackages := List.filter (in_site_packages prefix) stack in
      match allSitePackages with
      | [] =>
          let isImportError := includes IMPORT_ERRORS (exception_name e) in
          if isImportError then
            let resource := extractImportModule (exception_line e) in
            let mappings := resourcePackageMapping environment in
            let packages := List.filter (maps_resource resource) mappings in
            match packages with
            | [mapping] =>
                Return (Some (findIndex
                                (matches_package (mapping_package mapping)
                                   (metadata_system environment))
                                (py_dependencies environment)))
            | _ => Return None
            end
          else Return None
      | _ :: _ =>
          Return (first_managed (py_dependencies environment)
                    (metadata_system environment) prefix (rev allSitePackages))
      end
  end.

End PythonStrategy.

(** ** The [semver] package (npm, 6.x API)

    The repository calls into the [semver] package for parsing and
    ordering versions.  The package is not part of the repository; the
    functions the sources call are modelled here after its grammar and
    its comparison algorithm, on ASCII strings. *)

Module Semver.

Definition MAX_LENGTH : nat := 256.
Definition MAX_SAFE_INTEGER : Z := 9007199254740991.

(** *** Characters and numerals *)

Definition code (c : ascii) : nat := nat_of_ascii c.

Definition is_digit (c : ascii) : bool :=
  (48 <=? code c)%nat && (code c <=? 57)%nat.

Definition is_alpha (c : ascii) : bool :=
  ((65 <=? code c)%nat && (code c <=? 90)%nat)
  || ((97 <=? code c)%nat && (code c <=? 122)%nat).

(** [[0-9A-Za-z-]] *)
Definition is_idchar (c : ascii) : bool :=
  is_digit c || is_alpha c || Ascii.eqb c "-"%char.

(** [\s] restricted to ASCII. *)
Definition is_space (c : ascii) : bool :=
  ((9 <=? code c)%nat && (code c <=? 13)%nat) || (code c =? 32)%nat.

Fixpoint all_chars (p : ascii -> bool) (s : string) : bool :=
  match s with
  | EmptyString => true
  | String c s' => p c && all_chars p s'
  end.

(** [/^[0-9]+$/.test(s)] *)
Definition numeric (s : string) : bool :=
  negb (String.eqb s "") && all_chars is_digit s.

Fixpoint digits_value_acc (acc : Z) (s : string) : Z :=
  match s with
  | EmptyString => acc
  | String c s' => digits_value_acc (10 * acc + (Z.of_nat (code c) - 48)) s'
  end.

(** The integer a string of decimal digits denotes. *)
Definition digits_value (s : string) : Z := digits_value_acc 0 s.

(** [String(n)] for a non-negative safe integer. *)
Definition string_of_Z (n : Z) : string :=
  DecimalString.NilZero.string_of_uint (N.to_uint (Z.to_N n)).

(** The value of the IEEE-754 double nearest to a non-negative integer
    (round half to even), as [+s] computes it for a digit string. *)
Definition to_double (n : Z) : Z :=
  if n <? 2 ^ 53 then n
  else
    let e := Z.log2 n - 52 in
    let q := Z.shiftr n e in
    let r := Z.land n (Z.ones e) in
    let half := Z.shiftl 1 (e - 1) in
    let up := (half <? r) || ((half =? r) && Z.odd q) in
    Z.shiftl (if up then q + 1 else q) e.

(** *** Splitting *)

(** The longest prefix of characters satisfying [p], and the rest. *)
Fixpoint span (p : ascii -> bool) (s : string) : string * string :=
  match s with
  | EmptyString => (EmptyString, EmptyString)
  | String c s' =>
      if p c then let '(a, b) := span p s' in (String c a, b)
      else (EmptyString, s)
  end.

Fixpoint drop_while (p : ascii -> bool) (s : string) : string :=
  match s with
  | EmptyString => EmptyString
  | String c s' => if p c then drop_while p s' else s
  end.

Fixpoint rev_string_acc (acc s : string) : string :=
  match s with
  | EmptyString => acc
  | String c s' => rev_string_acc (String c acc) s'
  end.

Definition rev_string (s : string) : string := rev_string_acc EmptyString s.

(** [s.trim()] *)
Definition trim (s : string) : string :=
  rev_string (drop_while is_space (rev_string (drop_while is_space s))).

(** [s.split(sep)] for a one-character separator. *)
Fixpoint split_on (sep : ascii) (s : string) : list string :=
  match s with
  | EmptyString => [EmptyString]
  | String c s' =>
      if Ascii.eqb c sep then EmptyString :: split_on sep s'
      else match split_on sep s' with
           | [] => [String c EmptyString]
           | h :: t => String c h :: t
           end
  end.

(** The part before the first [sep], and the part after it if any. *)
Fixpoint cut_at (sep : ascii) (s : string) : string * option string :=
  match s with
  | EmptyString => (EmptyString, None)
  | String c s' =>
      if Ascii.eqb c sep then (EmptyString, Some s')
      else let '(a, b) := cut_at sep s' in (String c a, b)
  end.

(** *** Versions *)

(** A prerelease identifier: a number when it is numeric and below
    [MAX_SAFE_INTEGER], the string itself otherwise. *)
Inductive ident : Type :=
  | INum (n : Z)
  | IStr (s : string).

(** A parsed version.  The [raw], [build] and [options] fields of the
    package's objects play no part in the operations used and are left
    out; [version] is [format]. *)
Record SemVer : Type := mkSemVer {
  major : Z;
  minor : Z;
  patch : Z;
  prerelease : list ident
}.

Definition ident_string (i : ident) : string :=
  match i with
  | INum n => string_of_Z n
  | IStr s => s
  end.

(** [this.version]: [major.minor.patch], then [-] and the prerelease
    identifiers joined by dots when there are some. *)
Definition version (v : SemVer) : string :=
  let main := string_of_Z (major v) ++ "." ++ string_of_Z (minor v)
              ++ "." ++ string_of_Z (patch v) in
  match prerelease v with
  | [] => main
  | ids => main ++ "-" ++ String.concat "." (map ident_string ids)
  end.

(** *** Parsing *)

Definition numeric_strict (s : string) : bool :=
  numeric s && (String.eqb s "0" || negb (String.prefix "0" s)).

(** A prerelease or build identifier chunk: one or more of [[0-9A-Za-z-]]. *)
Definition valid_chunk (s : string) : bool :=
  negb (String.eqb s "") && all_chars is_idchar s.

(** In strict mode a numeric chunk has no leading zero. *)
Definition valid_chunk_strict (s : string) : bool :=
  valid_chunk s && (negb (numeric s) || numeric_strict s).

(** [id (\. id)*] *)
Definition valid_ids (loose : bool) (p : string) : bool :=
  forallb (if loose then valid_chunk else valid_chunk_strict) (split_on "." p).

(** The conversion the constructor applies to each prerelease chunk. *)
Definition to_ident (s : string) : ident :=
  if numeric s then
    let num := to_double (digits_value s) in
    if num <? MAX_SAFE_INTEGER then INum num else IStr s
  else IStr s.

Definition idents (p : string) : list ident := map to_ident (split_on "." p).

(** What follows the patch number: [(?:-?(PRE))?(?:\+BUILD)?$] in loose
    mode and [(?:-(PRE))?(?:\+BUILD)?$] in strict mode.  Returns the
    captured prerelease text ([""] when the group did not take part). *)
Definition match_tail (loose : bool) (t : string) : option string :=
  let '(p, b) := cut_at "+" t in
  let build_ok := match b with
                  | None => true
                  | Some b' => forallb valid_chunk (split_on "." b')
                  end in
  if negb build_ok then None
  else
    match p with
    | EmptyString => Some EmptyString
    | String c p' =>
        if Ascii.eqb c "-"%char then
          if valid_ids loose p' then Some p'
          else if loose && valid_ids loose p then Some p
          else None
        else if loose && valid_ids loose p then Some p
        else None
    end.

(** Loose mode lets the patch digits give characters back to the
    prerelease: candidates are tried from the longest patch down. *)
Fixpoint match_patch_loose (k : nat) (run rest : string)
  : option (string * string) :=
  match k with
  | O => None
  | S k' =>
      let pat := String.substring 0 k run in
      let t := String.substring k (String.length run - k) run ++ rest in
      match match_tail true t with
      | Some pre => Some (pat, pre)
      | None => match_patch_loose k' run rest
      end
  end.

Definition build_version (maj min pat pre : string) : option SemVer :=
  let a := to_double (digits_value maj) in
  let b := to_double (digits_value min) in
  let c := to_double (digits_value pat) in
  if (MAX_SAFE_INTEGER <? a) || (MAX_SAFE_INTEGER <? b) || (MAX_SAFE_INTEGER <? c)
  then None
  else Some (mkSemVer a b c
               (match pre with EmptyString => [] | _ => idents pre end)).

(** [new SemVer(version, { loose: true })]; [None] when it throws. *)
Definition parse_loose (v : string) : option SemVer :=
  if (MAX_LENGTH <? String.length v)%nat then None
  else
    let s := drop_while (fun c => Ascii.eqb c "v"%char || Ascii.eqb c "="%char
                                  || is_space c) (trim v) in
    let '(maj, r1) := span is_digit s in
    match maj, r1 with
    | String _ _, String "." r1' =>
        let '(min, r2) := span is_digit r1' in
        match min, r2 with
        | String _ _, String "." r2' =>
            let '(run, r3) := span is_digit r2' in
            match match_patch_loose (String.length run) run r3 with
            | Some (pat, pre) => build_version maj min pat pre
            | None => None
            end
        | _, _ => None
        end
    | _, _ => None
    end.

(** [new SemVer(version)] (strict); [None] when it throws. *)
Definition parse_strict (v : string) : option SemVer :=
  if (MAX_LENGTH <? String.length v)%nat then None
  else
    let s0 := trim v in
    let s := match s0 with
             | String "v" s' => s'
             | _ => s0
             end in
    let '(maj, r1) := span is_digit s in
    match r1 with
    | String "." r1' =>
        let '(min, r2) := span is_digit r1' in
        match r2 with
        | String "." r2' =>
            let '(pat, r3) := span is_digit r2' in
            if numeric_strict maj && numeric_strict min && numeric_strict pat then
              match match_tail false r3 with
              | Some pre => build_version maj min pat pre
              | None => None
              end
            else None
        | _ => None
        end
    | _ => None
    end.

(** [version.match(re[COERCE])]: the capture groups of the leftmost
    match of
    [(?:^|[^\d])(\d{1,16})(?:\.(\d{1,16}))?(?:\.(\d{1,16}))?(?:$|[^\d])]. *)
Definition short_run (s : string) : bool :=
  negb (String.eqb s "") && (String.length s <=? 16)%nat.

Definition coerce_groups_at (s : string)
  : option (string * option string * option string) :=
  let '(g1, r1) := span is_digit s in
  if short_run g1 then
    match r1 with
    | String "." r1' =>
        let '(g2, r2) := span is_digit r1' in
        if short_run g2 then
          match r2 with
          | String "." r2' =>
              let '(g3, _) := span is_digit r2' in
              if short_run g3 then Some (g1, Some g2, Some g3)
              else Some (g1, Some g2, None)
          | _ => Some (g1, Some g2, None)
          end
        else Some (g1, None, None)
    | _ => Some (g1, None, None)
    end
  else None.

Fixpoint coerce_scan (boundary : bool) (s : string)
  : option (string * option string * option string) :=
  match s with
  | EmptyString => None
  | String c s' =>
      if is_digit c then
        if boundary then
          match coerce_groups_at s with
          | Some g => Some g
          | None => coerce_scan false s'
          end
        else coerce_scan false s'
      else coerce_scan true s'
  end.

Definition coerce_match (v : string) := coerce_scan true v.

(** [semver.coerce(version)] on a string. *)
Definition coerce (v : string) : option SemVer :=
  match coerce_match v with
  | None => None
  | Some (g1, g2, g3) =>
      parse_strict (g1 ++ "." ++ default "0" g2 ++ "." ++ default "0" g3)
  end.

(** *** Ordering *)

(** [a < b] on strings: lexicographic on code units. *)
Definition string_lt (a b : string) : bool :=
  match String.compare a b with Lt => true | _ => false end.

(** [compareIdentifiers(a, b)]: numeric identifiers compare as numbers
    and sort before the others, which compare as strings. *)
Definition compareIdentifiers (a b : ident) : Z :=
  let anum := match a with INum _ => true | IStr s => numeric s end in
  let bnum := match b with INum _ => true | IStr s => numeric s end in
  let value i := match i with
                 | INum n => n
                 | IStr s => to_double (digits_value s)
                 end in
  if anum && bnum then
    if value a =? value b then 0
    else if value a <? value b then -1 else 1
  else
    match a, b with
    | IStr s, IStr t =>
        if String.eqb s t then 0
        else if anum then -1
        else if bnum then 1
        else if string_lt s t then -1 else 1
    | _, _ => if anum then -1 else 1
    end.

Definition compare_num (a b : Z) : Z :=
  if a =? b then 0 else if a <? b then -1 else 1.

(** [a || b] on comparison results. *)
Definition or_else (a b : Z) : Z := if a =? 0 then b else a.

Definition compareMain (a b : SemVer) : Z :=
  or_else (compare_num (major a) (major b))
    (or_else (compare_num (minor a) (minor b))
             (compare_num (patch a) (patch b))).

Definition ident_eqb (a b : ident) : bool :=
  match a, b with
  | INum n, INum m => n =? m
  | IStr s, IStr t => String.eqb s t
  | _, _ => false
  end.

(** The [do ... while (++i)] loop of [comparePre]. *)
Fixpoint comparePre_loop (a b : list ident) : Z :=
  match a, b with
  | [], [] => 0
  | _ :: _, [] => 1
  | [], _ :: _ => -1
  | x :: a', y :: b' =>
      if ident_eqb x y then comparePre_loop a' b'
      else compareIdentifiers x y
  end.

Definition comparePre (a b : SemVer) : Z :=
  match prerelease a, prerelease b with
  | _ :: _, [] => -1
  | [], _ :: _ => 1
  | [], [] => 0
  | pa, pb => comparePre_loop pa pb
  end.

(** [a.compare(b)] *)
Definition compare (a b : SemVer) : Z :=
  or_else (compareMain a b) (comparePre a b).

Definition gte (a b : SemVer) : bool := 0 <=? compare a b.
Definition lte (a b : SemVer) : bool := compare a b <=? 0.
Definition lt (a b : SemVer) : bool := compare a b <? 0.

(** *** Ranges *)

Inductive operator : Type := OpLt | OpGte.

(** A comparator such as [<1.3.0]; a range is the comparator set of a
    single space-separated alternative. *)
Record Comparator : Type := mkComparator {
  comp_operator : operator;
  comp_semver : SemVer
}.

Definition Range := list Comparator.

(** [comparator.test(version)] *)
Definition comparator_test (c : Comparator) (v : SemVer) : bool :=
  match comp_operator c with
  | OpLt => lt v (comp_semver c)
  | OpGte => gte v (comp_semver c)
  end.

Definition same_tuple (a b : SemVer) : bool :=
  (major a =? major b) && (minor a =? minor b) && (patch a =? patch b).

(** [testSet(set, version, options)] without [includePrerelease]: every
    comparator passes, and a version carrying a prerelease tag is only
    let through by a comparator with a prerelease on the same
    [major.minor.patch]. *)
Definition testSet (set : Range) (v : SemVer) : bool :=
  forallb (fun c => comparator_test c v) set
  && match prerelease v with
     | [] => true
     | _ :: _ =>
         existsb (fun c => match prerelease (comp_semver c) with
                           | [] => false
                           | _ :: _ => same_tuple (comp_semver c) v
                           end) set
     end.

(** [range.test(version)] on a version string: a string that does not
    parse is not in the range. *)
Definition range_test (r : Range) (v : string) : bool :=
  match parse_strict v with
  | Some sv => testSet r sv
  | None => false
  end.

(** The body of the [forEach] in [maxSatisfying]; the state is the pair
    [(max, maxSV)]. *)
Definition maxSatisfying_step (r : Range) (acc : option (string * SemVer))
    (v : string) : option (string * SemVer) :=
  if range_test r v then
    match acc, parse_strict v with
    | None, Some sv => Some (v, sv)
    | Some (_, maxSV), Some sv =>
        if compare maxSV sv =? -1 then Some (v, sv) else acc
    | _, None => acc
    end
  else acc.

(** [semver.maxSatisfying(versions, range)] *)
Definition maxSatisfying (versions : list string) (r : Range) : option string :=
  option_map fst (fold_left (maxSatisfying_step r) versions None).

(** The range [<M.0.0]. *)
Definition range_below_major (M : Z) : Range :=
  [mkComparator OpLt (mkSemVer M 0 0 [])].

(** The range [>=M.0.0 <M.m.0]. *)
Definition range_same_major_below_minor (M m : Z) : Range :=
  [mkComparator OpGte (mkSemVer M 0 0 []); mkComparator OpLt (mkSemVer M m 0 [])].

(** [new SemVer(version, loose)] for a [SemVer] object whose own
    [loose] property is [flag]: the object itself when the two agree,
    otherwise a new parse, strict or loose as asked, of its [version]
    string; [None] when that throws. *)
Definition reconstruct (loose : bool) (v : SemVer) (flag : bool) : option SemVer :=
  if Bool.eqb flag loose then Some v
  else if loose then parse_loose (version v) else parse_strict (version v).

End Semver.

(** ** Module [version-utils] *)

Module VersionUtils.

(** The body of [coerceSemver] for a string argument; [None] is a
    [null] result. *)
Definition coerceSemver_string (val : string) : option Semver.SemVer :=
  match Semver.parse_loose val with
  | Some v => Some v
  | None =>
      let version := Semver.coerce val in
      let groups := match Semver.coerce_match val with
                    | None => []
                    | Some (g1, None, _) => [g1]
                    | Some (g1, Some g2, None) => [g1; g2]
                    | Some (g1, Some g2, Some g3) => [g1; g2; g3]
                    end in
      let prefix := String.concat "." groups in
      let prerelease :=
        String.substring (String.length prefix)
          (String.length val - String.length prefix) val in
      match prerelease with
      | EmptyString => version
      | _ =>
          match version with
          | None => None
          | Some v =>
              match Semver.parse_loose
                      (Semver.version v ++ "-" ++ prerelease) with
              | Some v' => Some v'
              | None => Some v
              end
          end
      end
  end.

(** [coerceSemver(val)]: throws on [undefined] and [null]. *)
Definition coerceSemver (val : jsval) : completion (option Semver.SemVer) :=
  match val with
  | JUndefined | JNull =>
      Throw "Undefined or null value passed to coerceSemver."
  | JString s => Return (coerceSemver_string s)
  end.

(** A [SemVer] object together with its [loose] property, which
    semver's comparison functions consult. *)
Definition coerced : Type := Semver.SemVer * bool.

(** The body of [coerceSemver] once more, keeping the [loose] property
    of the object it returns: [true] for an object built by
    [semver.SemVer(..., { loose: true })], [false] for one that
    [semver.coerce] built. *)
Definition coerceSemver_object (val : string) : option coerced :=
  match Semver.parse_loose val with
  | Some v => Some (v, true)
  | None =>
      let version := Semver.coerce val in
      let groups := match Semver.coerce_match val with
                    | None => []
                    | Some (g1, None, _) => [g1]
                    | Some (g1, Some g2, None) => [g1; g2]
                    | Some (g1, Some g2, Some g3) => [g1; g2; g3]
                    end in
      let prefix := String.concat "." groups in
      let prerelease :=
        String.substring (String.length prefix)
          (String.length val - String.length prefix) val in
      match prerelease with
      | EmptyString =>
          match version with
          | Some v => Some (v, false)
          | None => None
          end
      | _ =>
          match version with
          | None => None
          | Some v =>
              match Semver.parse_loose
                      (Semver.version v ++ "-" ++ prerelease) with
              | Some v' => Some (v', true)
              | None => Some (v, false)
              end
          end
      end
  end.

(** [coerceSemver(val)] with the [loose] property of its result. *)
Definition coerceSemver_coerced (val : jsval) : completion (option coerced) :=
  match val with
  | JUndefined | JNull =>
      Throw "Undefined or null value passed to coerceSemver."
  | JString s => Return (coerceSemver_object s)
  end.

End VersionUtils.

(** ** Module [systems/apt/strategy] *)

Module APTStrategy.

(** The comparator handed to [Array.prototype.sort]. *)
Definition comp (ascending : bool) (a b : Semver.SemVer) : Z :=
  if ascending then Semver.compare a b else - Semver.compare a b.

(** [a] may come before [b] under the comparator. *)
Definition before (ascending : bool) (a b : Semver.SemVer) : Prop :=
  comp ascending a b <= 0.

(** The comparator on the objects being sorted: it reads their versions
    and ignores their [loose] property. *)
Definition comparefn (ascending : bool) (a b : VersionUtils.coerced) : Z :=
  comp ascending (fst a) (fst b).

(** One pass of the inner loop of the engine's insertion sort.  [sorted]
    holds the already sorted prefix from its last element down; the new
    element moves left past every entry that the comparator orders after
    it. *)
Fixpoint insert_back {A} (comparefn : A -> A -> Z) (element : A)
    (sorted : list A) : list A :=
  match sorted with
  | [] => [element]
  | tmp :: rest =>
      if 0 <? comparefn tmp element
      then tmp :: insert_back comparefn element rest
      else element :: sorted
  end.

(** [versions.sort(comp)].  The algorithm is the engine's; the model is
    the insertion sort that the engine of the image the project is built
    on (Node 10) runs on arrays of up to ten elements.  On longer arrays
    that engine sorts by another algorithm, which under a comparator that
    is a total preorder can differ only in the order of versions the
    comparator holds equal. *)
Definition array_sort {A} (comparefn : A -> A -> Z) (versions : list A) : list A :=
  rev (fold_left (fun sorted element => insert_back comparefn element sorted)
         versions []).

(** [_.partial(ascending ? semver.gte : semver.lte, _, cutoff)] as
    [Array.prototype.filter] calls it, with the element and its index:
    the index lands in the [loose] parameter of [semver.gte] and
    [semver.lte], which rebuild both versions with it before comparing.
    So at index 0 the comparison is strict, at every other index loose. *)
Definition keep (ascending : bool) (cutoff v : VersionUtils.coerced)
    (index : nat) : completion bool :=
  let loose := negb (index =? 0)%nat in
  match Semver.reconstruct loose (fst v) (snd v),
        Semver.reconstruct loose (fst cutoff) (snd cutoff) with
  | Some a, Some b =>
      Return (if ascending then Semver.gte a b else Semver.lte a b)
  | _, _ => Throw "TypeError"
  end.

(** [array.filter(callback)] from [index] on, for a callback that may
    throw. *)
Fixpoint filter_from {A} (callback : A -> nat -> completion bool) (index : nat)
    (array : list A) : completion (list A) :=
  match array with
  | [] => Return []
  | x :: rest =>
      bindC (callback x index) (fun kept =>
        bindC (filter_from callback (S index) rest) (fun r =>
          Return (if kept then x :: r else r)))
  end.

(** [[a, b, ...]] with every entry non-null, or [None]. *)
Fixpoint all_some {A} (l : list (option A)) : option (list A) :=
  match l with
  | [] => Some []
  | None :: _ => None
  | Some x :: l' =>
      match all_some l' with
      | Some r => Some (x :: r)
      | None => None
      end
  end.

(** [sortPackageVersions(versions, ascending, cutoff)].  A version that
    coerces to [null] makes the comparator, the filter or the final
    [v.version] raise a [TypeError]. *)
Definition sortPackageVersions (versions : list string) (ascending : bool)
    (cutoff : jsval) : completion (list string) :=
  let coerced := map VersionUtils.coerceSemver_object versions in
  bindC (VersionUtils.coerceSemver_coerced cutoff) (fun cutoff' =>
    match all_some coerced with
    | None => Throw "TypeError"
    | Some vs =>
        let sorted := array_sort (comparefn ascending) vs in
        bindC (match cutoff' with
               | Some c => filter_from (keep ascending c) 0 sorted
               | None => Return sorted
               end)
          (fun filtered => Return (map (fun v => Semver.version (fst v)) filtered))
    end).

(** JavaScript truthiness of a field value. *)
Definition truthy (v : jsval) : bool :=
  match v with
  | JString (String _ _) => true
  | JString EmptyString | JUndefined | JNull => false
  end.

(** [_.includes(versions, version)] *)
Definition includes (versions : list string) (version : jsval) : bool :=
  match version with
  | JString v => existsb (String.eqb v) versions
  | JUndefined | JNull => false
  end.

(** [_.first(versions)] *)
Definition first (versions : list string) : jsval :=
  match versions with
  | [] => JUndefined
  | v :: _ => JString v
  end.

(** [searchForExactPackageMatch(name, version)], over the adapter's
    [getAvailablePackageVersions]. *)
Definition searchForExactPackageMatch
    (getAvailablePackageVersions : string -> completion (list string))
    (name : string) (version : jsval) : completion (option object) :=
  bindC (getAvailablePackageVersions name) (fun versions =>
    if truthy version && negb (includes versions version) then Return None
    else
      Return (Some [("name", JString name);
                    ("version", if truthy version then version else first versions);
                    ("system", JString "apt")])).

End APTStrategy.

(** ** Module [mutation/versions]: the semver mutators *)

Record Changes : Type := mkChanges {
  changes_package : jsval;
  changes_from : jsval;
  changes_to : jsval
}.

(** The bookkeeping a search attaches to a mutation it applied. *)
Record IddfsInfo : Type := mkIddfsInfo {
  iddfs_index : nat;
  iddfs_mutatorIndex : nat
}.

Record Mutation : Type := mkMutation {
  mutation_type : string;
  changes : Changes;
  iddfs : option IddfsInfo
}.

Record MutationResult : Type := mkMutationResult {
  mutant : object;
  mutation : Mutation
}.

(** The [Mutator] interface. *)
Record Mutator : Type := mkMutator {
  mutator_name : string;
  apply : object -> completion (option MutationResult);
  undo : object -> Mutation -> completion object
}.

Definition TYPE_DECREMENT_SEMVER_MAJOR : string := "decrement_semver_major".
Definition TYPE_DECREMENT_SEMVER_MINOR : string := "decrement_semver_minor".

(** A lookup table from semver strings to version names. *)
Definition table := list (string * string).

Fixpoint table_get (t : table) (k : string) : option string :=
  match t with
  | [] => None
  | (k', v) :: t' => if String.eqb k' k then Some v else table_get t' k
  end.

Fixpoint table_set (t : table) (k v : string) : table :=
  match t with
  | [] => [(k, v)]
  | (k', v') :: t' =>
      if String.eqb k' k then (k', v) :: t' else (k', v') :: table_set t' k v
  end.

(** [_.keys(t)] *)
Definition table_keys (t : table) : list string := map fst t.

Section SemverMutators.

(** [factory.getSystemStrategy(system).getAvailablePackageVersions(name)]:
    the package registry, which lies outside the repository. *)
Variable getAvailablePackageVersions : jsval -> jsval -> completion (list string).

(** [getSemverLookupTable(dependency)]: pair every available version
    with its coerced semver, drop the pairs whose semver is [null], and
    key the version names by the semver's string. *)
Definition getSemverLookupTable (dependency : object) : completion table :=
  bindC (getAvailablePackageVersions (get dependency "system") (get dependency "name"))
    (fun availableVersions =>
       let pairs :=
         omap (fun v => match VersionUtils.coerceSemver_string v with
                        | Some sv => Some (Semver.version sv, v)
                        | None => None
                        end) availableVersions in
       Return (fold_left (fun t kv => table_set t (fst kv) (snd kv)) pairs [])).

(** The tail shared by both [apply] methods once the range is known. *)
Definition apply_with_range (name : string) (dependency : object)
    (range : Semver.Range) : completion (option MutationResult) :=
  bindC (getSemverLookupTable dependency) (fun lookup =>
    let lastVersion := Semver.maxSatisfying (table_keys lookup) range in
    let newVersion := match lastVersion with
                      | Some k => table_get lookup k
                      | None => None
                      end in
    match newVersion with
    | Some nv =>
        if String.eqb nv "" then Return None
        else
          let mutantDependency :=
            assign (clone dependency) [("version", JString nv)] in
          Return (Some (mkMutationResult mutantDependency
                    (mkMutation name
                       (mkChanges (get dependency "name")
                                  (get dependency "version")
                                  (get mutantDependency "version"))
                       None)))
    | None => Return None
    end).

(** [DecrementSemverMajorVersion.apply] *)
Definition decrementSemverMajor_apply (dependency : object)
  : completion (option MutationResult) :=
  bindC (VersionUtils.coerceSemver (get dependency "version")) (fun version =>
    match version with
    | Some v =>
        if 0 <? Semver.major v then
          apply_with_range TYPE_DECREMENT_SEMVER_MAJOR dependency
            (Semver.range_below_major (Semver.major v))
        else Return None
    | None => Return None
    end).

(** [DecrementSemverMinorVersion.apply] *)
Definition decrementSemverMinor_apply (dependency : object)
  : completion (option MutationResult) :=
  bindC (VersionUtils.coerceSemver (get dependency "version")) (fun version =>
    match version with
    | Some v =>
        if 0 <? Semver.minor v then
          apply_with_range TYPE_DECREMENT_SEMVER_MINOR dependency
            (Semver.range_same_major_below_minor (Semver.major v) (Semver.minor v))
        else Return None
    | None => Return None
    end).

(** [DependencySemverMutator.undo] *)
Definition semver_undo (dependency : object) (m : Mutation) : completion object :=
  Return (assign (clone dependency) [("version", changes_from (changes m))]).

Definition decrementSemverMajor : Mutator :=
  mkMutator TYPE_DECREMENT_SEMVER_MAJOR decrementSemverMajor_apply semver_undo.

Definition decrementSemverMinor : Mutator :=
  mkMutator TYPE_DECREMENT_SEMVER_MINOR decrementSemverMinor_apply semver_undo.

(** List of mutators by precedence for iteration. *)
Definition versionMutators : list Mutator :=
  [decrementSemverMajor; decrementSemverMinor].

(** [lookup[type]] *)
Definition mutator_lookup (type : string) : option Mutator :=
  find (fun m => String.eqb (mutator_name m) type) versionMutators.

End SemverMutators.

(** ** Module [mutation]: search strategies *)

(** The part of an environment the searches read and write: the ordered
    dependency list and [metadata.mutations].  Both are arrays that the
    iterative-deepening searches update in place. *)
Record Environment : Type := mkEnvironment {
  env_id : string;
  dependencies : list object;
  mutations : list Mutation
}.

(** [array.pop()]: the last element and the remaining array. *)
Definition pop {A} (l : list A) : option (A * list A) :=
  match rev l with
  | [] => None
  | x :: r => Some (x, rev r)
  end.

(** [array.push(x)] *)
Definition push {A} (l : list A) (x : A) : list A := l ++ [x].

Section IDDFS.

Variable getAvailablePackageVersions : jsval -> jsval -> completion (list string).

Local Abbreviation mutators := (versionMutators getAvailablePackageVersions).

(** The local variables of [IDDFS] together with the environment object
    they reference. *)
Record iddfs_state : Type := mkIddfs {
  st_env : Environment;
  currentDepth : nat;
  depth : nat;
  totalCount : nat;
  depthCount : nat;
  index : nat;
  mutatorIndex : nat
}.

(** Where the generator is suspended or about to run. *)
Inductive iddfs_config : Type :=
  | CStart (environment : Environment)
  | CFirstYield (environment : Environment)
  | CLoop (st : iddfs_state)
  | CYield (st : iddfs_state) (dependency : object).

Inductive iddfs_outcome : Type :=
  | OStep (c : iddfs_config)
  | OYield (environment : Environment) (c : iddfs_config)
  | OExhausted (st : iddfs_state)
  | OBudget (st : iddfs_state)
  | OStuck.

(** The move to the next mutator, or to the next dependency once the
    mutators are used up. *)
Definition lateral (st : iddfs_state) : iddfs_state :=
  match mutators !! (mutatorIndex st + 1)%nat with
  | Some _ =>
      mkIddfs (st_env st) (currentDepth st) (depth st) (totalCount st)
        (depthCount st) (index st) (mutatorIndex st + 1)
  | None =>
      mkIddfs (st_env st) (currentDepth st) (depth st) (totalCount st)
        (depthCount st) (index st + 1) 0
  end.

Definition with_env (st : iddfs_state) (deps : list object)
    (muts : list Mutation) : Environment :=
  mkEnvironment (env_id (st_env st)) deps muts.

(** The branch taken when [dependencies[index]] is undefined. *)
Definition iddfs_no_dependency (st : iddfs_state) : completion iddfs_outcome :=
  let deps := dependencies (st_env st) in
  let muts := mutations (st_env st) in
  if (0 <? currentDepth st)%nat then
    match pop muts with
    | None => Throw "TypeError"
    | Some (m, muts') =>
        match iddfs m with
        | None => Throw "TypeError"
        | Some info =>
            let i := iddfs_index info in
            match mutator_lookup getAvailablePackageVersions (mutation_type m) with
            | None => Throw "TypeError"
            | Some mut =>
                match deps !! i with
                | None => Return OStuck
                | Some d =>
                    bindC (undo mut d m) (fun d' =>
                      Return (OStep (CLoop (lateral
                        (mkIddfs (with_env st (<[i := d']> deps) muts')
                           (currentDepth st - 1) (depth st) (totalCount st)
                           (depthCount st) i (iddfs_mutatorIndex info))))))
                end
            end
        end
    end
  else if (depthCount st =? 0)%nat then Return (OExhausted st)
  else
    Return (OStep (CLoop
      (mkIddfs (st_env st) 0 (depth st + 1) (totalCount st) 0 0 0))).

(** The branch taken when the next dependency was found. *)
Definition iddfs_mutate (st : iddfs_state) (dependency : object)
  : completion iddfs_outcome :=
  let deps := dependencies (st_env st) in
  let muts := mutations (st_env st) in
  match mutators !! mutatorIndex st with
  | None => Throw "TypeError"
  | Some mutator =>
      bindC (apply mutator dependency) (fun mutationResult =>
        match mutationResult with
        | Some r =>
            let m := mkMutation (mutation_type (mutation r)) (changes (mutation r))
                       (Some (mkIddfsInfo (index st) (mutatorIndex st))) in
            let env' := with_env st (<[index st := mutant r]> deps) (push muts m) in
            if (currentDepth st + 1 =? depth st)%nat then
              let st' := mkIddfs env' (currentDepth st + 1) (depth st)
                           (totalCount st + 1) (depthCount st + 1)
                           (index st) (mutatorIndex st) in
              Return (OYield env' (CYield st' dependency))
            else
              Return (OStep (CLoop
                (mkIddfs env' (currentDepth st + 1) (depth st) (totalCount st)
                   (depthCount st) (index st) (mutatorIndex st))))
        | None => Return (OStep (CLoop (lateral st)))
        end)
  end.

(** What runs after the consumer resumes the generator from the yield
    inside the loop. *)
Definition iddfs_resume (st : iddfs_state) (dependency : object) : iddfs_state :=
  let deps := dependencies (st_env st) in
  let muts := mutations (st_env st) in
  let muts' := match pop muts with
               | Some (_, rest) => rest
               | None => muts
               end in
  lateral (mkIddfs (with_env st (<[index st := dependency]> deps) muts')
             (currentDepth st - 1) (depth st) (totalCount st) (depthCount st)
             (index st) (mutatorIndex st)).

(** One transition of the generator: up to the next yield, the next
    loop head, or its end. *)
Definition iddfs_step (n : nat) (c : iddfs_config) : completion iddfs_outcome :=
  match c with
  | CStart environment => Return (OYield environment (CFirstYield environment))
  | CFirstYield environment =>
      Return (OStep (CLoop (mkIddfs environment 0 1 0 0 0 0)))
  | CYield st dependency => Return (OStep (CLoop (iddfs_resume st dependency)))
  | CLoop st =>
      if (totalCount st <? n)%nat then
        match dependencies (st_env st) !! index st with
        | None => iddfs_no_dependency st
        | Some dependency => iddfs_mutate st dependency
        end
      else Return (OBudget st)
  end.

(** How a run of the generator ended. *)
Inductive iddfs_end : Type :=
  | Exhausted (environment : Environment)
  | BudgetReached (environment : Environment)
  | Thrown (msg : string)
  | Stuck
  | OutOfFuel.

(** Drive the generator for at most [fuel] transitions, collecting the
    environments it yields (as they were when yielded). *)
Fixpoint iddfs_run (fuel n : nat) (c : iddfs_config)
  : list Environment * iddfs_end :=
  match fuel with
  | O => ([], OutOfFuel)
  | S fuel' =>
      match iddfs_step n c with
      | Throw msg => ([], Thrown msg)
      | Return (OStep c') => iddfs_run fuel' n c'
      | Return (OYield e c') =>
          let '(ys, fin) := iddfs_run fuel' n c' in (e :: ys, fin)
      | Return (OExhausted st) => ([], Exhausted (st_env st))
      | Return (OBudget st) => ([], BudgetReached (st_env st))
      | Return OStuck => ([], Stuck)
      end
  end.

End IDDFS.

(** *** [naiveLevelOrderTraversal] *)

Section LevelOrder.

Variable getAvailablePackageVersions : jsval -> jsval -> completion (list string).

Local Abbreviation mutators := (versionMutators getAvailablePackageVersions).

(** The callback of the inner [Bluebird.map]: the mutant environment for
    one mutator and one dependency.  [mutationResult.mutant] is read
    before the result is tested, so a mutator without a result raises a
    [TypeError]. *)
Definition mutate_at (environment : Environment) (versionMutator : Mutator)
    (index : nat) (dependency : object) : completion Environment :=
  bindC (apply versionMutator dependency) (fun mutationResult =>
    match mutationResult with
    | None => Throw "TypeError"
    | Some r =>
        Return (mkEnvironment (env_id environment)
                  (<[index := mutant r]> (dependencies environment))
                  (push (mutations environment) (mutation r)))
    end).

(** [Bluebird.map]: the results in order, or an error as soon as one
    callback fails.  The callbacks run concurrently in the source; which
    of several errors is reported is therefore not fixed, and the
    properties below only speak of an error being raised. *)
Fixpoint map_all {A B} (f : A -> completion B) (l : list A) : completion (list B) :=
  match l with
  | [] => Return []
  | x :: l' =>
      bindC (f x) (fun y => bindC (map_all f l') (fun ys => Return (y :: ys)))
  end.

(** [mutatedEnvironments]: one mutant per mutator and dependency,
    mutator by mutator. *)
Definition mutatedEnvironments (environment : Environment)
  : completion (list Environment) :=
  bindC (map_all (fun versionMutator =>
                    map_all (fun p => mutate_at environment versionMutator (fst p) (snd p))
                      (imap (fun index dependency => (index, dependency))
                         (dependencies environment)))
           mutators)
    (fun nested => Return (concat nested)).

(** The [for] loop over one level: the environments yielded, and the
    next level or the error that ended the traversal.  [inner] tells
    whether the level is above the last one. *)
Fixpoint level_pass (inner : bool) (environments : list Environment)
  : list Environment * completion (list Environment) :=
  match environments with
  | [] => ([], Return [])
  | environment :: rest =>
      if inner then
        match mutatedEnvironments environment with
        | Throw msg => ([environment], Throw msg)
        | Return mutated =>
            let '(ys, next) := level_pass inner rest in
            (environment :: ys,
             bindC next (fun nextLevel => Return (mutated ++ nextLevel)%list))
        end
      else
        let '(ys, next) := level_pass inner rest in (environment :: ys, next)
  end.

(** The [while] loop with [remaining = levels - level] levels to go: all
    the environments yielded, and the error if one ended the run. *)
Fixpoint level_order (remaining : nat) (environments : list Environment)
  : list Environment * option string :=
  match remaining with
  | O => ([], None)
  | S remaining' =>
      match environments with
      | [] => ([], None)
      | _ :: _ =>
          let '(ys, next) :=
            level_pass (negb (remaining' =? 0)%nat) environments in
          match next with
          | Throw msg => (ys, Some msg)
          | Return nextLevel =>
              let '(ys', fin) := level_order remaining' nextLevel in
              ((ys ++ ys')%list, fin)
          end
      end
  end.

Definition naiveLevelOrderTraversal (environments : list Environment)
    (levels : nat) : list Environment * option string :=
  level_order levels environments.

End LevelOrder.

(** *** The spreading wrapper *)

Section SpreadFirstN.

(** A per-root search coroutine: [G] is its suspended state, [E] what it
    yields, [V] the validation it is resumed with and [M] the metadata
    it may return. *)
Variables G E V M : Type.

Inductive gen_result : Type :=
  | GYield (value : E) (g : G)
  | GDone (value : option M)
  | GThrow (msg : string).

(** [generator.next(validation)] *)
Variable gen_next : G -> option V -> gen_result.

(** [search(environment, n)]: a new, not yet started coroutine. *)
Variable search : E -> nat -> G.

(** [_.ceil(n / length)] for a non-empty list of roots.  (With no root
    the quotient is not used: no generator is created.) *)
Definition per_root (n len : nat) : nat := ((n + len - 1) / len)%nat.

(** A queue entry [[generator, lastValidation]].  The leading number is
    the position of the generator's root in [environments]; the source
    does not store it, it only names the root in statements about the
    yield stream. *)
Definition entry : Type := nat * G * option V.

(** The wrapper's variables while it is suspended: the queue, the
    generator whose value is being yielded (not yet back on the queue),
    and the metadata collected so far. *)
Record spread_state : Type := mkSpread {
  generators : list entry;
  current : option (nat * G);
  metadata : list M
}.

Definition spread_start (environments : list E) (n : nat) : spread_state :=
  let n' := per_root n (length environments) in
  mkSpread (imap (fun i e => (i, search e n', None)) environments) None [].

Inductive spread_result : Type :=
  | SYield (root : nat) (value : E) (st : spread_state)
  | SDone (metadata : list M)
  | SThrow (msg : string).

(** The [while (generators.length)] loop, up to its next yield. *)
Fixpoint spread_loop (queue : list entry) (md : list M) : spread_result :=
  match queue with
  | [] => SDone md
  | (i, generator, lastValidation) :: rest =>
      match gen_next generator lastValidation with
      | GYield value g' => SYield i value (mkSpread rest (Some (i, g')) md)
      | GDone (Some value) => spread_loop rest (md ++ [value])%list
      | GDone None => spread_loop rest md
      | GThrow msg => SThrow msg
      end
  end.

(** [wrapper.next(validation)]: first finish the pending iteration by
    putting the generator that yielded back on the queue. *)
Definition spread_next (st : spread_state) (validation : option V)
  : spread_result :=
  let queue := match current st with
               | Some (i, g) => (generators st ++ [(i, g, validation)])%list
               | None => generators st
               end in
  spread_loop queue (metadata st).

(** The first [k] yields of the wrapper when the consumer answers the
    [j]-th yield with [responses j]; the result pairs the yields (root
    and value) with the state the wrapper is left in, when it is still
    suspended. *)
Fixpoint spread_run (k : nat) (st : spread_state) (input : option V)
    (responses : nat -> option V) (j : nat)
  : list (nat * E) * option spread_state :=
  match k with
  | O => ([], Some st)
  | S k' =>
      match spread_next st input with
      | SYield i value st' =>
          let '(ys, fin) := spread_run k' st' (responses j) responses (S j) in
          ((i, value) :: ys, fin)
      | SDone _ | SThrow _ => ([], None)
      end
  end.

(** The roots whose coroutine has not completed. *)
Definition live (st : spread_state) : list nat :=
  (map (fun e => fst (fst e)) (generators st)
   ++ match current st with Some (i, _) => [i] | None => [] end)%list.

(** How many of the yields came from root [i]. *)
Definition yields_of (i : nat) (ys : list (nat * E)) : nat :=
  length (List.filter (fun y => Nat.eqb (fst y) i) ys).

End SpreadFirstN.

Arguments GYield {G E M} value g.
Arguments GDone {G E M} value.
Arguments GThrow {G E M} msg.
Arguments SYield {G E V M} root value st.
Arguments SDone {G E V M} metadata.
Arguments SThrow {G E V M} msg.
Arguments generators {G V M} s.
Arguments current {G V M} s.
Arguments metadata {G V M} s.
Arguments mkSpread {G V M} generators current metadata.
Arguments spread_start {G E V M} search environments n.
Arguments spread_loop {G E V M} gen_next queue md.
Arguments spread_next {G E V M} gen_next st validation.
Arguments spread_run {G E V M} gen_next k st input responses j.
Arguments live {G V M} st.
Arguments yields_of {E} i ys.

(** *** Version-matrix mutation planning *)

(** The lookup dictionary built from the query records. *)
Definition matrix := list (string * list string).

Fixpoint matrix_get (t : matrix) (k : string) : option (list string) :=
  match t with
  | [] => None
  | (k', v) :: t' => if String.eqb k' k then Some v else matrix_get t' k
  end.

Fixpoint matrix_set (t : matrix) (k : string) (v : list string) : matrix :=
  match t with
  | [] => [(k, v)]
  | (k', v') :: t' =>
      if String.eqb k' k then (k', v) :: t' else (k', v') :: matrix_set t' k v
  end.

(** A key that is a canonical array index ([0] to [2^32 - 2]). *)
Definition is_array_index (k : string) : bool :=
  Semver.numeric_strict k && (Semver.digits_value k <? 2 ^ 32 - 1).

Definition index_le (a b : string) : Prop :=
  Semver.digits_value a <= Semver.digits_value b.

#[export] Instance index_le_dec a b : Decision (index_le a b).
Proof. unfold index_le. apply Z_le_dec. Defined.

(** [_.keys(lookup)]: array-index keys in ascending numeric order, then
    the other keys in insertion order. *)
Definition matrix_keys (t : matrix) : list string :=
  let ks := map fst t in
  (merge_sort index_le
     (List.filter (fun k => is_array_index k) ks)
   ++ List.filter (fun k => negb (is_array_index k)) ks)%list.

Definition TYPE_VERSION_MATRIX_FROM : string := "version_matrix_from_version".

(** The variables the two nested [_.each] loops update. *)
Record matrix_state : Type := mkMatrixState {
  encountered : gset string;
  ms_mutant : object;
  ms_mutations : list MutationResult
}.

Section VersionMatrix.

(** [strategy.sortPackageVersions] of the dependency's package system. *)
Variable sortPackageVersions :
  list string -> bool -> jsval -> completion (list string).

(** The body of the inner [_.each]: one mutation per neighbour. *)
Definition matrix_visit (dependency : object) (s : matrix_state)
    (from_version : string) : matrix_state :=
  let mutant0 := clone (ms_mutant s) in
  let m := mkMutation TYPE_VERSION_MATRIX_FROM
             (mkChanges (get dependency "name") (get mutant0 "version")
                        (JString from_version))
             None in
  let mutant1 := set_key mutant0 "version" (JString from_version) in
  mkMatrixState (encountered s ∪ {[from_version]}) mutant1
    (push (ms_mutations s) (mkMutationResult mutant1 m)).

(** The body of the outer [_.each]. *)
Definition matrix_explore (lookup : matrix) (dependency : object)
    (s : matrix_state) (to_version : string) : matrix_state :=
  let s1 :=
    if negb (jsval_eqb (JString to_version) (get dependency "version"))
       && negb (bool_decide (to_version ∈ encountered s))
    then mkMatrixState (encountered s ∪ {[to_version]}) (ms_mutant s)
           (ms_mutations s)
    else s in
  fold_left (matrix_visit dependency)
    (default [] (matrix_get lookup to_version)) s1.

(** [versionMatrixMutations(dependency)], given the answers of the two
    graph queries: whether the package has upgrade data at all, and the
    breaking-upgrade records [(v1, [v2, ...])].  [None] is the [null]
    result. *)
Definition versionMatrixMutations (hasUpgrade : bool)
    (records : list (string * list string)) (dependency : object)
  : completion (option (list MutationResult)) :=
  if hasUpgrade then
    match records with
    | [] => Return (Some [])
    | _ :: _ =>
        let lookup :=
          fold_left (fun t r => matrix_set t (fst r) (snd r)) records [] in
        bindC (sortPackageVersions (matrix_keys lookup) false
                 (get dependency "version"))
          (fun sortedVersions =>
             Return (Some (ms_mutations
               (fold_left (matrix_explore lookup dependency) sortedVersions
                  (mkMatrixState ∅ dependency [])))))
    end
  else Return None.

End VersionMatrix.

(** ** [V2.infer]: the validation pump *)

Inductive InferenceError (MD : Type) : Type :=
  | InferenceTimeoutError (time : Z) (validations : nat) (message : string)
  | NoWorkingEnvironmentFoundError (time : Z) (validations : nat)
      (metadata : option MD) (message : string)
  | OtherError (message : string).
Arguments InferenceTimeoutError {MD} time validations message.
Arguments NoWorkingEnvironmentFoundError {MD} time validations metadata message.
Arguments OtherError {MD} message.

Section Infer.

(** The mutant generator ([G], yielding [E], returning [MD]), the
    validation records [V] and the language strategy's validator. *)
Variables G E V MD : Type.

(** Validation records are objects that the pump shares with the search:
    the record pushed to [failedValidations] is the very object handed
    to [mutantGenerator.next], and a search may write to the records it
    was handed (the feedback-directed one sets [validations] on its
    checkpoint).  The records therefore live in a heap, addressed by
    their allocation number, and [failedValidations] holds addresses. *)
Definition heap : Type := list V.

(** [mutantGenerator.next(validation)]: the generator's answer and the
    heap as the writes of the search leave it. *)
Variable gen_next : G -> heap -> option nat -> gen_result G E MD * heap.
Variable validateEnvironment : E -> completion V.
Variable status_code_of : V -> string.
Variable truncateInstallErrors : V -> V.
Variable V_eqb : V -> V -> bool.

Definition SUCCESS : string := "Success".

(** [_.toInteger(Date.now() / 1000)] for a clock reading in
    milliseconds: the quotient truncated toward zero. *)
Definition seconds (now_ms : Z) : Z := Z.quot now_ms 1000.

(** [inferenceMetadata], the generator's last answer and the heap of
    validation records. *)
Record pump_state : Type := mkPump {
  start : Z;
  failedValidations : list nat;
  numValidations : nat;
  control : gen_result G E MD;
  records : heap
}.

Inductive pump_outcome : Type :=
  | PContinue (st : pump_state)
  | PSuccess (environment : E) (validation : V) (st : pump_state)
  | PRaise (e : InferenceError MD).

(** [_.isEqual(a, b)] on the records at two addresses, as they are now. *)
Definition isEqual (h : heap) (a b : nat) : bool :=
  match h !! a, h !! b with
  | Some x, Some y => V_eqb x y
  | _, _ => false
  end.

(** Lodash's [baseUniq] with a comparator: a value is kept unless the
    comparator identifies it with a value kept before. *)
Fixpoint baseUniq (h : heap) (result array : list nat) : list nat :=
  match array with
  | [] => result
  | value :: rest =>
      if existsb (fun seen => isEqual h value seen) result
      then baseUniq h result rest
      else baseUniq h (result ++ [value])%list rest
  end.

(** [_.unionWith(failed, [validation], _.isEqual)] *)
Definition unionWith (h : heap) (failed : list nat) (validation : nat) : list nat :=
  baseUniq h [] (failed ++ [validation])%list.

(** One turn of [while (!control.done)], or what follows the loop when
    the generator is done.  [now_ms] is what [Date.now()] returns at the
    single place this turn reads the clock. *)
Definition pump_iteration (st : pump_state) (now_ms : Z) : pump_outcome :=
  match control st with
  | GThrow msg => PRaise (OtherError msg)
  | GDone value =>
      PRaise (NoWorkingEnvironmentFoundError (seconds now_ms - start st)
                (numValidations st) value
                "Unable to find a working environment configuration")
  | GYield environment g =>
      let now := seconds now_ms in
      let elapsed := now - start st in
      if 3600 <? elapsed then
        PRaise (InferenceTimeoutError elapsed (numValidations st)
                  "Inference timed out.")
      else
        match validateEnvironment environment with
        | Throw msg => PRaise (OtherError msg)
        | Return validation0 =>
            let num := S (numValidations st) in
            let validation := truncateInstallErrors validation0 in
            if String.eqb (status_code_of validation) SUCCESS then
              PSuccess environment validation
                (mkPump (start st) (failedValidations st) num (control st)
                   (records st))
            else
              let address := length (records st) in
              let h := (records st ++ [validation])%list in
              let failed := unionWith h (failedValidations st) address in
              let '(control', h') := gen_next g h (Some address) in
              PContinue (mkPump (start st) failed num control' h')
        end
  end.

(** The state in which the pump is entered. *)
Definition pump_start (start_ms : Z) (mutantGenerator : G) : pump_state :=
  let '(control0, h) := gen_next mutantGenerator [] None in
  mkPump (seconds start_ms) [] 0 control0 h.

(** The state at the head of the loop after the turns timed by
    [clock], when each of them went on to the next turn. *)
Fixpoint pump_turns (st : pump_state) (clock : list Z) : option pump_state :=
  match clock with
  | [] => Some st
  | now_ms :: clock' =>
      match pump_iteration st now_ms with
      | PContinue st' => pump_turns st' clock'
      | _ => None
      end
  end.

End Infer.

Arguments mkPump {G E V MD} start failedValidations numValidations control records.
Arguments start {G E V MD} p.
Arguments failedValidations {G E V MD} p.
Arguments numValidations {G E V MD} p.
Arguments control {G E V MD} p.
Arguments records {G E V MD} p.
Arguments PContinue {G E V MD} st.
Arguments PSuccess {G E V MD} environment validation st.
Arguments PRaise {G E V MD} e.
Arguments isEqual {V} V_eqb h a b.
Arguments baseUniq {V} V_eqb h result array.
Arguments unionWith {V} V_eqb h failed validation.
Arguments pump_iteration {G E V MD} gen_next validateEnvironment status_code_of
  truncateInstallErrors V_eqb st now_ms.
Arguments pump_start {G E V MD} gen_next start_ms mutantGenerator.
Arguments pump_turns {G E V MD} gen_next validateEnvironment status_code_of
  truncateInstallErrors V_eqb st clock.

(** * Sample data

    Concrete inputs on which the definitions above are evaluated. *)

Module Samples.

Import PythonStrategy.

Definition own_file : string := "/app/snippet.py".

Definition frame (file : string) (line : Z) : Frame :=
  mkFrame file (Some line) (Some "<module>") None.

Definition failed (stack : list Frame) : EnvironmentValidation :=
  mkValidation "Failed"
    (Some (mkExecution "ImportError" "No module named x" None (Some stack))).

(** The script fails at line 10 of its top level, inside a helper
    defined at line 3. *)
Definition validation_a : EnvironmentValidation :=
  failed [frame own_file 10; frame own_file 3].

(** The script fails at line 5 of its top level, inside a helper
    defined at line 20. *)
Definition validation_b : EnvironmentValidation :=
  failed [frame own_file 5; frame own_file 20].

(** A validation that timed out: no execution record. *)
Definition validation_timeout : EnvironmentValidation :=
  mkValidation "Timeout" None.

(** A registry with a single package. *)
Definition registry (system name : jsval) : completion (list string) :=
  match system, name with
  | JString "pip", JString "scikit-learn" =>
      Return ["0.18.2"; "0.19.0"; "0.19.2"; "0.20.0"; "0.20.3"; "1.0.0"; "1.1.0"]
  | JString "pip", JString "keras" =>
      Return ["1.1.0"; "1.2.0-rc1"; "1.3.0"]
  | JString "pip", _ => Return []
  | _, _ => Throw "System not supported."
  end.

Definition dependency (name version : string) : object :=
  [("name", JString name); ("version", JString version); ("system", JString "pip")].

Definition scikit : object := dependency "scikit-learn" "1.1.0".
Definition keras : object := dependency "keras" "1.3.0".

End Samples.

(** * Properties *)

Local Open Scope list_scope.

(** ** Language strategy: [firstExecutionException] *)

Section FirstExecutionException.

Import PythonStrategy.

(** The comparison as the specification words it: the line of the
    deepest frame whose file is not under the third-party install
    prefix.  This definition follows the specification, not the code;
    it is only used to compare the two. *)
Definition spec_deepest_own_line (prefix : string) (v : EnvironmentValidation)
  : option Z :=
  match execution v with
  | None => None
  | Some e =>
      match exception_stack e with
      | None => None
      | Some stack =>
          match rev (List.filter
                       (fun f => negb (startsWith (frame_filename f) prefix))
                       stack) with
          | [] => None
          | f :: _ => frame_lineno f
          end
      end
  end.

Definition spec_firstExecutionException (prefix : string)
    (v1 v2 : EnvironmentValidation) : option (option EnvironmentValidation) :=
  match spec_deepest_own_line prefix v1, spec_deepest_own_line prefix v2 with
  | Some l1, Some l2 =>
      Some (if l1 <? l2 then Some v1 else if l2 <? l1 then Some v2 else None)
  | _, _ => None
  end.

(** C1, as stated, fails: on two validations whose traces lie entirely
    in the snippet, the deepest frames say the first validation failed
    earlier (line 3 against line 20) while the code, which reads the
    first row of each trace (line 10 against line 5), returns the
    second. *)
Lemma firstExecutionException_deepest_frame_cex :
  spec_firstExecutionException (site_packages_prefix "3.7")
    Samples.validation_a Samples.validation_b = Some (Some Samples.validation_a)
  /\ firstExecutionException Samples.validation_a Samples.validation_b
     = Return (Some Samples.validation_b)
  /\ Samples.validation_a <> Samples.validation_b.
Proof.
  split; [reflexivity | split; [reflexivity | discriminate]].
Qed.

(** The line the code compares is the second attribute of the first row
    of the trace, whatever file that row names. *)
Lemma get_line_first_row v e row rest :
  execution v = Some e -> exception_stack e = Some (row :: rest) ->
  get_line v = frame_lineno row.
Proof. intros He Hs. unfold get_line. now rewrite He, Hs. Qed.

(** C1 (amended): when the first rows of both traces carry line numbers
    [l1] and [l2], [firstExecutionException] returns the validation with
    the smaller of the two, and the null sentinel when they are
    equal. *)
Theorem firstExecutionException_first_row v1 v2 e1 e2 r1 r2 s1 s2 l1 l2 :
  execution v1 = Some e1 -> exception_stack e1 = Some (r1 :: s1) ->
  execution v2 = Some e2 -> exception_stack e2 = Some (r2 :: s2) ->
  frame_lineno r1 = Some l1 -> frame_lineno r2 = Some l2 ->
  firstExecutionException v1 v2
  = Return (if l1 <? l2 then Some v1 else if l2 <? l1 then Some v2 else None)
  /\ (l1 < l2 -> firstExecutionException v1 v2 = Return (Some v1))
  /\ (l2 < l1 -> firstExecutionException v1 v2 = Return (Some v2))
  /\ (l1 = l2 -> firstExecutionException v1 v2 = Return None).
Proof.
  intros H1 H2 H3 H4 H5 H6.
  assert (Hv : firstExecutionException v1 v2
               = Return (if l1 <? l2 then Some v1
                         else if l2 <? l1 then Some v2 else None)).
  { unfold firstExecutionException.
    rewrite (get_line_first_row _ _ _ _ H1 H2), (get_line_first_row _ _ _ _ H3 H4).
    rewrite H5, H6. destruct (l1 <? l2); [reflexivity|].
    destruct (l2 <? l1); reflexivity. }
  split; [exact Hv|]. rewrite Hv. repeat split; intros Hl.
  - apply Z.ltb_lt in Hl. now rewrite Hl.
  - assert ((l1 <? l2) = false) as -> by (apply Z.ltb_ge; lia).
    apply Z.ltb_lt in Hl. now rewrite Hl.
  - subst. now rewrite Z.ltb_irrefl.
Qed.

Lemma firstExecutionException_first_row_witness :
  firstExecutionException Samples.validation_a Samples.validation_b
  = Return (if 10 <? 5 then Some Samples.validation_a
            else if 5 <? 10 then Some Samples.validation_b else None).
Proof.
  eapply (firstExecutionException_first_row
            Samples.validation_a Samples.validation_b); reflexivity.
Defined.

(** C10: when the first row of either trace has no line number (the
    execution record, the trace, its first row or that row's second
    attribute is missing), [firstExecutionException] throws; it returns
    neither a validation nor the null sentinel. *)
Theorem firstExecutionException_throws v1 v2 :
  get_line v1 = None \/ get_line v2 = None ->
  firstExecutionException v1 v2
  = Throw "Unable to parse a line number from validation execution."
  /\ forall r, firstExecutionException v1 v2 <> Return r.
Proof.
  intros H. unfold firstExecutionException.
  destruct (get_line v1), (get_line v2), H; try discriminate;
    (split; [reflexivity | intros r; discriminate]).
Qed.

Lemma firstExecutionException_throws_witness :
  firstExecutionException Samples.validation_a Samples.validation_timeout
  = Throw "Unable to parse a line number from validation execution."
  /\ forall r, firstExecutionException Samples.validation_a
                 Samples.validation_timeout <> Return r.
Proof.
  apply (firstExecutionException_throws
           Samples.validation_a Samples.validation_timeout).
  right. reflexivity.
Defined.

End FirstExecutionException.

(** ** pip adapter: name normalization *)

(** C7 does not hold of the code: [String.prototype.replace] with a
    string pattern rewrites the first underscore only, so a second pass
    changes the name again. *)
Theorem normalizePackageName_not_idempotent :
  PIPStrategy.normalizePackageName "a__b" = "a-_b"
  /\ PIPStrategy.normalizePackageName (PIPStrategy.normalizePackageName "a__b")
     = "a--b"
  /\ PIPStrategy.normalizePackageName (PIPStrategy.normalizePackageName "a__b")
     <> PIPStrategy.normalizePackageName "a__b".
Proof. repeat split; discriminate. Qed.

(** ** Semver mutators: undo after apply *)

Section UndoApply.

Variable registry : jsval -> jsval -> completion (list string).

Lemma get_string_has_key (o : object) k s :
  get o k = JString s -> has_key o k = true.
Proof.
  induction o as [|[k' v] o IH]; simpl; [discriminate|].
  destruct (String.eqb k' k); [reflexivity | exact IH].
Qed.

(** Writing a key and then writing back the value it had gives the
    object back, key order included. *)
Lemma set_key_restore (o : object) k v :
  has_key o k = true -> set_key (set_key o k v) k (get o k) = o.
Proof.
  induction o as [|[k' v'] o IH]; simpl; [discriminate|].
  destruct (String.eqb k' k) eqn:E; simpl; rewrite E.
  - reflexivity.
  - intros H. now rewrite IH.
Qed.

Lemma get_set_key (o : object) k v : get (set_key o k v) k = v.
Proof.
  induction o as [|[k' v'] o IH]; simpl.
  - now rewrite String.eqb_refl.
  - destruct (String.eqb k' k) eqn:E; simpl; now rewrite E.
Qed.

Lemma get_set_key_other (o : object) k k' v :
  k <> k' -> get (set_key o k v) k' = get o k'.
Proof.
  intros Hne. induction o as [|[k0 v0] o IH]; simpl.
  - apply String.eqb_neq in Hne. now rewrite Hne.
  - destruct (String.eqb k0 k) eqn:E; simpl.
    + apply String.eqb_eq in E. subst k0.
      apply String.eqb_neq in Hne. now rewrite Hne.
    + destruct (String.eqb k0 k'); [reflexivity | exact IH].
Qed.

(** What a successful [apply] returns: the dependency with a new string
    in its [version] slot, and a record of the old and the new value. *)
Lemma apply_with_range_result name d range r :
  apply_with_range registry name d range = Return (Some r) ->
  exists nv,
    mutant r = set_key d "version" (JString nv)
    /\ mutation r = mkMutation name
         (mkChanges (get d "name") (get d "version") (JString nv)) None.
Proof.
  unfold apply_with_range.
  destruct (getSemverLookupTable registry d) as [lookup|]; simpl; [|discriminate].
  destruct (Semver.maxSatisfying (table_keys lookup) range) as [k|];
    [|discriminate].
  destruct (table_get lookup k) as [nv|]; [|discriminate].
  destruct (String.eqb nv ""); [discriminate|].
  intros H. injection H as <-. exists nv. simpl.
  split; [reflexivity|]. unfold assign, clone. simpl. now rewrite get_set_key.
Qed.

Lemma mutator_apply_result m d r :
  In m (versionMutators registry) -> apply m d = Return (Some r) ->
  exists s nv,
    get d "version" = JString s
    /\ mutant r = set_key d "version" (JString nv)
    /\ mutation r = mkMutation (mutator_name m)
         (mkChanges (get d "name") (get d "version") (JString nv)) None.
Proof.
  intros Hin Happ.
  assert (Hm : m = decrementSemverMajor registry \/ m = decrementSemverMinor registry).
  { simpl in Hin. intuition. }
  destruct Hm as [-> | ->]; simpl in *;
    unfold decrementSemverMajor_apply, decrementSemverMinor_apply in Happ;
    destruct (get d "version") as [| |s] eqn:Hv; simpl in Happ; try discriminate;
    destruct (VersionUtils.coerceSemver_string s) as [v|]; try discriminate.
  - destruct (0 <? Semver.major v); [|discriminate].
    apply apply_with_range_result in Happ as (nv & H1 & H2).
    exists s, nv. rewrite Hv in H2. auto.
  - destruct (0 <? Semver.minor v); [|discriminate].
    apply apply_with_range_result in Happ as (nv & H1 & H2).
    exists s, nv. rewrite Hv in H2. auto.
Qed.

(** The shared [undo] reads nothing of the mutation but its recorded
    [from]; on the mutant of a successful [apply] it rebuilds the
    dependency [apply] was given. *)
Lemma semver_undo_restores m d r info :
  In m (versionMutators registry) ->
  apply m d = Return (Some r) ->
  semver_undo (mutant r)
    (mkMutation (mutation_type (mutation r)) (changes (mutation r)) info)
  = Return d.
Proof.
  intros Hin Happ.
  destruct (mutator_apply_result m d r Hin Happ) as (s & nv & Hv & Hm & Hmu).
  rewrite Hm, Hmu. unfold semver_undo, assign, clone. simpl.
  f_equal. apply set_key_restore. eapply get_string_has_key, Hv.
Qed.

(** C2: for each registered semver mutator, undoing a successful
    [apply] returns the dependency it was applied to, unchanged in every
    field and in field order; the restored version is the recorded
    [from]. *)
Theorem undo_apply m d r :
  In m (versionMutators registry) ->
  apply m d = Return (Some r) ->
  undo m (mutant r) (mutation r) = Return d
  /\ changes_from (changes (mutation r)) = get d "version".
Proof.
  intros Hin Happ.
  destruct (mutator_apply_result m d r Hin Happ) as (s & nv & Hv & Hm & Hmu).
  assert (Hundo : undo m = semver_undo).
  { simpl in Hin. destruct Hin as [<- | [<- | []]]; reflexivity. }
  rewrite Hundo, Hm, Hmu. unfold semver_undo, assign, clone. simpl.
  split; [|reflexivity].
  f_equal. apply set_key_restore. eapply get_string_has_key, Hv.
Qed.

End UndoApply.

Lemma undo_apply_witness :
  In (decrementSemverMinor Samples.registry) (versionMutators Samples.registry)
  /\ apply (decrementSemverMinor Samples.registry) Samples.scikit
     = Return (Some (mkMutationResult (Samples.dependency "scikit-learn" "1.0.0")
         (mkMutation "decrement_semver_minor"
            (mkChanges (JString "scikit-learn") (JString "1.1.0") (JString "1.0.0"))
            None)))
  /\ undo (decrementSemverMinor Samples.registry)
       (Samples.dependency "scikit-learn" "1.0.0")
       (mkMutation "decrement_semver_minor"
          (mkChanges (JString "scikit-learn") (JString "1.1.0") (JString "1.0.0"))
          None)
     = Return Samples.scikit.
Proof.
  split; [right; left; reflexivity|].
  split; [vm_compute; reflexivity|].
  apply (undo_apply Samples.registry (decrementSemverMinor Samples.registry)
           Samples.scikit
           (mkMutationResult (Samples.dependency "scikit-learn" "1.0.0")
              (mkMutation "decrement_semver_minor"
                 (mkChanges (JString "scikit-learn") (JString "1.1.0")
                    (JString "1.0.0")) None))).
  - right; left; reflexivity.
  - vm_compute; reflexivity.
Defined.

(** ** Inference driver: the wall-clock budget *)

(** A generator that never runs dry and leaves the validation records
    alone, and a validator that always reports a failure, for exercising
    the pump. *)
Definition endless_next (g : nat) (h : heap string) (_ : option nat)
  : gen_result nat nat unit * heap string :=
  (GYield g (S g), h).


Section PumpTimeout.

Variables G E V MD : Type.
Variable gen_next : G -> heap V -> option nat -> gen_result G E MD * heap V.
Variable validateEnvironment : E -> completion V.
Variable status_code_of : V -> string.
Variable truncateInstallErrors : V -> V.
Variable V_eqb : V -> V -> bool.

Local Abbreviation iteration :=
  (pump_iteration gen_next validateEnvironment status_code_of
     truncateInstallErrors V_eqb).
Local Abbreviation turns :=
  (pump_turns gen_next validateEnvironment status_code_of
     truncateInstallErrors V_eqb).

(** A turn that goes on to the next one has performed exactly one
    validation and left the start time alone. *)
Lemma pump_iteration_continue st now_ms st' :
  iteration st now_ms = PContinue st' ->
  numValidations st' = S (numValidations st)
  /\ start st' = start st.
Proof.
  unfold pump_iteration.
  destruct (control st); try discriminate.
  destruct (3600 <? _); [discriminate|].
  destruct (validateEnvironment value); [|discriminate].
  destruct (String.eqb _ _); [discriminate|].
  destruct (gen_next _ _ _) as [control' h'].
  intros H. injection H as <-. simpl. auto.
Qed.

Lemma pump_turns_count clock : forall st st',
  turns st clock = Some st' ->
  numValidations st'
  = (numValidations st + length clock)%nat
  /\ start st' = start st.
Proof.
  induction clock as [|t clock IH]; simpl; intros st st' H.
  - injection H as <-. split; [lia | reflexivity].
  - destruct (iteration st t) as [st1| |] eqn:Hit; try discriminate.
    apply pump_iteration_continue in Hit as [Hn Hs].
    apply IH in H as [Hn' Hs']. rewrite Hn', Hs', Hn, Hs. split; [lia | reflexivity].
Qed.

Lemma pump_start_fields start_ms mutantGenerator :
  numValidations (pump_start gen_next start_ms mutantGenerator) = 0%nat
  /\ start (pump_start gen_next start_ms mutantGenerator) = seconds start_ms.
Proof.
  unfold pump_start. destruct (gen_next mutantGenerator [] None). split; reflexivity.
Qed.

(** Whole seconds against milliseconds, for a clock that started at or
    after the epoch. *)
Lemma seconds_elapsed start_ms now_ms :
  0 <= start_ms ->
  (3601 * 1000 <= now_ms - start_ms -> 3600 < seconds now_ms - seconds start_ms)
  /\ (3600 < seconds now_ms - seconds start_ms -> 3600 * 1000 < now_ms - start_ms).
Proof.
  intros Hs. unfold seconds.
  pose proof (Z.quot_rem' start_ms 1000) as Es.
  pose proof (Z.rem_bound_pos start_ms 1000 Hs ltac:(lia)) as Bs.
  pose proof (Z.quot_rem' now_ms 1000) as En.
  split; intros H.
  - assert (0 <= now_ms) as Hn by lia.
    pose proof (Z.rem_bound_pos now_ms 1000 Hn ltac:(lia)) as Bn. lia.
  - destruct (Z.le_gt_cases 0 now_ms) as [Hn|Hn].
    + pose proof (Z.rem_bound_pos now_ms 1000 Hn ltac:(lia)) as Bn. lia.
    + pose proof (Z.quot_pos start_ms 1000 Hs ltac:(lia)) as Qs.
      assert (Z.quot now_ms 1000 <= 0); [|lia].
      rewrite <- (Z.opp_involutive now_ms), Z.quot_opp_l by lia.
      pose proof (Z.quot_pos (- now_ms) 1000 ltac:(lia) ltac:(lia)). lia.
Qed.


End PumpTimeout.

(** The pump after two failed validations, started at 0.999 s: the two
    records are equal, so [failedValidations] holds the first only. *)
Definition pump_after_two : pump_state nat nat string unit :=
  mkPump 0 [0%nat] 2 (GYield 2%nat 3%nat) ["Failed"; "Failed"].


(** ** Spreading wrapper: round-robin balance *)

(** A coroutine that yields its state as many times as the state says. *)
Definition countdown_next (g : nat) (_ : option unit) : gen_result nat nat unit :=
  match g with
  | O => GDone None
  | S g' => GYield g g'
  end.


Section SpreadBalance.

Variables G E V M : Type.
Variable gen_next : G -> option V -> gen_result G E M.
Variable search : E -> nat -> G.
Variable responses : nat -> option V.

Local Abbreviation run := (spread_run gen_next).
Local Abbreviation alive := (live).

(** [c] counts yields per root; two roots are in step when the later
    one in the queue is level with the earlier one or one ahead. *)
Definition in_step (c : nat -> nat) (x y : nat) : Prop :=
  (c x <= c y /\ c y <= S (c x))%nat.

Lemma in_step_ext c c' l :
  (forall x, x ∈ l -> c x = c' x) ->
  StronglySorted (in_step c) l -> StronglySorted (in_step c') l.
Proof.
  intros Hext Hs. induction Hs as [|x l Hs IH Hx]; constructor.
  - apply IH. intros y Hy. apply Hext. now right.
  - rewrite Forall_forall in *. intros y Hy. unfold in_step.
    rewrite <- (Hext x), <- (Hext y); [apply Hx, Hy | now right | now left].
Qed.

Lemma in_step_any c l x y :
  StronglySorted (in_step c) l -> x ∈ l -> y ∈ l -> (c x <= c y + 1)%nat.
Proof.
  intros Hs. induction Hs as [|z l Hs IH Hz]; intros Hx Hy.
  - inversion Hx.
  - rewrite Forall_forall in Hz.
    apply elem_of_cons in Hx as [-> | Hx], Hy as [-> | Hy].
    + lia.
    + destruct (Hz y Hy). lia.
    + destruct (Hz x Hx). lia.
    + auto.
Qed.

(** The generator at the head of the queue yields and goes to the back
    with one more yield to its name. *)
Lemma in_step_rotate c pre i rest :
  NoDup (pre ++ i :: rest) ->
  StronglySorted (in_step c) (pre ++ i :: rest) ->
  NoDup (rest ++ [i])
  /\ StronglySorted (in_step (fun x => c x + (if Nat.eqb x i then 1 else 0))%nat)
       (rest ++ [i]).
Proof.
  intros Hnd Hs.
  apply NoDup_app in Hnd as (_ & _ & Hnd).
  apply NoDup_cons in Hnd as [Hi Hnd].
  apply StronglySorted_app_1_r in Hs.
  apply StronglySorted_inv in Hs as [Hs Hhd]. rewrite Forall_forall in Hhd.
  split.
  - apply NoDup_app. split_and!; [exact Hnd | | apply NoDup_singleton].
    intros x Hx Hx'. apply list_elem_of_singleton in Hx'. now subst.
  - apply StronglySorted_app_2.
    + intros x y Hx Hy. apply list_elem_of_singleton in Hy. subst y.
      destruct (Hhd x Hx) as [H1 H2]. unfold in_step.
      rewrite Nat.eqb_refl. destruct (Nat.eqb_spec x i); [now subst | lia].
    + eapply in_step_ext; [|exact Hs]. intros x Hx. simpl.
      destruct (Nat.eqb_spec x i); [now subst | lia].
    + repeat constructor.
Qed.

Definition ids (q : list (entry G V)) : list nat := map (fun e => fst (fst e)) q.

(** A yield of the wrapper comes from an entry of the queue; the
    entries before it completed, the ones after it stay queued. *)
Lemma spread_loop_yield q : forall md i v st',
  spread_loop gen_next q md = SYield i v st' ->
  exists pre rest g',
    ids q = pre ++ i :: ids rest
    /\ generators st' = rest
    /\ current st' = Some (i, g').
Proof.
  induction q as [|[[i0 g0] lv] q IH]; simpl; intros md i v st' H; [discriminate|].
  destruct (gen_next g0 lv) as [value g'|[value|]|msg] eqn:Hg; try discriminate.
  - injection H as <- <- <-. exists [], q, g'. simpl. auto.
  - apply IH in H as (pre & rest & g' & Hq & Hr & Hc).
    exists (i0 :: pre), rest, g'. simpl. rewrite Hq. auto.
  - apply IH in H as (pre & rest & g' & Hq & Hr & Hc).
    exists (i0 :: pre), rest, g'. simpl. rewrite Hq. auto.
Qed.

Lemma spread_next_yield st input i v st' :
  spread_next gen_next st input = SYield i v st' ->
  exists pre rest, alive st = pre ++ i :: rest /\ alive st' = rest ++ [i].
Proof.
  unfold spread_next. intros H.
  apply spread_loop_yield in H as (pre & rest & g' & Hq & Hr & Hc).
  exists pre, (ids rest). split.
  - rewrite <- Hq. unfold live, ids.
    destruct (current st) as [[i0 g0]|]; [|now rewrite app_nil_r].
    now rewrite map_app.
  - unfold live. now rewrite Hr, Hc.
Qed.

Lemma spread_run_in_step k : forall st input j c ys st_f,
  NoDup (alive st) -> StronglySorted (in_step c) (alive st) ->
  run k st input responses j = (ys, Some st_f) ->
  NoDup (alive st_f)
  /\ StronglySorted (in_step (fun x => c x + yields_of x ys)%nat) (alive st_f).
Proof.
  induction k as [|k IH]; simpl; intros st input j c ys st_f Hnd Hs Hrun.
  - injection Hrun as <- <-. split; [exact Hnd|].
    eapply in_step_ext; [|exact Hs]. intros x _. unfold yields_of. simpl. lia.
  - destruct (spread_next gen_next st input) as [i v st'| |] eqn:Hn;
      try discriminate.
    destruct (run k st' (responses j) responses (S j)) as [ys' fin] eqn:Hr.
    injection Hrun as <- ->.
    apply spread_next_yield in Hn as (pre & rest & Ha & Ha').
    rewrite Ha in Hnd, Hs.
    destruct (in_step_rotate c pre i rest Hnd Hs) as [Hnd' Hs'].
    rewrite <- Ha' in Hnd', Hs'.
    destruct (IH _ _ _ _ _ _ Hnd' Hs' Hr) as [Hnd'' Hs''].
    split; [exact Hnd''|].
    eapply in_step_ext; [|exact Hs'']. intros x _. unfold yields_of. simpl.
    rewrite (Nat.eqb_sym i x). destruct (Nat.eqb x i); simpl; lia.
Qed.

Lemma ids_imap (l : list E) : forall o (f : nat -> E -> entry G V),
  (forall i e, fst (fst (f i e)) = (o + i)%nat) ->
  ids (imap f l) = seq o (length l).
Proof.
  induction l as [|e l IH]; intros o f Hf; simpl; [reflexivity|].
  rewrite Hf, Nat.add_0_r. f_equal.
  apply IH. intros i e'. unfold compose. rewrite Hf. lia.
Qed.

Lemma alive_start environments n :
  alive (@spread_start G E V M search environments n)
  = seq 0 (length environments).
Proof.
  unfold live, spread_start. simpl. rewrite app_nil_r.
  apply ids_imap. reflexivity.
Qed.


End SpreadBalance.


(** ** Iterative-deepening search: the environment is restored *)

Lemma pop_push {A} (l : list A) (x : A) : pop (push l x) = Some (x, l).
Proof. unfold pop, push. now rewrite rev_unit, rev_involutive. Qed.

Section IddfsRestore.

Variable registry : jsval -> jsval -> completion (list string).
Variable n : nat.

(** The environment the generator was started on. *)
Variable environment0 : Environment.

Local Abbreviation mutators := (versionMutators registry).

(** [applied deps muts d]: the arrays [deps] and [muts] are what [d]
    successful forward steps make of the initial arrays. *)
Inductive applied : list object -> list Mutation -> nat -> Prop :=
  | applied_none :
      applied (dependencies environment0) (mutations environment0) 0
  | applied_push deps muts d i k dep mutator r :
      applied deps muts d ->
      deps !! i = Some dep ->
      mutators !! k = Some mutator ->
      apply mutator dep = Return (Some r) ->
      applied (<[i := mutant r]> deps)
        (push muts (mkMutation (mutation_type (mutation r)) (changes (mutation r))
                      (Some (mkIddfsInfo i k))))
        (S d).

Definition state_ok (st : iddfs_state) : Prop :=
  env_id (st_env st) = env_id environment0
  /\ applied (dependencies (st_env st)) (mutations (st_env st)) (currentDepth st).

(** The invariant at each point the generator can be at. *)
Definition config_ok (c : iddfs_config) : Prop :=
  match c with
  | CStart e | CFirstYield e => e = environment0
  | CLoop st => state_ok st
  | CYield st dependency =>
      env_id (st_env st) = env_id environment0
      /\ exists deps muts d x m,
           applied deps muts d
           /\ currentDepth st = S d
           /\ deps !! index st = Some dependency
           /\ dependencies (st_env st) = <[index st := x]> deps
           /\ mutations (st_env st) = push muts m
  end.

Lemma lateral_ok st : state_ok st -> state_ok (lateral registry st).
Proof.
  unfold state_ok, lateral. intros H.
  destruct (mutators !! (mutatorIndex st + 1)%nat); exact H.
Qed.

Lemma applied_zero deps muts :
  applied deps muts 0 ->
  deps = dependencies environment0 /\ muts = mutations environment0.
Proof. intros H. inversion H. auto. Qed.

Lemma mutators_In k m : mutators !! k = Some m -> In m mutators.
Proof. intros H. apply list_elem_of_In. eapply list_elem_of_lookup_2, H. Qed.

Lemma mutator_lookup_undo m :
  In m mutators ->
  exists m', mutator_lookup registry (mutator_name m) = Some m'
             /\ undo m' = semver_undo.
Proof.
  simpl. intros [<- | [<- | []]]; eexists; split; reflexivity.
Qed.

Lemma insert_restore (deps : list object) i x dep :
  deps !! i = Some dep -> <[i := dep]> (<[i := x]> deps) = deps.
Proof. intros H. rewrite list_insert_insert_eq. now apply list_insert_id. Qed.

(** Backtracking from depth [d + 1] lands on the arrays of depth [d]. *)
Lemma no_dependency_ok st o :
  state_ok st ->
  iddfs_no_dependency registry st = Return o ->
  match o with
  | OStep c => config_ok c
  | OExhausted st' => st_env st' = environment0
  | OYield _ _ | OBudget _ | OStuck => False
  end.
Proof.
  intros [Hid Happ]. unfold iddfs_no_dependency.
  destruct (0 <? currentDepth st)%nat eqn:Hd.
  - destruct (currentDepth st) as [|d] eqn:Hcd; [discriminate|].
    inversion Happ as [|deps muts d' i k dep mutator r Hprev Hlook Hk Hr Hdeps Hmuts Hd'].
    subst d'. rewrite pop_push. simpl.
    destruct (mutator_apply_result registry mutator dep r (mutators_In _ _ Hk) Hr)
      as (s & nv & _ & _ & Hmu).
    rewrite Hmu. simpl.
    destruct (mutator_lookup_undo mutator (mutators_In _ _ Hk)) as (m' & -> & Hundo).
    rewrite list_lookup_insert_eq by (eapply lookup_lt_Some, Hlook).
    rewrite Hundo.
    pose proof (semver_undo_restores registry mutator dep r
                  (Some (mkIddfsInfo i k)) (mutators_In _ _ Hk) Hr) as Hu.
    rewrite Hmu in Hu. simpl in Hu. rewrite Hu. simpl.
    intros H. injection H as <-. simpl.
    apply lateral_ok. split; simpl; [exact Hid|].
    rewrite insert_restore by exact Hlook.
    now rewrite Nat.sub_0_r.
  - destruct (depthCount st =? 0)%nat; intros H; injection H as <-.
    + apply Nat.ltb_ge in Hd. assert (currentDepth st = 0%nat) as Hz by lia.
      rewrite Hz in Happ. apply applied_zero in Happ as [Hdeps Hmuts].
      destruct (st_env st) as [id deps muts], environment0 as [id0 deps0 muts0].
      simpl in *. now subst.
    + split; simpl; [exact Hid|].
      apply Nat.ltb_ge in Hd. assert (currentDepth st = 0%nat) as Hz by lia.
      now rewrite Hz in Happ.
Qed.

Lemma mutate_ok st dependency o :
  state_ok st ->
  dependencies (st_env st) !! index st = Some dependency ->
  iddfs_mutate registry st dependency = Return o ->
  match o with
  | OStep c | OYield _ c => config_ok c
  | OExhausted _ | OBudget _ | OStuck => False
  end.
Proof.
  intros [Hid Happ] Hdep. unfold iddfs_mutate.
  destruct (mutators !! mutatorIndex st) as [mutator|] eqn:Hk; [|discriminate].
  destruct (apply mutator dependency) as [[r|]|] eqn:Hr; simpl; [| |discriminate].
  - pose proof (applied_push _ _ _ _ _ _ _ _ Happ Hdep Hk Hr) as Hnext.
    destruct (currentDepth st + 1 =? depth st)%nat;
      intros H; injection H as <-; simpl.
    + split; [exact Hid|]. do 5 eexists. split_and!; try reflexivity; eauto.
      simpl. lia.
    + split; simpl; [exact Hid|]. now rewrite Nat.add_1_r.
  - intros H. injection H as <-. apply lateral_ok. now split.
Qed.

Lemma resume_ok st dependency :
  config_ok (CYield st dependency) -> state_ok (iddfs_resume registry st dependency).
Proof.
  intros (Hid & deps & muts & d & x & m & Happ & Hd & Hlook & Hdeps & Hmuts).
  unfold iddfs_resume. apply lateral_ok. split; simpl; [exact Hid|].
  rewrite Hmuts, pop_push, Hdeps, insert_restore by exact Hlook.
  rewrite Hd. simpl. now rewrite Nat.sub_0_r.
Qed.

Lemma iddfs_step_ok c o :
  config_ok c -> iddfs_step registry n c = Return o ->
  match o with
  | OStep c' | OYield _ c' => config_ok c'
  | OExhausted st => st_env st = environment0
  | OBudget _ => True
  | OStuck => False
  end.
Proof.
  intros Hok. destruct c as [e|e|st|st dep]; simpl.
  - intros H. injection H as <-. exact Hok.
  - intros H. injection H as <-. simpl in Hok. subst e.
    split; simpl; [reflexivity | constructor].
  - destruct (totalCount st <? n)%nat.
    + destruct (dependencies (st_env st) !! index st) as [dep|] eqn:Hdep; intros H.
      * pose proof (mutate_ok st dep o Hok Hdep H) as Hm.
        destruct o; auto; contradiction.
      * pose proof (no_dependency_ok st o Hok H) as Hm.
        destruct o; auto; contradiction.
    + intros H. injection H as <-. exact I.
  - intros H. injection H as <-. now apply resume_ok.
Qed.

Lemma iddfs_run_ok fuel : forall c ys e,
  config_ok c ->
  iddfs_run registry fuel n c = (ys, Exhausted e) -> e = environment0.
Proof.
  induction fuel as [|fuel IH]; simpl; intros c ys e Hok; [discriminate|].
  destruct (iddfs_step registry n c) as [o|msg] eqn:Hstep; [|discriminate].
  pose proof (iddfs_step_ok c o Hok Hstep) as Ho.
  destruct o as [c'|y c'|st|st|].
  - apply IH, Ho.
  - destruct (iddfs_run registry fuel n c') as [ys' fin] eqn:Hr.
    intros H. injection H as <- ->. eapply IH; eauto.
  - intros H. injection H as <- <-. exact Ho.
  - discriminate.
  - discriminate.
Qed.

(** The one transition the model leaves out (a store past the end of the
    dependency array) is never reached. *)
Lemma iddfs_run_not_stuck fuel : forall c ys,
  config_ok c -> iddfs_run registry fuel n c <> (ys, Stuck).
Proof.
  induction fuel as [|fuel IH]; simpl; intros c ys Hok; [discriminate|].
  destruct (iddfs_step registry n c) as [o|msg] eqn:Hstep; [|discriminate].
  pose proof (iddfs_step_ok c o Hok Hstep) as Ho.
  destruct o as [c'|y c'|st|st|]; try discriminate.
  - apply IH, Ho.
  - destruct (iddfs_run registry fuel n c') as [ys' fin] eqn:Hr.
    intros H. injection H as <- ->. eapply IH; eauto.
  - contradiction.
Qed.

End IddfsRestore.

(** C9: when [IDDFS], started on an environment, ends because a full
    depth pass yielded nothing, the environment it worked on is the one it
    was started on: the same dependencies, each equal field by field, and
    the same [metadata.mutations] stack, hence of the initial length. *)
Theorem iddfs_exhausted_restores registry fuel n environment ys final :
  iddfs_run registry fuel n (CStart environment) = (ys, Exhausted final) ->
  dependencies final = dependencies environment
  /\ mutations final = mutations environment
  /\ length (mutations final) = length (mutations environment).
Proof.
  intros Hrun.
  assert (final = environment) as ->.
  { eapply (iddfs_run_ok registry n environment), Hrun. reflexivity. }
  auto.
Qed.

(** An environment with one pinned dependency and no mutation yet. *)
Definition sample_environment : Environment :=
  mkEnvironment "0" [Samples.dependency "scikit-learn" "0.19.0"] [].

Lemma iddfs_exhausted_restores_witness :
  iddfs_run Samples.registry 20 10 (CStart sample_environment)
  = ([sample_environment;
      mkEnvironment "0" [Samples.dependency "scikit-learn" "0.18.2"]
        [mkMutation "decrement_semver_minor"
           (mkChanges (JString "scikit-learn") (JString "0.19.0") (JString "0.18.2"))
           (Some (mkIddfsInfo 0 1))]],
     Exhausted sample_environment)
  /\ dependencies sample_environment = dependencies sample_environment
  /\ mutations sample_environment = mutations sample_environment
  /\ length (mutations sample_environment) = length (mutations sample_environment).
Proof.
  split; [vm_compute; reflexivity|].
  apply (iddfs_exhausted_restores Samples.registry 20 10 sample_environment
           [sample_environment;
            mkEnvironment "0" [Samples.dependency "scikit-learn" "0.18.2"]
              [mkMutation "decrement_semver_minor"
                 (mkChanges (JString "scikit-learn") (JString "0.19.0")
                    (JString "0.18.2"))
                 (Some (mkIddfsInfo 0 1))]]
           sample_environment).
  vm_compute; reflexivity.
Defined.

(** ** The version order *)

(** Three-valued comparisons that behave like a total preorder on the
    values satisfying [dom]. *)
Record ordering {A : Type} (dom : A -> Prop) (c : A -> A -> Z) : Prop := mkOrdering {
  ord_range : forall a b, c a b = -1 \/ c a b = 0 \/ c a b = 1;
  ord_antisym : forall a b, dom a -> dom b -> c b a = - c a b;
  ord_trans : forall a b d, dom a -> dom b -> dom d ->
    c a b = -1 -> c b d = -1 -> c a d = -1;
  ord_zero : forall a b d, dom a -> dom b -> dom d ->
    c a b = 0 -> c a d = c b d
}.

Ltac num_cases :=
  unfold Semver.compare_num, Semver.or_else in *;
  repeat match goal with
         | |- context [Z.eqb ?a ?b] => destruct (Z.eqb_spec a b)
         | |- context [Z.ltb ?a ?b] => destruct (Z.ltb_spec a b)
         | H : context [Z.eqb ?a ?b] |- _ => destruct (Z.eqb_spec a b)
         | H : context [Z.ltb ?a ?b] |- _ => destruct (Z.ltb_spec a b)
         end;
  try lia.

Section Ordering.

Context {A : Type} (dom : A -> Prop).

Lemma ordering_num (f : A -> Z) :
  ordering dom (fun a b => Semver.compare_num (f a) (f b)).
Proof. split; intros; num_cases. Qed.

(** [c1 a b || c2 a b]: the lexicographic combination. *)
Lemma ordering_or_else c1 c2 :
  ordering dom c1 -> ordering dom c2 ->
  ordering dom (fun a b => Semver.or_else (c1 a b) (c2 a b)).
Proof.
  intros O1 O2. split.
  - intros a b. destruct (ord_range _ _ O1 a b) as [H|[H|H]],
      (ord_range _ _ O2 a b) as [H'|[H'|H']]; rewrite H, H'; num_cases.
  - intros a b Ha Hb.
    rewrite (ord_antisym _ _ O1 a b Ha Hb), (ord_antisym _ _ O2 a b Ha Hb).
    num_cases.
  - intros a b d Ha Hb Hd Hab Hbd.
    destruct (Z.eq_dec (c1 a b) 0) as [E1|N1], (Z.eq_dec (c1 b d) 0) as [E2|N2].
    + rewrite (ord_zero _ _ O1 a b d Ha Hb Hd E1).
      rewrite E1 in Hab. rewrite E2 in Hbd |- *.
      unfold Semver.or_else in *. simpl in *.
      apply (ord_trans _ _ O2 a b d); auto.
    + rewrite (ord_zero _ _ O1 a b d Ha Hb Hd E1).
      revert Hbd. num_cases.
    + assert (c1 a d = c1 a b) as ->.
      { pose proof (ord_zero _ _ O1 b d a Hb Hd Ha E2) as Hz.
        rewrite (ord_antisym _ _ O1 a b Ha Hb) in Hz.
        rewrite (ord_antisym _ _ O1 a d Ha Hd) in Hz. lia. }
      revert Hab. num_cases.
    + assert (c1 a b = -1) as H1 by (revert Hab; num_cases).
      assert (c1 b d = -1) as H2 by (revert Hbd; num_cases).
      rewrite (ord_trans _ _ O1 a b d Ha Hb Hd H1 H2). reflexivity.
  - intros a b d Ha Hb Hd Hab.
    assert (c1 a b = 0 /\ c2 a b = 0) as [E1 E2] by (revert Hab; num_cases).
    now rewrite (ord_zero _ _ O1 a b d Ha Hb Hd E1),
                (ord_zero _ _ O2 a b d Ha Hb Hd E2).
Qed.

Lemma ordering_total c a b :
  ordering dom c -> dom a -> dom b -> c a b <= 0 \/ c b a <= 0.
Proof.
  intros O Ha Hb. rewrite (ord_antisym _ _ O a b Ha Hb).
  destruct (ord_range _ _ O a b) as [H|[H|H]]; lia.
Qed.

Lemma ordering_le_trans c a b d :
  ordering dom c -> dom a -> dom b -> dom d ->
  c a b <= 0 -> c b d <= 0 -> c a d <= 0.
Proof.
  intros O Ha Hb Hd Hab Hbd.
  destruct (ord_range _ _ O a b) as [H|[H|H]]; [| |lia].
  - destruct (ord_range _ _ O b d) as [H'|[H'|H']]; [| |lia].
    + rewrite (ord_trans _ _ O a b d); auto. lia.
    + pose proof (ord_zero _ _ O b d a Hb Hd Ha H') as Hz.
      rewrite (ord_antisym _ _ O a b Ha Hb) in Hz.
      rewrite (ord_antisym _ _ O a d Ha Hd) in Hz. lia.
  - rewrite (ord_zero _ _ O a b d); auto.
Qed.

End Ordering.

(** A comparison of projections inherits the order. *)
Lemma ordering_on {A B : Type} (f : A -> B) (dom : B -> Prop) c :
  ordering dom c -> ordering (fun a => dom (f a)) (fun a b => c (f a) (f b)).
Proof.
  intros O. split.
  - intros a b. apply (ord_range _ _ O).
  - intros a b. apply (ord_antisym _ _ O).
  - intros a b d. apply (ord_trans _ _ O).
  - intros a b d. apply (ord_zero _ _ O).
Qed.

(** *** Strings *)

Lemma ascii_compare_lt_trans a b c :
  Ascii.compare a b = Lt -> Ascii.compare b c = Lt -> Ascii.compare a c = Lt.
Proof.
  unfold Ascii.compare. rewrite !N.compare_lt_iff. lia.
Qed.

Lemma string_compare_lt_trans : forall a b c,
  String.compare a b = Lt -> String.compare b c = Lt -> String.compare a c = Lt.
Proof.
  induction a as [|x a IH]; intros [|y b] [|z c]; simpl; try discriminate; auto.
  destruct (Ascii.compare x y) eqn:Exy; try discriminate;
    destruct (Ascii.compare y z) eqn:Eyz; try discriminate; intros H1 H2.
  - apply Ascii.compare_eq_iff in Exy, Eyz. subst.
    assert (Ascii.compare z z = Eq) as -> by (unfold Ascii.compare; apply N.compare_refl).
    eauto.
  - apply Ascii.compare_eq_iff in Exy. subst. now rewrite Eyz.
  - apply Ascii.compare_eq_iff in Eyz. subst. now rewrite Exy.
  - now rewrite (ascii_compare_lt_trans _ _ _ Exy Eyz).
Qed.

Lemma string_lt_flip a b :
  a <> b -> Semver.string_lt b a = negb (Semver.string_lt a b).
Proof.
  intros Hne. unfold Semver.string_lt. rewrite (String.compare_antisym b a).
  destruct (String.compare a b) eqn:E; try reflexivity.
  apply String.compare_eq_iff in E. contradiction.
Qed.

Lemma string_lt_trans a b c :
  Semver.string_lt a b = true -> Semver.string_lt b c = true ->
  Semver.string_lt a c = true.
Proof.
  unfold Semver.string_lt.
  destruct (String.compare a b) eqn:E1; try discriminate.
  destruct (String.compare b c) eqn:E2; try discriminate.
  now rewrite (string_compare_lt_trans _ _ _ E1 E2).
Qed.

(** *** Prerelease identifiers *)

(** Identifiers as the parser makes them for every numeric chunk below
    [MAX_SAFE_INTEGER]: strings are kept for the chunks that are not
    numeric.  (A numeric chunk at or above that bound stays a string and
    is compared through its nearest double; two such chunks can compare
    equal without being the same, and the comparison is then no longer
    transitive.) *)
Definition wf_ident (i : Semver.ident) : bool :=
  match i with
  | Semver.INum _ => true
  | Semver.IStr s => negb (Semver.numeric s)
  end.

Definition well_formed (v : Semver.SemVer) : bool :=
  forallb wf_ident (Semver.prerelease v).

Lemma ident_eqb_eq a b : Semver.ident_eqb a b = true -> a = b.
Proof.
  destruct a, b; simpl; try discriminate.
  - intros H. apply Z.eqb_eq in H. now subst.
  - intros H. apply String.eqb_eq in H. now subst.
Qed.

Lemma ident_eqb_refl a : Semver.ident_eqb a a = true.
Proof. destruct a; simpl; [apply Z.eqb_refl | apply String.eqb_refl]. Qed.

Lemma compareIdentifiers_eq a b :
  wf_ident a = true -> wf_ident b = true ->
  Semver.compareIdentifiers a b = 0 -> a = b.
Proof.
  destruct a as [n|s], b as [m|t]; unfold Semver.compareIdentifiers; simpl; intros Ha Hb.
  - num_cases. intros _. now subst.
  - apply negb_true_iff in Hb. rewrite Hb. discriminate.
  - apply negb_true_iff in Ha. rewrite Ha. discriminate.
  - apply negb_true_iff in Ha, Hb. rewrite Ha, Hb. simpl.
    destruct (String.eqb_spec s t); [now subst|].
    destruct (Semver.string_lt s t); discriminate.
Qed.

Lemma compareIdentifiers_refl a : Semver.compareIdentifiers a a = 0.
Proof.
  destruct a as [n|s]; unfold Semver.compareIdentifiers; simpl.
  - now rewrite Z.eqb_refl.
  - destruct (Semver.numeric s); simpl; [now rewrite Z.eqb_refl|].
    now rewrite String.eqb_refl.
Qed.

Lemma compareIdentifiers_ordering :
  ordering (fun i => wf_ident i = true) Semver.compareIdentifiers.
Proof.
  split.
  - intros [n|s] [m|t]; unfold Semver.compareIdentifiers; simpl.
    + num_cases.
    + destruct (Semver.numeric t); simpl; [num_cases | auto].
    + destruct (Semver.numeric s); simpl; [num_cases | auto].
    + destruct (Semver.numeric s), (Semver.numeric t); simpl;
        try num_cases; destruct (String.eqb s t); auto;
        destruct (Semver.string_lt s t); auto.
  - intros [n|s] [m|t]; unfold Semver.compareIdentifiers; simpl; intros Ha Hb;
      try (apply negb_true_iff in Ha; rewrite Ha);
      try (apply negb_true_iff in Hb; rewrite Hb); simpl; try reflexivity.
    + num_cases.
    + destruct (String.eqb_spec s t) as [->|Hne].
      * now rewrite String.eqb_refl.
      * assert (String.eqb t s = false) as -> by (apply String.eqb_neq; congruence).
        rewrite (string_lt_flip s t Hne).
        destruct (Semver.string_lt s t); reflexivity.
  - intros [n|s] [m|t] [k|u]; unfold Semver.compareIdentifiers; simpl; intros Ha Hb Hd;
      try (apply negb_true_iff in Ha; rewrite Ha);
      try (apply negb_true_iff in Hb; rewrite Hb);
      try (apply negb_true_iff in Hd; rewrite Hd); simpl;
      try discriminate; try reflexivity.
    + num_cases.
    + destruct (String.eqb_spec s t) as [->|Hst]; [discriminate|].
      destruct (String.eqb_spec t u) as [->|Htu]; [discriminate|].
      destruct (Semver.string_lt s t) eqn:L1; [|discriminate].
      destruct (Semver.string_lt t u) eqn:L2; [|discriminate].
      intros _ _. pose proof (string_lt_trans _ _ _ L1 L2) as L3. rewrite L3.
      destruct (String.eqb_spec s u) as [->|]; [|reflexivity].
      rewrite (string_lt_flip t u Htu), L2 in L1. discriminate.
  - intros a b d Ha Hb Hd H.
    now rewrite (compareIdentifiers_eq a b Ha Hb H).
Qed.

(** *** Prerelease lists *)

Definition wf_list (l : list Semver.ident) : Prop := forallb wf_ident l = true.

Lemma comparePre_loop_eq : forall a b,
  wf_list a -> wf_list b -> Semver.comparePre_loop a b = 0 -> a = b.
Proof.
  unfold wf_list.
  induction a as [|x a IH]; intros [|y b]; simpl; try discriminate; auto.
  intros Ha Hb. apply andb_true_iff in Ha as [Hx Ha], Hb as [Hy Hb].
  destruct (Semver.ident_eqb x y) eqn:E.
  - apply ident_eqb_eq in E. subst. intros H. f_equal. now apply IH.
  - intros H. apply compareIdentifiers_eq in H; auto. subst.
    now rewrite ident_eqb_refl in E.
Qed.

Lemma comparePre_loop_ordering : ordering wf_list Semver.comparePre_loop.
Proof.
  pose proof compareIdentifiers_ordering as O.
  unfold wf_list. split.
  - induction a as [|x a IH]; intros [|y b]; simpl; auto.
    destruct (Semver.ident_eqb x y); [apply IH | apply (ord_range _ _ O)].
  - induction a as [|x a IH]; intros [|y b]; simpl; auto.
    intros Ha Hb. apply andb_true_iff in Ha as [Hx Ha], Hb as [Hy Hb].
    destruct (Semver.ident_eqb x y) eqn:E.
    + apply ident_eqb_eq in E. subst. rewrite ident_eqb_refl. now apply IH.
    + destruct (Semver.ident_eqb y x) eqn:E'.
      * apply ident_eqb_eq in E'. subst. now rewrite ident_eqb_refl in E.
      * now apply (ord_antisym _ _ O).
  - induction a as [|x a IH]; intros [|y b] [|z d]; simpl; try discriminate; auto.
    intros Ha Hb Hd.
    apply andb_true_iff in Ha as [Hx Ha], Hb as [Hy Hb], Hd as [Hz Hd].
    destruct (Semver.ident_eqb x y) eqn:Exy; [apply ident_eqb_eq in Exy; subst|];
      (destruct (Semver.ident_eqb y z) eqn:Eyz; [apply ident_eqb_eq in Eyz; subst|]).
    + now apply IH.
    + auto.
    + rewrite Exy. auto.
    + intros H1 H2.
      pose proof (ord_trans _ _ O x y z Hx Hy Hz H1 H2) as H3.
      destruct (Semver.ident_eqb x z) eqn:Exz; [|exact H3].
      apply ident_eqb_eq in Exz. subst.
      rewrite compareIdentifiers_refl in H3. discriminate.
  - intros a b d Ha Hb Hd H. now rewrite (comparePre_loop_eq a b Ha Hb H).
Qed.

(** [comparePre] on the prerelease lists: no prerelease sorts last. *)
Definition pre_cmp (a b : list Semver.ident) : Z :=
  match a, b with
  | _ :: _, [] => -1
  | [], _ :: _ => 1
  | [], [] => 0
  | _, _ => Semver.comparePre_loop a b
  end.

Lemma pre_cmp_ordering : ordering wf_list pre_cmp.
Proof.
  pose proof comparePre_loop_ordering as O. split.
  - intros [|x a] [|y b]; unfold pre_cmp; auto.
    apply (ord_range _ _ O (x :: a) (y :: b)).
  - intros [|x a] [|y b] Ha Hb; try reflexivity.
    apply (ord_antisym _ _ O (x :: a) (y :: b) Ha Hb).
  - intros [|x a] [|y b] [|z d] Ha Hb Hd; try discriminate; auto.
    apply (ord_trans _ _ O (x :: a) (y :: b) (z :: d) Ha Hb Hd).
  - intros [|x a] [|y b] d Ha Hb Hd; try discriminate; auto.
    intros H. change (Semver.comparePre_loop (x :: a) (y :: b) = 0) in H.
    now rewrite (comparePre_loop_eq _ _ Ha Hb H).
Qed.

(** *** Versions *)

Lemma ordering_ext {A : Type} (dom : A -> Prop) c c' :
  (forall a b, c a b = c' a b) -> ordering dom c -> ordering dom c'.
Proof.
  intros E O. split; intros *; rewrite <- !E.
  - apply (ord_range _ _ O).
  - apply (ord_antisym _ _ O).
  - apply (ord_trans _ _ O).
  - apply (ord_zero _ _ O).
Qed.

Lemma comparePre_pre_cmp a b :
  pre_cmp (Semver.prerelease a) (Semver.prerelease b) = Semver.comparePre a b.
Proof.
  unfold Semver.comparePre, pre_cmp.
  destruct (Semver.prerelease a), (Semver.prerelease b); reflexivity.
Qed.

Lemma compare_ordering :
  ordering (fun v => well_formed v = true) Semver.compare.
Proof.
  unfold Semver.compare, Semver.compareMain.
  apply ordering_or_else.
  - apply ordering_or_else; [apply ordering_num|].
    apply ordering_or_else; apply ordering_num.
  - eapply ordering_ext; [apply comparePre_pre_cmp|].
    apply (ordering_on Semver.prerelease wf_list pre_cmp pre_cmp_ordering).
Qed.

(** ** APT adapter: sorting versions *)

Lemma ordering_flip {A : Type} (dom : A -> Prop) c :
  ordering dom c -> ordering dom (fun a b => - c a b).
Proof.
  intros O. split.
  - intros a b. destruct (ord_range _ _ O a b) as [H|[H|H]]; lia.
  - intros a b Ha Hb. rewrite (ord_antisym _ _ O a b Ha Hb). lia.
  - intros a b d Ha Hb Hd H1 H2.
    assert (c b a = -1) as H1' by (rewrite (ord_antisym _ _ O a b Ha Hb); lia).
    assert (c d b = -1) as H2' by (rewrite (ord_antisym _ _ O b d Hb Hd); lia).
    pose proof (ord_trans _ _ O d b a Hd Hb Ha H2' H1') as H3.
    rewrite (ord_antisym _ _ O a d Ha Hd) in H3. lia.
  - intros a b d Ha Hb Hd H.
    rewrite (ord_zero _ _ O a b d Ha Hb Hd); [reflexivity | lia].
Qed.

(** C5 does not hold of the code: the adapter hands back the normalized
    spelling of each coerced version ([v.version]) instead of the string
    it was given, so its result is not a rearrangement of its input.  The
    Debian revision [2.4-1] comes back as [2.4.0--1], and [1.0] as
    [1.0.0]. *)
Theorem sortPackageVersions_renames :
  APTStrategy.sortPackageVersions ["2.4-1"] true (JString "2.4-1")
  = Return ["2.4.0--1"]
  /\ ~ In "2.4.0--1" ["2.4-1"]
  /\ APTStrategy.sortPackageVersions ["1.0"] false (JString "1.0")
     = Return ["1.0.0"]
  /\ ~ In "1.0.0" ["1.0"].
Proof.
  split; [vm_compute; reflexivity|].
  split; [intros [H|[]]; discriminate|].
  split; [vm_compute; reflexivity|].
  intros [H|[]]. discriminate.
Qed.

Section InsertionSort.

Context {A : Type} (dom : A -> Prop) (c : A -> A -> Z).

Hypothesis c_ordering : ordering dom c.

Local Abbreviation precedes := (fun a b : A => c a b <= 0).

Lemma precedes_trans a b d :
  dom a -> dom b -> dom d -> precedes a b -> precedes b d -> precedes a d.
Proof. apply (ordering_le_trans _ _ _ _ _ c_ordering). Qed.

Lemma insert_back_Permutation x l :
  Permutation (APTStrategy.insert_back c x l) (x :: l).
Proof.
  induction l as [|t l IH]; simpl; [reflexivity|].
  destruct (0 <? c t x); [|reflexivity].
  rewrite IH. apply perm_swap.
Qed.

(** The sorted prefix, read from its last element down, stays in
    descending order of the comparator when an element is inserted. *)
Lemma insert_back_sorted x l :
  dom x -> Forall dom l ->
  StronglySorted (flip precedes) l ->
  StronglySorted (flip precedes) (APTStrategy.insert_back c x l).
Proof.
  intros Hx Hl Hs. induction Hs as [|t l Hs IH Ht]; simpl.
  - repeat constructor.
  - apply Forall_cons in Hl as [Hdt Hdl].
    destruct (Z.ltb_spec 0 (c t x)) as [Hlt|Hle].
    + constructor; [now apply IH|].
      eapply Permutation_Forall; [symmetry; apply insert_back_Permutation|].
      constructor; [|exact Ht].
      unfold flip.
      rewrite (ord_antisym _ _ c_ordering t x Hdt Hx). lia.
    + constructor; [now constructor|].
      constructor; [exact Hle|].
      rewrite Forall_forall in Ht, Hdl |- *. intros y Hy.
      unfold flip. apply (precedes_trans y t x); auto. apply Ht, Hy.
Qed.

Lemma insertion_fold vs : forall acc,
  Forall dom vs -> Forall dom acc -> StronglySorted (flip precedes) acc ->
  let r := fold_left (fun sorted element =>
                        APTStrategy.insert_back c element sorted) vs acc in
  StronglySorted (flip precedes) r /\ Permutation r (vs ++ acc).
Proof.
  induction vs as [|v vs IH]; simpl; intros acc Hvs Hacc Hs.
  - split; [exact Hs | reflexivity].
  - apply Forall_cons in Hvs as [Hv Hvs].
    destruct (IH (APTStrategy.insert_back c v acc)) as [H1 H2]; auto.
    + eapply Permutation_Forall; [symmetry; apply insert_back_Permutation|].
      now constructor.
    + now apply insert_back_sorted.
    + split; [exact H1|]. rewrite H2, insert_back_Permutation.
      symmetry. apply Permutation_middle.
Qed.

Lemma StronglySorted_rev {B} (R : B -> B -> Prop) l :
  StronglySorted (flip R) l -> StronglySorted R (rev l).
Proof.
  induction 1 as [|x l Hs IH Hx]; simpl; [constructor|].
  apply StronglySorted_app_2; [|exact IH|repeat constructor].
  intros a b Ha Hb. apply list_elem_of_singleton in Hb. subst b.
  rewrite Forall_forall in Hx. apply Hx.
  apply list_elem_of_In, in_rev, list_elem_of_In in Ha. exact Ha.
Qed.

Lemma array_sort_sorted vs :
  Forall dom vs ->
  StronglySorted precedes (APTStrategy.array_sort c vs)
  /\ Permutation (APTStrategy.array_sort c vs) vs.
Proof.
  intros Hvs. unfold APTStrategy.array_sort.
  destruct (insertion_fold vs [] Hvs) as [H1 H2]; [constructor..|].
  split.
  - now apply StronglySorted_rev.
  - rewrite <- Permutation_rev. now rewrite app_nil_r in H2.
Qed.

End InsertionSort.

Lemma array_sort_Permutation {A} (c : A -> A -> Z) vs :
  Permutation (APTStrategy.array_sort c vs) vs.
Proof.
  unfold APTStrategy.array_sort. rewrite <- Permutation_rev.
  assert (H : forall l acc,
            Permutation
              (fold_left (fun sorted element =>
                            APTStrategy.insert_back c element sorted) l acc)
              (l ++ acc)).
  { induction l as [|x l IH]; intros acc; simpl; [reflexivity|].
    rewrite IH, insert_back_Permutation. symmetry. apply Permutation_middle. }
  rewrite H. now rewrite app_nil_r.
Qed.

Lemma StronglySorted_filter {A} (R : A -> A -> Prop) f l :
  StronglySorted R l -> StronglySorted R (List.filter f l).
Proof.
  induction 1 as [|x l Hs IH Hx]; simpl; [constructor|].
  destruct (f x); [|exact IH].
  constructor; [exact IH|].
  rewrite Forall_forall in Hx |- *. intros y Hy.
  apply Hx. apply list_elem_of_In in Hy. apply filter_In in Hy as [Hy _].
  now apply list_elem_of_In.
Qed.

Lemma StronglySorted_map {A B} (f : A -> B) (R : B -> B -> Prop) l :
  StronglySorted (fun a b => R (f a) (f b)) l -> StronglySorted R (map f l).
Proof.
  induction 1 as [|x l Hs IH Hx]; simpl; constructor; [exact IH|].
  apply Forall_map. exact Hx.
Qed.

Lemma filter_Permutation_list {A} (f : A -> bool) l l' :
  Permutation l l' -> Permutation (List.filter f l) (List.filter f l').
Proof.
  induction 1 as [|x l l' H IH|x y l|l l' l'' H1 IH1 H2 IH2]; simpl.
  - reflexivity.
  - destruct (f x); [now constructor | exact IH].
  - destruct (f x), (f y); try reflexivity. apply perm_swap.
  - now rewrite IH1.
Qed.

Lemma filter_map_fst {A B} (f : A -> bool) (l : list (A * B)) :
  map fst (List.filter (fun p => f (fst p)) l) = List.filter f (map fst l).
Proof.
  induction l as [|[a b] l IH]; simpl; [reflexivity|].
  destruct (f a); simpl; now rewrite IH.
Qed.

Lemma all_some_Some {A} (l : list A) : APTStrategy.all_some (map Some l) = Some l.
Proof. induction l as [|x l IH]; simpl; [reflexivity | now rewrite IH]. Qed.

(** The objects behind the coerced versions. *)
Lemma coerceSemver_object_fst val :
  option_map fst (VersionUtils.coerceSemver_object val)
  = VersionUtils.coerceSemver_string val.
Proof.
  unfold VersionUtils.coerceSemver_object, VersionUtils.coerceSemver_string.
  destruct (Semver.parse_loose val); [reflexivity|].
  destruct (String.substring _ _ val); destruct (Semver.coerce val); simpl;
    try reflexivity.
  destruct (Semver.parse_loose _); reflexivity.
Qed.

Lemma coerceSemver_objects vs : forall svs,
  map VersionUtils.coerceSemver_string vs = map Some svs ->
  exists objects,
    map VersionUtils.coerceSemver_object vs = map Some objects
    /\ map fst objects = svs.
Proof.
  induction vs as [|v vs IH]; intros [|sv svs] H; try discriminate.
  - exists []. split; reflexivity.
  - simpl in H. injection H as Hv Hvs.
    destruct (IH svs Hvs) as (objects & Ho & Hf).
    rewrite <- coerceSemver_object_fst in Hv.
    destruct (VersionUtils.coerceSemver_object v) as [[sv' flag]|] eqn:Hobj;
      [|discriminate].
    simpl in Hv. injection Hv as ->.
    exists ((sv, flag) :: objects). simpl. rewrite Hobj, Ho, Hf. split; reflexivity.
Qed.

(** A version whose normalized spelling reads back as itself, strictly
    and loosely. *)
Definition stable (v : Semver.SemVer) : Prop :=
  Semver.parse_strict (Semver.version v) = Some v
  /\ Semver.parse_loose (Semver.version v) = Some v.

Lemma reconstruct_stable loose v flag :
  stable v -> Semver.reconstruct loose v flag = Some v.
Proof.
  intros [Hs Hl]. unfold Semver.reconstruct.
  destruct (Bool.eqb flag loose); [reflexivity|]. now destruct loose.
Qed.

Lemma filter_from_pure {A} (callback : A -> nat -> completion bool) (f : A -> bool) l :
  forall index,
  (forall x i, In x l -> callback x i = Return (f x)) ->
  APTStrategy.filter_from callback index l = Return (List.filter f l).
Proof.
  induction l as [|x l IH]; intros index H; simpl; [reflexivity|].
  rewrite (H x index) by now left. simpl.
  rewrite IH by (intros y i Hy; apply H; now right). simpl.
  now destruct (f x).
Qed.

Section SortVersions.

Variable ascending : bool.

Local Abbreviation dom := (fun v : Semver.SemVer => well_formed v = true).
Local Abbreviation comp := (APTStrategy.comp ascending).
Local Abbreviation before := (APTStrategy.before ascending).

Lemma comp_ordering : ordering dom comp.
Proof.
  unfold APTStrategy.comp. destruct ascending.
  - apply compare_ordering.
  - apply ordering_flip, compare_ordering.
Qed.

Lemma comparefn_ordering :
  ordering (fun o : VersionUtils.coerced => dom (fst o))
    (APTStrategy.comparefn ascending).
Proof. exact (ordering_on fst dom comp comp_ordering). Qed.

(** The side of the cutoff the sort keeps. *)
Definition on_side (cutoff v : Semver.SemVer) : bool :=
  if ascending then Semver.gte v cutoff else Semver.lte v cutoff.

(** The versions the cutoff lets through: all of them when the cutoff
    does not coerce. *)
Definition within (cutoff : string) (v : Semver.SemVer) : bool :=
  match VersionUtils.coerceSemver_string cutoff with
  | Some c => on_side c v
  | None => true
  end.

(** The sort on versions and a cutoff that read back as themselves. *)
Lemma sortPackageVersions_stable vs svs c :
  map VersionUtils.coerceSemver_string vs = map Some svs ->
  Forall dom svs ->
  Forall stable svs ->
  match VersionUtils.coerceSemver_string c with
  | Some cv => stable cv
  | None => True
  end ->
  exists out,
    APTStrategy.sortPackageVersions vs ascending (JString c)
    = Return (map Semver.version out)
    /\ Permutation out (List.filter (within c) svs)
    /\ StronglySorted before out
    /\ (forall v, In v out ->
          match VersionUtils.coerceSemver_string c with
          | Some cv => if ascending then 0 <= Semver.compare v cv
                       else Semver.compare v cv <= 0
          | None => True
          end).
Proof.
  intros Hco Hdom Hstable Hc.
  destruct (coerceSemver_objects vs svs Hco) as (objects & Hobj & Hfst).
  assert (Hdom' : Forall (fun o : VersionUtils.coerced => dom (fst o)) objects).
  { rewrite <- Hfst in Hdom. now apply Forall_map in Hdom. }
  destruct (array_sort_sorted _ _ comparefn_ordering objects Hdom') as [Hs Hp].
  set (sorted := APTStrategy.array_sort (APTStrategy.comparefn ascending) objects) in *.
  exists (List.filter (within c) (map fst sorted)).
  assert (Hsorted_stable : forall o, In o sorted -> stable (fst o)).
  { intros o Ho. rewrite <- Hfst in Hstable.
    rewrite Forall_forall in Hstable. apply Hstable.
    apply list_elem_of_In, in_map.
    eapply Permutation_in; [exact Hp | exact Ho]. }
  split_and!.
  - unfold APTStrategy.sortPackageVersions. simpl.
    rewrite Hobj, all_some_Some. fold sorted. unfold within.
    rewrite <- (coerceSemver_object_fst c) in Hc |- *.
    destruct (VersionUtils.coerceSemver_object c) as [[cv cflag]|]; simpl in *.
    + rewrite (filter_from_pure (APTStrategy.keep ascending (cv, cflag))
                 (fun o => on_side cv (fst o)) sorted 0%nat).
      * simpl. now rewrite <- filter_map_fst, map_map.
      * intros o i Ho. unfold APTStrategy.keep. simpl.
        rewrite (reconstruct_stable _ _ _ (Hsorted_stable o Ho)).
        rewrite (reconstruct_stable _ _ _ Hc). reflexivity.
    + f_equal. rewrite <- (map_map fst Semver.version). f_equal.
      clear. induction (map fst sorted); simpl; congruence.
  - apply filter_Permutation_list. rewrite <- Hfst. now apply Permutation_map.
  - apply StronglySorted_filter. apply StronglySorted_map. exact Hs.
  - intros v Hv. apply filter_In in Hv as [_ Hv]. unfold within in Hv.
    destruct (VersionUtils.coerceSemver_string c) as [cv|]; [|exact I].
    unfold on_side, Semver.gte, Semver.lte in Hv.
    destruct ascending; lia.
Qed.

(** X1: what the adapter does guarantee.  When every version in [vs]
    coerces to a semver ([svs]) whose numeric prerelease identifiers are
    all below [MAX_SAFE_INTEGER] and whose normalized spelling reads back
    as itself, as does the cutoff [c] if it coerces, the result is the
    normalized spelling of a list [out] that is a permutation of the
    coerced versions on the cutoff's side ([>= c] ascending, [<= c]
    descending) and is monotone under the comparator: non-decreasing in
    semver order when ascending, non-increasing when descending. *)
Theorem sortPackageVersions_sorted vs svs c :
  map VersionUtils.coerceSemver_string vs = map Some svs ->
  Forall dom svs ->
  Forall stable svs ->
  match VersionUtils.coerceSemver_string c with
  | Some cv => stable cv
  | None => True
  end ->
  exists out,
    APTStrategy.sortPackageVersions vs ascending (JString c)
    = Return (map Semver.version out)
    /\ Permutation out (List.filter (within c) svs)
    /\ StronglySorted before out
    /\ (forall v, In v out ->
          match VersionUtils.coerceSemver_string c with
          | Some cv => if ascending then 0 <= Semver.compare v cv
                       else Semver.compare v cv <= 0
          | None => True
          end).
Proof. apply sortPackageVersions_stable. Qed.

End SortVersions.

Lemma sortPackageVersions_sorted_example :
  exists out,
    APTStrategy.sortPackageVersions ["1.5"; "0.9.1"; "2.0.0-rc1"; "1.0"] false
      (JString "1.5")
    = Return (map Semver.version out)
    /\ Permutation out
         (List.filter (within false "1.5")
            [Semver.mkSemVer 1 5 0 []; Semver.mkSemVer 0 9 1 [];
             Semver.mkSemVer 2 0 0 [Semver.IStr "rc1"]; Semver.mkSemVer 1 0 0 []])
    /\ StronglySorted (APTStrategy.before false) out
    /\ (forall v, In v out ->
          match VersionUtils.coerceSemver_string "1.5" with
          | Some cv => if false then 0 <= Semver.compare v cv
                       else Semver.compare v cv <= 0
          | None => True
          end).
Proof.
  apply (sortPackageVersions_sorted false
           ["1.5"; "0.9.1"; "2.0.0-rc1"; "1.0"]
           [Semver.mkSemVer 1 5 0 []; Semver.mkSemVer 0 9 1 [];
            Semver.mkSemVer 2 0 0 [Semver.IStr "rc1"]; Semver.mkSemVer 1 0 0 []]
           "1.5").
  - vm_compute. reflexivity.
  - repeat constructor.
  - repeat constructor.
  - vm_compute. split; reflexivity.
Defined.

(** Why the versions must read back as themselves: the filter hands the
    element index to semver as its [loose] argument, so the first
    element and the cutoff are read again, strictly, from their
    [version] strings.  A cutoff that only the loose grammar accepts
    makes the sort throw. *)
Lemma sortPackageVersions_reparse_throws :
  (exists cv, VersionUtils.coerceSemver_string "2.0.0-09007199254740993" = Some cv
              /\ Semver.parse_strict (Semver.version cv) = None)
  /\ APTStrategy.sortPackageVersions ["1.0.0"] false
       (JString "2.0.0-09007199254740993")
     = Throw "TypeError".
Proof.
  split; [|vm_compute; reflexivity].
  exists (Semver.mkSemVer 2 0 0 [Semver.IStr "09007199254740993"]).
  split; vm_compute; reflexivity.
Qed.

(** ** Semver mutators: what [decrement_semver_minor] chooses *)

(** *** Numbers read by the strict parser are not negative *)

Lemma digits_value_acc_nonneg s : forall acc,
  0 <= acc -> Semver.all_chars Semver.is_digit s = true ->
  0 <= Semver.digits_value_acc acc s.
Proof.
  induction s as [|c s IH]; simpl; intros acc Hacc Hs; [exact Hacc|].
  apply andb_true_iff in Hs as [Hc Hs]. apply IH; [|exact Hs].
  unfold Semver.is_digit in Hc. apply andb_true_iff in Hc as [Hc _].
  apply Nat.leb_le in Hc. lia.
Qed.

Lemma to_double_nonneg n : 0 <= n -> 0 <= Semver.to_double n.
Proof.
  intros Hn. unfold Semver.to_double.
  destruct (n <? 2 ^ 53); [exact Hn|].
  apply Z.shiftl_nonneg.
  assert (0 <= Z.shiftr n (Z.log2 n - 52)) by now apply Z.shiftr_nonneg.
  destruct (_ || _); lia.
Qed.

Lemma numeric_strict_nonneg s :
  Semver.numeric_strict s = true ->
  0 <= Semver.to_double (Semver.digits_value s).
Proof.
  unfold Semver.numeric_strict, Semver.numeric. intros H.
  apply andb_true_iff in H as [H _]. apply andb_true_iff in H as [_ H].
  apply to_double_nonneg, digits_value_acc_nonneg; [lia | exact H].
Qed.

Lemma parse_strict_nonneg k sv :
  Semver.parse_strict k = Some sv ->
  0 <= Semver.major sv /\ 0 <= Semver.minor sv /\ 0 <= Semver.patch sv.
Proof.
  unfold Semver.parse_strict.
  destruct (_ <? _)%nat; [discriminate|].
  destruct (Semver.span _ _) as [maj r1].
  destruct r1 as [|c1 r1]; [discriminate|].
  destruct (Ascii.eqb_spec c1 "."%char) as [->|]; [|destruct c1 as [[] [] [] [] [] [] [] []]; discriminate || contradiction].
  destruct (Semver.span _ r1) as [min r2].
  destruct r2 as [|c2 r2]; [discriminate|].
  destruct (Ascii.eqb_spec c2 "."%char) as [->|]; [|destruct c2 as [[] [] [] [] [] [] [] []]; discriminate || contradiction].
  destruct (Semver.span _ r2) as [pat r3].
  destruct (Semver.numeric_strict maj) eqn:H1; [|discriminate].
  destruct (Semver.numeric_strict min) eqn:H2; [|discriminate].
  destruct (Semver.numeric_strict pat) eqn:H3; [|discriminate]. simpl.
  destruct (Semver.match_tail false r3) as [pre|]; [|discriminate].
  unfold Semver.build_version. destruct (_ || _); [discriminate|].
  intros H. injection H as <-. simpl.
  auto using numeric_strict_nonneg.
Qed.

(** *** The range [>=M.0.0 <M.m.0] *)

Lemma compare_release a b :
  Semver.prerelease a = [] -> Semver.prerelease b = [] ->
  Semver.compare a b = Semver.compareMain a b.
Proof.
  intros Ha Hb. unfold Semver.compare, Semver.comparePre. rewrite Ha, Hb.
  unfold Semver.or_else. destruct (Semver.compareMain a b =? 0) eqn:E; [|reflexivity].
  apply Z.eqb_eq in E. now rewrite E.
Qed.

(** A version with non-negative numbers is in the range exactly when it
    carries no prerelease tag, has major [M] and a minor below [m]. *)
Lemma testSet_same_major_below_minor M m sv :
  0 <= Semver.minor sv -> 0 <= Semver.patch sv ->
  Semver.testSet (Semver.range_same_major_below_minor M m) sv = true
  <-> Semver.prerelease sv = [] /\ Semver.major sv = M /\ Semver.minor sv < m.
Proof.
  intros Hmin Hpat. unfold Semver.testSet, Semver.range_same_major_below_minor.
  simpl. destruct (Semver.prerelease sv) as [|i pre] eqn:Hpre.
  - rewrite !andb_true_r.
    unfold Semver.comparator_test, Semver.gte, Semver.lt. simpl.
    rewrite !compare_release by (auto; reflexivity).
    unfold Semver.compareMain. simpl.
    rewrite andb_true_iff, Z.leb_le, Z.ltb_lt.
    split.
    + intros [H1 H2]. split; [reflexivity|]. revert H1 H2. num_cases.
    + intros (_ & H1 & H2). subst M. num_cases.
  - rewrite andb_false_r. split; [discriminate | intros [H _]; discriminate].
Qed.

(** *** [maxSatisfying] returns the greatest key in the range *)

Section MaxSatisfying.

Variable range : Semver.Range.

(** The key [k] reads as [sv] and [sv] is in the range. *)
Definition satisfies (k : string) (sv : Semver.SemVer) : Prop :=
  Semver.parse_strict k = Some sv /\ Semver.testSet range sv = true.

(** Every version the range lets through is well formed (true of the two
    ranges the mutators build, which admit no prerelease tag). *)
Hypothesis range_well_formed :
  forall sv, Semver.testSet range sv = true -> well_formed sv = true.

Definition max_ok (seen : list string) (acc : option (string * Semver.SemVer)) : Prop :=
  match acc with
  | None => forall k, In k seen -> Semver.range_test range k = false
  | Some (k, sv) =>
      In k seen /\ satisfies k sv
      /\ forall k' sv', In k' seen -> satisfies k' sv' -> Semver.compare sv' sv <= 0
  end.

Lemma range_test_satisfies k :
  Semver.range_test range k = true <-> exists sv, satisfies k sv.
Proof.
  unfold Semver.range_test, satisfies. split.
  - destruct (Semver.parse_strict k) as [sv|]; [eauto | discriminate].
  - intros (sv & -> & H). exact H.
Qed.

Lemma maxSatisfying_step_ok seen acc v :
  max_ok seen acc ->
  max_ok (seen ++ [v]) (Semver.maxSatisfying_step range acc v).
Proof.
  pose proof compare_ordering as O.
  intros Hok. unfold Semver.maxSatisfying_step.
  destruct (Semver.range_test range v) eqn:Hv.
  - apply range_test_satisfies in Hv as (sv & Hsv).
    destruct Hsv as [Hp Ht]. rewrite Hp.
    pose proof (range_well_formed sv Ht) as Hwf.
    destruct acc as [[k maxSV]|]; simpl in *.
    + destruct Hok as (Hk & [Hkp Hkt] & Hmax).
      pose proof (range_well_formed maxSV Hkt) as Hwfm.
      destruct (Z.eqb_spec (Semver.compare maxSV sv) (-1)) as [Hlt|Hge].
      * split; [apply in_or_app; right; now left|].
        split; [now split|].
        intros k' sv' Hin [Hp' Ht']. apply in_app_or in Hin as [Hin|[<-|[]]].
        -- apply (ordering_le_trans _ _ sv' maxSV sv O); auto; [|lia].
           apply (Hmax k'); [exact Hin | now split].
        -- rewrite Hp in Hp'. injection Hp' as <-.
           destruct (ordering_total _ _ sv sv O Hwf Hwf); assumption.
      * split; [apply in_or_app; now left|].
        split; [now split|].
        intros k' sv' Hin [Hp' Ht']. apply in_app_or in Hin as [Hin|[<-|[]]].
        -- apply (Hmax k'); [exact Hin | now split].
        -- rewrite Hp in Hp'. injection Hp' as <-.
           rewrite (ord_antisym _ _ O maxSV sv Hwfm Hwf).
           destruct (ord_range _ _ O maxSV sv) as [H|[H|H]]; lia.
    + split; [apply in_or_app; right; now left|].
      split; [now split|].
      intros k' sv' Hin [Hp' Ht']. apply in_app_or in Hin as [Hin|[<-|[]]].
      * assert (Semver.range_test range k' = true) as Hc
          by (apply range_test_satisfies; exists sv'; now split).
        rewrite (Hok k' Hin) in Hc. discriminate.
      * rewrite Hp in Hp'. injection Hp' as <-.
        destruct (ordering_total _ _ sv sv O Hwf Hwf); assumption.
  - destruct acc as [[k maxSV]|]; simpl in *.
    + destruct Hok as (Hk & Hs & Hmax).
      split; [apply in_or_app; now left|]. split; [exact Hs|].
      intros k' sv' Hin Hs'. apply in_app_or in Hin as [Hin|[<-|[]]].
      * now apply (Hmax k').
      * assert (Semver.range_test range v = true) as Hc
          by (apply range_test_satisfies; eauto).
        rewrite Hv in Hc. discriminate.
    + intros k Hin. apply in_app_or in Hin as [Hin|[<-|[]]]; auto.
Qed.

Lemma maxSatisfying_fold_ok keys :
  max_ok keys (fold_left (Semver.maxSatisfying_step range) keys None).
Proof.
  induction keys as [|v keys IH] using rev_ind; simpl.
  - intros k [].
  - rewrite fold_left_app. simpl. now apply maxSatisfying_step_ok.
Qed.

Lemma maxSatisfying_None keys :
  Semver.maxSatisfying keys range = None <->
  forall k, In k keys -> Semver.range_test range k = false.
Proof.
  unfold Semver.maxSatisfying. pose proof (maxSatisfying_fold_ok keys) as H.
  destruct (fold_left _ keys None) as [[k sv]|]; simpl in *.
  - split; [discriminate|]. intros Hall. destruct H as (Hk & Hs & _).
    assert (Semver.range_test range k = true) as Hc
      by (apply range_test_satisfies; eauto).
    rewrite (Hall k Hk) in Hc. discriminate.
  - split; auto.
Qed.

Lemma maxSatisfying_Some keys k :
  Semver.maxSatisfying keys range = Some k ->
  In k keys
  /\ exists sv, satisfies k sv
     /\ forall k' sv', In k' keys -> satisfies k' sv' -> Semver.compare sv' sv <= 0.
Proof.
  unfold Semver.maxSatisfying. pose proof (maxSatisfying_fold_ok keys) as H.
  destruct (fold_left _ keys None) as [[k0 sv]|]; simpl in *; [|discriminate].
  intros E. injection E as <-. destruct H as (Hk & Hs & Hmax). eauto.
Qed.

End MaxSatisfying.

(** *** The lookup table *)

Lemma table_get_set t k v k' :
  table_get (table_set t k v) k'
  = if String.eqb k k' then Some v else table_get t k'.
Proof.
  induction t as [|[k0 v0] t IH]; simpl.
  - reflexivity.
  - destruct (String.eqb_spec k0 k) as [->|Hne]; simpl.
    + destruct (String.eqb k k'); reflexivity.
    + rewrite IH. destruct (String.eqb_spec k0 k') as [->|]; [|reflexivity].
      apply String.eqb_neq in Hne. rewrite String.eqb_sym in Hne. now rewrite Hne.
Qed.

Lemma table_keys_set t k v x :
  In x (table_keys (table_set t k v)) <-> x = k \/ In x (table_keys t).
Proof.
  unfold table_keys. induction t as [|[k0 v0] t IH]; simpl.
  - intuition.
  - destruct (String.eqb_spec k0 k) as [->|Hne]; simpl; [intuition|].
    rewrite IH. intuition.
Qed.

Lemma table_get_keys t k :
  In k (table_keys t) -> exists v, table_get t k = Some v.
Proof.
  unfold table_keys. induction t as [|[k0 v0] t IH]; simpl; [intros []|].
  destruct (String.eqb_spec k0 k) as [->|Hne]; [eauto|].
  intros [H|H]; [contradiction | auto].
Qed.

Lemma table_fold pairs : forall t0,
  let t := fold_left (fun t kv => table_set t (fst kv) (snd kv)) pairs t0 in
  (forall k v, table_get t k = Some v -> In (k, v) pairs \/ table_get t0 k = Some v)
  /\ (forall k, In k (map fst pairs) \/ In k (table_keys t0) -> In k (table_keys t)).
Proof.
  induction pairs as [|[k0 v0] pairs IH]; simpl; intros t0.
  - split; [auto | intros k [[]|H]; exact H].
  - destruct (IH (table_set t0 k0 v0)) as [H1 H2]. split.
    + intros k v H. apply H1 in H as [H|H]; [auto|].
      rewrite table_get_set in H.
      destruct (String.eqb_spec k0 k) as [->|]; [|auto].
      injection H as <-. auto.
    + intros k H. apply H2. rewrite table_keys_set. intuition.
Qed.

Section MinorMutator.

Variable registry : jsval -> jsval -> completion (list string).

(** The pairs [getSemverLookupTable] builds the table from. *)
Definition semver_pairs (avail : list string) : list (string * string) :=
  omap (fun v => match VersionUtils.coerceSemver_string v with
                 | Some sv => Some (Semver.version sv, v)
                 | None => None
                 end) avail.

Lemma semver_pairs_In avail k v :
  In (k, v) (semver_pairs avail) <->
  In v avail /\ exists c, VersionUtils.coerceSemver_string v = Some c
                          /\ k = Semver.version c.
Proof.
  unfold semver_pairs. rewrite <- !list_elem_of_In, list_elem_of_omap. split.
  - intros (x & Hx & Hf).
    destruct (VersionUtils.coerceSemver_string x) as [c|] eqn:Hc; [|discriminate].
    injection Hf as <- <-. eauto.
  - intros (Hv & c & Hc & ->). exists v. rewrite Hc. auto.
Qed.

Lemma getSemverLookupTable_eq d avail :
  registry (get d "system") (get d "name") = Return avail ->
  getSemverLookupTable registry d
  = Return (fold_left (fun t kv => table_set t (fst kv) (snd kv))
              (semver_pairs avail) []).
Proof. intros H. unfold getSemverLookupTable. now rewrite H. Qed.

(** An available version [v] that the second mutator may choose for a
    dependency pinned at [cur]: [sv] is [v] as read back from its
    normalized semver string, it carries no prerelease tag, and it has
    [cur]'s major and a smaller minor. *)
Definition minor_candidate (avail : list string) (cur : Semver.SemVer)
    (v : string) (sv : Semver.SemVer) : Prop :=
  In v avail
  /\ (exists c, VersionUtils.coerceSemver_string v = Some c
                /\ Semver.parse_strict (Semver.version c) = Some sv)
  /\ Semver.prerelease sv = []
  /\ Semver.major sv = Semver.major cur
  /\ Semver.minor sv < Semver.minor cur.

Lemma minor_range_well_formed M m sv :
  Semver.testSet (Semver.range_same_major_below_minor M m) sv = true ->
  well_formed sv = true.
Proof.
  unfold Semver.testSet, well_formed. simpl.
  destruct (Semver.prerelease sv); [reflexivity|].
  rewrite andb_false_r. discriminate.
Qed.

Lemma coerce_empty : VersionUtils.coerceSemver_string "" = None.
Proof. reflexivity. Qed.

Lemma minor_candidate_satisfies avail cur v sv :
  minor_candidate avail cur v sv <->
  In v avail
  /\ exists c, VersionUtils.coerceSemver_string v = Some c
       /\ satisfies (Semver.range_same_major_below_minor (Semver.major cur)
                       (Semver.minor cur)) (Semver.version c) sv.
Proof.
  unfold minor_candidate, satisfies. split.
  - intros (Hin & (c & Hc & Hp) & Hpre & Hmaj & Hmin).
    split; [exact Hin|]. exists c. split_and!; auto.
    destruct (parse_strict_nonneg _ _ Hp) as (_ & H1 & H2).
    apply testSet_same_major_below_minor; auto.
  - intros (Hin & c & Hc & Hp & Ht).
    destruct (parse_strict_nonneg _ _ Hp) as (_ & H1 & H2).
    apply testSet_same_major_below_minor in Ht; auto.
    split_and!; try tauto. eauto.
Qed.

(** X24: what [decrement_semver_minor.apply] does choose.  For a
    dependency pinned at a version that coerces to
    [cur], with [avail] the versions the registry lists,
    [decrement_semver_minor.apply] produces no result when [cur]'s minor
    is 0 or when [avail] holds no candidate; otherwise it pins the
    candidate that is greatest in semver order.  A candidate is an
    available version without a prerelease tag whose major is [cur]'s and
    whose minor is smaller, that is, a release [v] with
    [major.0.0 <= v < major.minor.0]. *)
Theorem decrementSemverMinor_chooses d s cur avail :
  get d "version" = JString s ->
  VersionUtils.coerceSemver_string s = Some cur ->
  registry (get d "system") (get d "name") = Return avail ->
  (Semver.minor cur <= 0 -> decrementSemverMinor_apply registry d = Return None)
  /\ ((forall v sv, ~ minor_candidate avail cur v sv) ->
      decrementSemverMinor_apply registry d = Return None)
  /\ (forall r, decrementSemverMinor_apply registry d = Return (Some r) ->
        exists nv sv,
          minor_candidate avail cur nv sv
          /\ mutant r = set_key d "version" (JString nv)
          /\ changes (mutation r)
             = mkChanges (get d "name") (JString s) (JString nv)
          /\ forall v' sv', minor_candidate avail cur v' sv' ->
                            Semver.compare sv' sv <= 0)
  /\ (0 < Semver.minor cur -> (exists v sv, minor_candidate avail cur v sv) ->
        exists r, decrementSemverMinor_apply registry d = Return (Some r)).
Proof.
  intros Hv Hcur Hreg.
  set (range := Semver.range_same_major_below_minor (Semver.major cur)
                  (Semver.minor cur)).
  set (table := fold_left (fun t kv => table_set t (fst kv) (snd kv))
                  (semver_pairs avail) []).
  pose proof (minor_range_well_formed (Semver.major cur) (Semver.minor cur)) as Hwf.
  destruct (table_fold (semver_pairs avail) []) as [Hget Hkeys].
  fold table in Hget, Hkeys.
  assert (Hkey_of : forall v sv, minor_candidate avail cur v sv ->
            exists c, VersionUtils.coerceSemver_string v = Some c
                      /\ In (Semver.version c) (table_keys table)
                      /\ satisfies range (Semver.version c) sv).
  { intros v sv Hc. apply minor_candidate_satisfies in Hc as (Hin & c & Hc & Hs).
    exists c. split_and!; auto. apply Hkeys. left.
    apply (in_map fst _ (Semver.version c, v)). apply semver_pairs_In. eauto. }
  assert (Happ : 0 < Semver.minor cur ->
            decrementSemverMinor_apply registry d
            = apply_with_range registry TYPE_DECREMENT_SEMVER_MINOR d range).
  { intros Hpos. unfold decrementSemverMinor_apply. rewrite Hv. simpl.
    rewrite Hcur. apply Z.ltb_lt in Hpos. now rewrite Hpos. }
  assert (Hrange : apply_with_range registry TYPE_DECREMENT_SEMVER_MINOR d range
            = match Semver.maxSatisfying (table_keys table) range with
              | Some k =>
                  match table_get table k with
                  | Some nv =>
                      if String.eqb nv "" then Return None
                      else Return (Some (mkMutationResult
                             (set_key d "version" (JString nv))
                             (mkMutation TYPE_DECREMENT_SEMVER_MINOR
                                (mkChanges (get d "name") (JString s) (JString nv))
                                None)))
                  | None => Return None
                  end
              | None => Return None
              end).
  { unfold apply_with_range. rewrite (getSemverLookupTable_eq d avail Hreg).
    simpl. fold table.
    destruct (Semver.maxSatisfying (table_keys table) range) as [k|]; [|reflexivity].
    destruct (table_get table k) as [nv|]; [|reflexivity].
    destruct (String.eqb nv ""); [reflexivity|].
    unfold assign, clone. simpl. now rewrite get_set_key, Hv. }
  split_and!.
  - intros Hz. unfold decrementSemverMinor_apply. rewrite Hv. simpl. rewrite Hcur.
    assert ((0 <? Semver.minor cur) = false) as -> by (apply Z.ltb_ge; lia).
    reflexivity.
  - intros Hnone. destruct (Z.ltb_spec 0 (Semver.minor cur)) as [Hpos|Hz].
    + rewrite (Happ Hpos), Hrange.
      destruct (Semver.maxSatisfying (table_keys table) range) as [k|] eqn:Hmax;
        [|reflexivity].
      exfalso. apply (maxSatisfying_Some range Hwf) in Hmax as (Hk & sv & Hs & _).
      destruct (table_get_keys _ _ Hk) as [nv Hnv].
      apply Hget in Hnv as [Hnv|Hnv]; [|discriminate].
      apply semver_pairs_In in Hnv as (Hin & c & Hc & ->).
      apply (Hnone nv sv). apply minor_candidate_satisfies. eauto.
    + unfold decrementSemverMinor_apply. rewrite Hv. simpl. rewrite Hcur.
      assert ((0 <? Semver.minor cur) = false) as -> by (apply Z.ltb_ge; lia).
      reflexivity.
  - intros r Hr. destruct (Z.ltb_spec 0 (Semver.minor cur)) as [Hpos|Hz].
    + rewrite (Happ Hpos), Hrange in Hr.
      destruct (Semver.maxSatisfying (table_keys table) range) as [k|] eqn:Hmax;
        [|discriminate].
      apply (maxSatisfying_Some range Hwf) in Hmax as (Hk & sv & Hs & Hgreatest).
      destruct (table_get table k) as [nv|] eqn:Hnv; [|discriminate].
      destruct (String.eqb nv ""); [discriminate|].
      injection Hr as <-. simpl.
      apply Hget in Hnv as [Hnv|Hnv]; [|discriminate].
      apply semver_pairs_In in Hnv as (Hin & c & Hc & ->).
      exists nv, sv. split_and!; auto.
      * apply minor_candidate_satisfies. eauto.
      * intros v' sv' Hc'. apply Hkey_of in Hc' as (c' & _ & Hk' & Hs').
        apply (Hgreatest (Semver.version c')); auto.
    + unfold decrementSemverMinor_apply in Hr. rewrite Hv in Hr. simpl in Hr.
      rewrite Hcur in Hr.
      assert ((0 <? Semver.minor cur) = false) as E by (apply Z.ltb_ge; lia).
      rewrite E in Hr. discriminate.
  - intros Hpos (v & sv & Hc). rewrite (Happ Hpos), Hrange.
    apply Hkey_of in Hc as (c & _ & Hk & Hs).
    destruct (Semver.maxSatisfying (table_keys table) range) as [k|] eqn:Hmax.
    + apply (maxSatisfying_Some range Hwf) in Hmax as (Hk' & _).
      destruct (table_get_keys _ _ Hk') as [nv Hnv]. rewrite Hnv.
      apply Hget in Hnv as [Hnv|Hnv]; [|discriminate].
      apply semver_pairs_In in Hnv as (_ & c' & Hc' & _).
      destruct (String.eqb_spec nv "") as [->|]; [|eauto].
      rewrite coerce_empty in Hc'. discriminate.
    + exfalso. rewrite (maxSatisfying_None range Hwf) in Hmax.
      assert (Semver.range_test range (Semver.version c) = true) as Ht
        by (apply range_test_satisfies; eauto).
      rewrite (Hmax _ Hk) in Ht. discriminate.
Qed.

End MinorMutator.

(** A package as the APT adapter lists it, every version carrying a
    distribution suffix, and a dependency pinned at the newest one. *)
Definition suffixed_registry (system name : jsval) : completion (list string) :=
  Return ["2.1.0-1ubuntu1"; "2.2.0-3"; "2.3.0-1ubuntu1"].

Definition suffixed_pin : object :=
  [("name", JString "libfoo"); ("version", JString "2.3.0-1ubuntu1");
   ("system", JString "apt")].

(** C6: the code departs from the claim on every version that carries
    a suffix.  [coerceSemver] reads such versions as semvers with a
    prerelease tag and the lookup table keeps them, but
    [semver.maxSatisfying] is called without [includePrerelease] and
    passes them over.  With [1.1.0], [1.2.0-rc1] and [1.3.0] available
    and [1.3.0] pinned, the newest version with major 1 below [1.3.0] is
    [1.2.0-rc1], yet [apply] pins [1.1.0]; with [2.1.0-1ubuntu1],
    [2.2.0-3] and [2.3.0-1ubuntu1] available and the last one pinned,
    the minor is not 0 and [2.2.0-3] is a candidate, yet [apply]
    produces no result. *)
Lemma decrementSemverMinor_skips_prerelease_cex :
  Samples.registry (get Samples.keras "system") (get Samples.keras "name")
  = Return ["1.1.0"; "1.2.0-rc1"; "1.3.0"]
  /\ decrementSemverMinor_apply Samples.registry Samples.keras
     = Return (Some (mkMutationResult (Samples.dependency "keras" "1.1.0")
         (mkMutation "decrement_semver_minor"
            (mkChanges (JString "keras") (JString "1.3.0") (JString "1.1.0"))
            None)))
  /\ VersionUtils.coerceSemver_string "1.2.0-rc1"
     = Some (Semver.mkSemVer 1 2 0 [Semver.IStr "rc1"])
  /\ VersionUtils.coerceSemver_string "1.1.0" = Some (Semver.mkSemVer 1 1 0 [])
  /\ Semver.compare (Semver.mkSemVer 1 2 0 [Semver.IStr "rc1"])
       (Semver.mkSemVer 1 3 0 []) < 0
  /\ Semver.compare (Semver.mkSemVer 1 1 0 [])
       (Semver.mkSemVer 1 2 0 [Semver.IStr "rc1"]) < 0
  /\ decrementSemverMinor_apply suffixed_registry suffixed_pin = Return None
  /\ VersionUtils.coerceSemver_string "2.3.0-1ubuntu1"
     = Some (Semver.mkSemVer 2 3 0 [Semver.IStr "1ubuntu1"])
  /\ VersionUtils.coerceSemver_string "2.2.0-3"
     = Some (Semver.mkSemVer 2 2 0 [Semver.INum 3])
  /\ Semver.compare (Semver.mkSemVer 2 2 0 [Semver.INum 3])
       (Semver.mkSemVer 2 3 0 []) < 0.
Proof. vm_compute. repeat split. Qed.

Lemma decrementSemverMinor_chooses_witness :
  exists nv sv,
    minor_candidate ["0.18.2"; "0.19.0"; "0.19.2"; "0.20.0"; "0.20.3"; "1.0.0"; "1.1.0"]
      (Semver.mkSemVer 1 1 0 []) nv sv
    /\ mutant (mkMutationResult (Samples.dependency "scikit-learn" "1.0.0")
                 (mkMutation "decrement_semver_minor"
                    (mkChanges (JString "scikit-learn") (JString "1.1.0")
                       (JString "1.0.0")) None))
       = set_key Samples.scikit "version" (JString nv)
    /\ changes (mutation (mkMutationResult (Samples.dependency "scikit-learn" "1.0.0")
                 (mkMutation "decrement_semver_minor"
                    (mkChanges (JString "scikit-learn") (JString "1.1.0")
                       (JString "1.0.0")) None)))
       = mkChanges (get Samples.scikit "name") (JString "1.1.0") (JString nv)
    /\ forall v' sv',
         minor_candidate
           ["0.18.2"; "0.19.0"; "0.19.2"; "0.20.0"; "0.20.3"; "1.0.0"; "1.1.0"]
           (Semver.mkSemVer 1 1 0 []) v' sv' ->
         Semver.compare sv' sv <= 0.
Proof.
  apply (decrementSemverMinor_chooses Samples.registry Samples.scikit "1.1.0"
           (Semver.mkSemVer 1 1 0 [])
           ["0.18.2"; "0.19.0"; "0.19.2"; "0.20.0"; "0.20.3"; "1.0.0"; "1.1.0"]).
  - reflexivity.
  - vm_compute. reflexivity.
  - reflexivity.
  - vm_compute. reflexivity.
Defined.

(** ** Version-matrix planning *)

(** A dependency pinned at the top of its upgrade matrix, and the
    breaking-upgrade records of that matrix: upgrading to [2.0.0] broke
    users of [1.0.0]; upgrading to [1.5.0] broke users of [1.0.0] and
    is recorded against [2.0.0] as well. *)
Definition libfoo : object :=
  [("name", JString "libfoo"); ("version", JString "2.0.0"); ("system", JString "apt")].

Definition libfoo_records : list (string * list string) :=
  [("2.0.0", ["1.0.0"]); ("1.5.0", ["1.0.0"; "2.0.0"])].

Definition matrix_step (from to : string) : MutationResult :=
  mkMutationResult
    [("name", JString "libfoo"); ("version", JString to); ("system", JString "apt")]
    (mkMutation "version_matrix_from_version"
       (mkChanges (JString "libfoo") (JString from) (JString to)) None).


Section MatrixPlan.

Variable sortPackageVersions :
  list string -> bool -> jsval -> completion (list string).
Variable dependency : object.

(** The plan in the specification's words: one mutation per version in
    [tos], each going from the version the previous one reached (first
    from [cur]), the mutant being the dependency pinned at the version
    reached.  This definition follows the specification, not the code. *)
Fixpoint spec_matrix_chain (cur : jsval) (tos : list string) : list MutationResult :=
  match tos with
  | [] => []
  | t :: tos' =>
      mkMutationResult (set_key dependency "version" (JString t))
        (mkMutation TYPE_VERSION_MATRIX_FROM
           (mkChanges (get dependency "name") cur (JString t)) None)
      :: spec_matrix_chain (JString t) tos'
  end.

(** The version reached after going through [tos] from [cur]. *)
Fixpoint reached (cur : jsval) (tos : list string) : jsval :=
  match tos with
  | [] => cur
  | t :: tos' => reached (JString t) tos'
  end.

Lemma spec_matrix_chain_app cur a b :
  spec_matrix_chain cur (a ++ b)
  = spec_matrix_chain cur a ++ spec_matrix_chain (reached cur a) b.
Proof.
  revert cur. induction a as [|t a IH]; intros cur; simpl; [reflexivity|].
  now rewrite IH.
Qed.

Lemma reached_app cur a b : reached cur (a ++ b) = reached (reached cur a) b.
Proof. revert cur. induction a as [|t a IH]; intros cur; simpl; auto. Qed.

Lemma set_key_twice (o : object) k a b :
  set_key (set_key o k a) k b = set_key o k b.
Proof.
  induction o as [|[k' v'] o IH]; simpl.
  - now rewrite String.eqb_refl.
  - destruct (String.eqb k' k) eqn:E; simpl; rewrite E; [reflexivity|].
    now rewrite IH.
Qed.

(** The threaded mutant is the dependency pinned at the version reached. *)
Definition threads (mutant : object) (cur : jsval) : Prop :=
  get mutant "version" = cur
  /\ forall t, set_key mutant "version" t = set_key dependency "version" t.

Lemma matrix_visit_fold tos : forall s cur,
  threads (ms_mutant s) cur ->
  let s' := fold_left (matrix_visit dependency) tos s in
  ms_mutations s' = ms_mutations s ++ spec_matrix_chain cur tos
  /\ threads (ms_mutant s') (reached cur tos).
Proof.
  induction tos as [|t tos IH]; simpl; intros s cur [Hget Hset].
  - split; [now rewrite app_nil_r | now split].
  - destruct (IH (matrix_visit dependency s t) (JString t)) as [H1 H2].
    { unfold matrix_visit, clone. simpl. split.
      - apply get_set_key.
      - intros t'. now rewrite set_key_twice. }
    split.
    + rewrite H1. unfold matrix_visit, clone, push. simpl.
      rewrite Hget, Hset, <- app_assoc. reflexivity.
    + exact H2.
Qed.

Lemma matrix_explore_step lookup s k cur :
  threads (ms_mutant s) cur ->
  let tos := default [] (matrix_get lookup k) in
  let s' := matrix_explore lookup dependency s k in
  ms_mutations s' = ms_mutations s ++ spec_matrix_chain cur tos
  /\ threads (ms_mutant s') (reached cur tos).
Proof.
  intros Hth. unfold matrix_explore.
  destruct (negb _ && negb _).
  - exact (matrix_visit_fold (default [] (matrix_get lookup k))
             (mkMatrixState (encountered s ∪ {[k]}) (ms_mutant s) (ms_mutations s))
             cur Hth).
  - exact (matrix_visit_fold (default [] (matrix_get lookup k)) s cur Hth).
Qed.

Lemma matrix_explore_fold lookup keys : forall s cur,
  threads (ms_mutant s) cur ->
  let tos := flat_map (fun k => default [] (matrix_get lookup k)) keys in
  let s' := fold_left (matrix_explore lookup dependency) keys s in
  ms_mutations s' = ms_mutations s ++ spec_matrix_chain cur tos
  /\ threads (ms_mutant s') (reached cur tos).
Proof.
  induction keys as [|k keys IH]; simpl; intros s cur Hth.
  - split; [now rewrite app_nil_r | exact Hth].
  - destruct (matrix_explore_step lookup s k cur Hth) as [H1 H2].
    destruct (IH _ _ H2) as [H3 H4].
    split.
    + rewrite H3, H1, spec_matrix_chain_app, <- app_assoc. reflexivity.
    + now rewrite reached_app.
Qed.

(** The plan the code builds, exactly: one mutation for every recorded
    version of every key, keys in the order the adapter returned them. *)
Lemma versionMatrixMutations_exact r records sorted :
  let lookup := fold_left (fun t r => matrix_set t (fst r) (snd r)) (r :: records) [] in
  sortPackageVersions (matrix_keys lookup) false (get dependency "version")
  = Return sorted ->
  versionMatrixMutations sortPackageVersions true (r :: records) dependency
  = Return (Some (spec_matrix_chain (get dependency "version")
                    (flat_map (fun k => default [] (matrix_get lookup k)) sorted))).
Proof.
  intros lookup Hsort. unfold versionMatrixMutations. fold lookup.
  rewrite Hsort. simpl. do 2 f_equal.
  destruct (matrix_explore_fold lookup sorted
              (mkMatrixState ∅ dependency []) (get dependency "version"))
    as [H _].
  - split; reflexivity.
  - exact H.
Qed.

End MatrixPlan.

Lemma StronglySorted_weaken {A} (R S : A -> A -> Prop) l :
  (forall a b, R a b -> S a b) -> StronglySorted R l -> StronglySorted S l.
Proof.
  intros HRS. induction 1 as [|x l Hs IH Hx]; constructor; [exact IH|].
  eapply Forall_impl; [exact Hx|]. intros y. apply HRS.
Qed.



(** * Further properties of the modelled code *)

(** ** Semver mutators: the choice made by either [apply] *)

Section ApplyWithRange.

Variable registry : jsval -> jsval -> completion (list string).
Variable range : Semver.Range.

Hypothesis range_well_formed :
  forall sv, Semver.testSet range sv = true -> well_formed sv = true.

(** An available version whose normalized semver string is in the range;
    [sv] is the version as read back from that string. *)
Definition in_range (avail : list string) (v : string) (sv : Semver.SemVer) : Prop :=
  In v avail
  /\ exists c, VersionUtils.coerceSemver_string v = Some c
               /\ satisfies range (Semver.version c) sv.

(** What the shared tail of the two [apply] methods does once the
    registry has answered: nothing without a version in the range,
    otherwise it pins the greatest one and records the change. *)
Lemma apply_with_range_chooses name d avail :
  registry (get d "system") (get d "name") = Return avail ->
  ((forall v sv, ~ in_range avail v sv) ->
   apply_with_range registry name d range = Return None)
  /\ (forall r, apply_with_range registry name d range = Return (Some r) ->
        exists nv sv,
          in_range avail nv sv
          /\ mutant r = set_key d "version" (JString nv)
          /\ mutation r
             = mkMutation name
                 (mkChanges (get d "name") (get d "version") (JString nv)) None
          /\ forall v' sv', in_range avail v' sv' -> Semver.compare sv' sv <= 0)
  /\ ((exists v sv, in_range avail v sv) ->
        exists r, apply_with_range registry name d range = Return (Some r)).
Proof.
  intros Hreg.
  set (table := fold_left (fun t kv => table_set t (fst kv) (snd kv))
                  (semver_pairs avail) []).
  destruct (table_fold (semver_pairs avail) []) as [Hget Hkeys].
  fold table in Hget, Hkeys.
  assert (Hkey_of : forall v sv, in_range avail v sv ->
            exists c, In (Semver.version c) (table_keys table)
                      /\ satisfies range (Semver.version c) sv).
  { intros v sv (Hin & c & Hc & Hs). exists c. split; [|exact Hs].
    apply Hkeys. left. apply (in_map fst _ (Semver.version c, v)).
    apply semver_pairs_In. eauto. }
  assert (Hrange : apply_with_range registry name d range
            = match Semver.maxSatisfying (table_keys table) range with
              | Some k =>
                  match table_get table k with
                  | Some nv =>
                      if String.eqb nv "" then Return None
                      else Return (Some (mkMutationResult
                             (set_key d "version" (JString nv))
                             (mkMutation name
                                (mkChanges (get d "name") (get d "version")
                                   (JString nv)) None)))
                  | None => Return None
                  end
              | None => Return None
              end).
  { unfold apply_with_range. rewrite (getSemverLookupTable_eq registry d avail Hreg).
    simpl. fold table.
    destruct (Semver.maxSatisfying (table_keys table) range) as [k|]; [|reflexivity].
    destruct (table_get table k) as [nv|]; [|reflexivity].
    destruct (String.eqb nv ""); [reflexivity|].
    unfold assign, clone. simpl. now rewrite get_set_key. }
  rewrite Hrange. split_and!.
  - intros Hnone.
    destruct (Semver.maxSatisfying (table_keys table) range) as [k|] eqn:Hmax;
      [|reflexivity].
    exfalso.
    apply (maxSatisfying_Some range range_well_formed) in Hmax as (Hk & sv & Hs & _).
    destruct (table_get_keys _ _ Hk) as [nv Hnv].
    apply Hget in Hnv as [Hnv|Hnv]; [|discriminate].
    apply semver_pairs_In in Hnv as (Hin & c & Hc & ->).
    apply (Hnone nv sv). split; eauto.
  - intros r Hr.
    destruct (Semver.maxSatisfying (table_keys table) range) as [k|] eqn:Hmax;
      [|discriminate].
    apply (maxSatisfying_Some range range_well_formed) in Hmax
      as (Hk & sv & Hs & Hgreatest).
    destruct (table_get table k) as [nv|] eqn:Hnv; [|discriminate].
    destruct (String.eqb nv ""); [discriminate|].
    injection Hr as <-. simpl.
    apply Hget in Hnv as [Hnv|Hnv]; [|discriminate].
    apply semver_pairs_In in Hnv as (Hin & c & Hc & ->).
    exists nv, sv. split_and!; auto.
    + split; eauto.
    + intros v' sv' Hc'. apply Hkey_of in Hc' as (c' & Hk' & Hs').
      apply (Hgreatest (Semver.version c')); auto.
  - intros (v & sv & Hc).
    apply Hkey_of in Hc as (c & Hk & Hs).
    destruct (Semver.maxSatisfying (table_keys table) range) as [k|] eqn:Hmax.
    + apply (maxSatisfying_Some range range_well_formed) in Hmax as (Hk' & _).
      destruct (table_get_keys _ _ Hk') as [nv Hnv]. rewrite Hnv.
      apply Hget in Hnv as [Hnv|Hnv]; [|discriminate].
      apply semver_pairs_In in Hnv as (_ & c' & Hc' & _).
      destruct (String.eqb_spec nv "") as [->|]; [|eauto].
      rewrite coerce_empty in Hc'. discriminate.
    + exfalso. rewrite (maxSatisfying_None range range_well_formed) in Hmax.
      assert (Semver.range_test range (Semver.version c) = true) as Ht
        by (apply range_test_satisfies; eauto).
      rewrite (Hmax _ Hk) in Ht. discriminate.
Qed.

End ApplyWithRange.

(** *** [decrement_semver_major] *)

Lemma major_range_well_formed M sv :
  Semver.testSet (Semver.range_below_major M) sv = true -> well_formed sv = true.
Proof.
  unfold Semver.testSet, well_formed. simpl.
  destruct (Semver.prerelease sv); [reflexivity|].
  rewrite andb_false_r. discriminate.
Qed.

(** A version with non-negative numbers is in the range [<M.0.0] exactly
    when it carries no prerelease tag and its major is below [M]. *)
Lemma testSet_below_major M sv :
  0 <= Semver.minor sv -> 0 <= Semver.patch sv ->
  Semver.testSet (Semver.range_below_major M) sv = true
  <-> Semver.prerelease sv = [] /\ Semver.major sv < M.
Proof.
  intros Hmin Hpat. unfold Semver.testSet, Semver.range_below_major.
  simpl. destruct (Semver.prerelease sv) as [|i pre] eqn:Hpre.
  - rewrite !andb_true_r.
    unfold Semver.comparator_test, Semver.lt. simpl.
    rewrite compare_release by (auto; reflexivity).
    unfold Semver.compareMain. simpl. rewrite Z.ltb_lt.
    split.
    + intros H. split; [reflexivity|]. revert H. num_cases.
    + intros (_ & H). num_cases.
  - rewrite andb_false_r. split; [discriminate | intros [H _]; discriminate].
Qed.

Section MajorMutator.

Variable registry : jsval -> jsval -> completion (list string).

(** An available version the first mutator may choose for a dependency
    pinned at [cur]: no prerelease tag, and a major below [cur]'s. *)
Definition major_candidate (avail : list string) (cur : Semver.SemVer)
    (v : string) (sv : Semver.SemVer) : Prop :=
  In v avail
  /\ (exists c, VersionUtils.coerceSemver_string v = Some c
                /\ Semver.parse_strict (Semver.version c) = Some sv)
  /\ Semver.prerelease sv = []
  /\ Semver.major sv < Semver.major cur.

Lemma major_candidate_in_range avail cur v sv :
  major_candidate avail cur v sv
  <-> in_range (Semver.range_below_major (Semver.major cur)) avail v sv.
Proof.
  unfold major_candidate, in_range, satisfies. split.
  - intros (Hin & (c & Hc & Hp) & Hpre & Hmaj).
    split; [exact Hin|]. exists c. split_and!; auto.
    destruct (parse_strict_nonneg _ _ Hp) as (_ & H1 & H2).
    apply testSet_below_major; auto.
  - intros (Hin & c & Hc & Hp & Ht).
    destruct (parse_strict_nonneg _ _ Hp) as (_ & H1 & H2).
    apply testSet_below_major in Ht; auto.
    split_and!; try tauto. eauto.
Qed.

(** X2: [decrement_semver_major.apply] produces no result when the pinned
    version's major is 0 or no available release has a smaller major;
    otherwise it pins the greatest available release with a smaller
    major, and records the change from the old pin to the new one. *)
Theorem decrementSemverMajor_chooses d s cur avail :
  get d "version" = JString s ->
  VersionUtils.coerceSemver_string s = Some cur ->
  registry (get d "system") (get d "name") = Return avail ->
  (Semver.major cur <= 0 -> decrementSemverMajor_apply registry d = Return None)
  /\ ((forall v sv, ~ major_candidate avail cur v sv) ->
      decrementSemverMajor_apply registry d = Return None)
  /\ (forall r, decrementSemverMajor_apply registry d = Return (Some r) ->
        exists nv sv,
          major_candidate avail cur nv sv
          /\ mutant r = set_key d "version" (JString nv)
          /\ changes (mutation r)
             = mkChanges (get d "name") (JString s) (JString nv)
          /\ forall v' sv', major_candidate avail cur v' sv' ->
                            Semver.compare sv' sv <= 0)
  /\ (0 < Semver.major cur -> (exists v sv, major_candidate avail cur v sv) ->
        exists r, decrementSemverMajor_apply registry d = Return (Some r)).
Proof.
  intros Hv Hcur Hreg.
  pose proof (apply_with_range_chooses registry
                (Semver.range_below_major (Semver.major cur))
                (major_range_well_formed (Semver.major cur))
                TYPE_DECREMENT_SEMVER_MAJOR d avail Hreg) as (Hnone & Hsome & Hex).
  assert (Hzero : Semver.major cur <= 0 ->
            decrementSemverMajor_apply registry d = Return None).
  { intros Hz. unfold decrementSemverMajor_apply. rewrite Hv. simpl. rewrite Hcur.
    assert ((0 <? Semver.major cur) = false) as -> by (apply Z.ltb_ge; lia).
    reflexivity. }
  assert (Happ : 0 < Semver.major cur ->
            decrementSemverMajor_apply registry d
            = apply_with_range registry TYPE_DECREMENT_SEMVER_MAJOR d
                (Semver.range_below_major (Semver.major cur))).
  { intros Hpos. unfold decrementSemverMajor_apply. rewrite Hv. simpl.
    rewrite Hcur. apply Z.ltb_lt in Hpos. now rewrite Hpos. }
  split_and!.
  - exact Hzero.
  - intros Hno. destruct (Z.ltb_spec 0 (Semver.major cur)) as [Hpos|Hz]; [|auto].
    rewrite (Happ Hpos). apply Hnone. intros v sv Hc.
    apply (Hno v sv). now apply major_candidate_in_range.
  - intros r Hr. destruct (Z.ltb_spec 0 (Semver.major cur)) as [Hpos|Hz].
    + rewrite (Happ Hpos) in Hr.
      destruct (Hsome r Hr) as (nv & sv & Hc & Hm & Hmu & Hgreatest).
      exists nv, sv. split_and!.
      * now apply major_candidate_in_range.
      * exact Hm.
      * rewrite Hmu. simpl. now rewrite Hv.
      * intros v' sv' Hc'. apply (Hgreatest v').
        now apply major_candidate_in_range.
    + rewrite (Hzero Hz) in Hr. discriminate.
  - intros Hpos (v & sv & Hc). rewrite (Happ Hpos). apply Hex.
    exists v, sv. now apply major_candidate_in_range.
Qed.

End MajorMutator.

Lemma decrementSemverMajor_chooses_witness :
  exists nv sv,
    major_candidate ["0.18.2"; "0.19.0"; "0.19.2"; "0.20.0"; "0.20.3"; "1.0.0"; "1.1.0"]
      (Semver.mkSemVer 1 1 0 []) nv sv
    /\ mutant (mkMutationResult (Samples.dependency "scikit-learn" "0.20.3")
                 (mkMutation "decrement_semver_major"
                    (mkChanges (JString "scikit-learn") (JString "1.1.0")
                       (JString "0.20.3")) None))
       = set_key Samples.scikit "version" (JString nv)
    /\ changes (mutation (mkMutationResult (Samples.dependency "scikit-learn" "0.20.3")
                 (mkMutation "decrement_semver_major"
                    (mkChanges (JString "scikit-learn") (JString "1.1.0")
                       (JString "0.20.3")) None)))
       = mkChanges (get Samples.scikit "name") (JString "1.1.0") (JString nv)
    /\ forall v' sv',
         major_candidate
           ["0.18.2"; "0.19.0"; "0.19.2"; "0.20.0"; "0.20.3"; "1.0.0"; "1.1.0"]
           (Semver.mkSemVer 1 1 0 []) v' sv' ->
         Semver.compare sv' sv <= 0.
Proof.
  apply (decrementSemverMajor_chooses Samples.registry Samples.scikit "1.1.0"
           (Semver.mkSemVer 1 1 0 [])
           ["0.18.2"; "0.19.0"; "0.19.2"; "0.20.0"; "0.20.3"; "1.0.0"; "1.1.0"]).
  - reflexivity.
  - vm_compute. reflexivity.
  - reflexivity.
  - vm_compute. reflexivity.
Defined.

(** *** Both mutators *)

Lemma compare_main_below a b :
  Semver.major a < Semver.major b
  \/ (Semver.major a = Semver.major b /\ Semver.minor a < Semver.minor b) ->
  Semver.compare a b = -1.
Proof.
  intros H. unfold Semver.compare, Semver.compareMain.
  destruct H as [H|[H1 H2]]; num_cases.
Qed.

Lemma set_key_keys (o : object) k v :
  has_key o k = true -> map fst (set_key o k v) = map fst o.
Proof.
  induction o as [|[k' v'] o IH]; simpl; [discriminate|].
  destruct (String.eqb k' k) eqn:E; simpl; [reflexivity|].
  intros H. now rewrite IH.
Qed.

Section MutatorsDecrease.

Variable registry : jsval -> jsval -> completion (list string).

(** X3: a successful [apply] of either mutator pins a strictly older
    version: the new pin is an available release that, read back from
    its normalized semver string, compares below the version the
    dependency was pinned at. *)
Theorem semver_mutation_decreases m d s cur r :
  In m (versionMutators registry) ->
  get d "version" = JString s ->
  VersionUtils.coerceSemver_string s = Some cur ->
  apply m d = Return (Some r) ->
  exists nv c sv,
    get (mutant r) "version" = JString nv
    /\ changes_to (changes (mutation r)) = JString nv
    /\ VersionUtils.coerceSemver_string nv = Some c
    /\ Semver.parse_strict (Semver.version c) = Some sv
    /\ Semver.prerelease sv = []
    /\ Semver.compare sv cur = -1.
Proof.
  intros Hin Hv Hcur Happ.
  assert (Hm : m = decrementSemverMajor registry \/ m = decrementSemverMinor registry).
  { simpl in Hin. intuition. }
  destruct (registry (get d "system") (get d "name")) as [avail|msg] eqn:Hreg.
  - destruct Hm as [-> | ->]; simpl in Happ;
      unfold decrementSemverMajor_apply, decrementSemverMinor_apply in Happ;
      rewrite Hv in Happ; simpl in Happ; rewrite Hcur in Happ.
    + destruct (0 <? Semver.major cur); [|discriminate].
      destruct (apply_with_range_chooses registry _
                  (major_range_well_formed (Semver.major cur))
                  TYPE_DECREMENT_SEMVER_MAJOR d avail Hreg)
        as (_ & Hsome & _).
      destruct (Hsome r Happ) as (nv & sv & Hc & Hmu & Hmut & _).
      apply major_candidate_in_range in Hc as (_ & (c & Hc & Hp) & Hpre & Hlt).
      exists nv, c, sv. rewrite Hmu, Hmut, get_set_key. simpl.
      split_and!; auto. apply compare_main_below. now left.
    + destruct (0 <? Semver.minor cur); [|discriminate].
      destruct (apply_with_range_chooses registry _
                  (minor_range_well_formed (Semver.major cur) (Semver.minor cur))
                  TYPE_DECREMENT_SEMVER_MINOR d avail Hreg)
        as (_ & Hsome & _).
      destruct (Hsome r Happ) as (nv & sv & Hc & Hmu & Hmut & _).
      assert (Hc' : minor_candidate avail cur nv sv)
        by (apply minor_candidate_satisfies; exact Hc).
      destruct Hc' as (_ & (c & Hc' & Hp) & Hpre & Hmaj & Hlt).
      exists nv, c, sv. rewrite Hmu, Hmut, get_set_key. simpl.
      split_and!; auto. apply compare_main_below. now right.
  - exfalso.
    destruct Hm as [-> | ->]; simpl in Happ;
      unfold decrementSemverMajor_apply, decrementSemverMinor_apply in Happ;
      rewrite Hv in Happ; simpl in Happ; rewrite Hcur in Happ;
      destruct (0 <? _); try discriminate;
      unfold apply_with_range, getSemverLookupTable in Happ;
      rewrite Hreg in Happ; discriminate.
Qed.

(** X4: a successful [apply] changes the [version] field and nothing else:
    the mutant has the dependency's keys in the same order and the same
    value under every other key, and the mutation record names the
    mutator, the package, the old pin and the new pin. *)
Theorem apply_changes_only_version m d r :
  In m (versionMutators registry) ->
  apply m d = Return (Some r) ->
  map fst (mutant r) = map fst d
  /\ (forall k, k <> "version" -> get (mutant r) k = get d k)
  /\ mutation_type (mutation r) = mutator_name m
  /\ changes_package (changes (mutation r)) = get d "name"
  /\ changes_from (changes (mutation r)) = get d "version"
  /\ changes_to (changes (mutation r)) = get (mutant r) "version"
  /\ iddfs (mutation r) = None.
Proof.
  intros Hin Happ.
  destruct (mutator_apply_result registry m d r Hin Happ) as (s & nv & Hv & Hm & Hmu).
  rewrite Hm, Hmu. simpl. split_and!; try reflexivity.
  - apply set_key_keys. eapply get_string_has_key, Hv.
  - intros k Hk. apply get_set_key_other. congruence.
  - now rewrite get_set_key.
Qed.

(** Neither mutator can work on a dependency without a pin: with
    [version] undefined or null, [apply] throws. *)
Lemma apply_unpinned_throws m d :
  In m (versionMutators registry) ->
  get d "version" = JUndefined \/ get d "version" = JNull ->
  apply m d = Throw "Undefined or null value passed to coerceSemver.".
Proof.
  intros Hin Hv.
  assert (Hm : m = decrementSemverMajor registry \/ m = decrementSemverMinor registry).
  { simpl in Hin. intuition. }
  destruct Hm as [-> | ->], Hv as [Hv|Hv]; simpl;
    unfold decrementSemverMajor_apply, decrementSemverMinor_apply;
    now rewrite Hv.
Qed.

End MutatorsDecrease.

Lemma semver_mutation_decreases_witness :
  exists nv c sv,
    get (Samples.dependency "scikit-learn" "1.0.0") "version" = JString nv
    /\ JString "1.0.0" = JString nv
    /\ VersionUtils.coerceSemver_string nv = Some c
    /\ Semver.parse_strict (Semver.version c) = Some sv
    /\ Semver.prerelease sv = []
    /\ Semver.compare sv (Semver.mkSemVer 1 1 0 []) = -1.
Proof.
  apply (semver_mutation_decreases Samples.registry
           (decrementSemverMinor Samples.registry) Samples.scikit "1.1.0"
           (Semver.mkSemVer 1 1 0 [])
           (mkMutationResult (Samples.dependency "scikit-learn" "1.0.0")
              (mkMutation "decrement_semver_minor"
                 (mkChanges (JString "scikit-learn") (JString "1.1.0")
                    (JString "1.0.0")) None))).
  - right; left; reflexivity.
  - reflexivity.
  - vm_compute. reflexivity.
  - vm_compute. reflexivity.
Defined.

Lemma apply_changes_only_version_witness :
  map fst (Samples.dependency "scikit-learn" "1.0.0") = map fst Samples.scikit
  /\ (forall k, k <> "version" ->
        get (Samples.dependency "scikit-learn" "1.0.0") k = get Samples.scikit k)
  /\ "decrement_semver_minor" = mutator_name (decrementSemverMinor Samples.registry)
  /\ JString "scikit-learn" = get Samples.scikit "name"
  /\ JString "1.1.0" = get Samples.scikit "version"
  /\ JString "1.0.0" = get (Samples.dependency "scikit-learn" "1.0.0") "version"
  /\ @None IddfsInfo = None.
Proof.
  apply (apply_changes_only_version Samples.registry
           (decrementSemverMinor Samples.registry) Samples.scikit
           (mkMutationResult (Samples.dependency "scikit-learn" "1.0.0")
              (mkMutation "decrement_semver_minor"
                 (mkChanges (JString "scikit-learn") (JString "1.1.0")
                    (JString "1.0.0")) None))).
  - right; left; reflexivity.
  - vm_compute. reflexivity.
Defined.

(** A dependency as the APT adapter returns it for a package without
    any available version. *)
Definition unpinned : object :=
  [("name", JString "libfoo"); ("version", JUndefined); ("system", JString "apt")].

(** ** APT adapter: when sorting fails, and when the cutoff is ignored *)

Lemma all_some_None {A} (l : list (option A)) :
  In None l -> APTStrategy.all_some l = None.
Proof.
  induction l as [|[x|] l IH]; simpl; [intros [] | | reflexivity].
  intros [H|H]; [discriminate|]. now rewrite IH.
Qed.

(** X5: [sortPackageVersions] throws when it is called without a cutoff
    (the parameter is coerced before it is tested), and, whatever the
    cutoff, when one of the versions does not coerce to a semver. *)
Theorem sortPackageVersions_throws vs ascending cutoff :
  cutoff = JUndefined \/ cutoff = JNull
  \/ (exists v, In v vs /\ VersionUtils.coerceSemver_string v = None) ->
  exists msg, APTStrategy.sortPackageVersions vs ascending cutoff = Throw msg.
Proof.
  unfold APTStrategy.sortPackageVersions.
  intros [-> | [-> | (v & Hin & Hv)]]; simpl; eauto.
  destruct (VersionUtils.coerceSemver_coerced cutoff) as [c|msg]; simpl; eauto.
  rewrite all_some_None; eauto.
  rewrite <- coerceSemver_object_fst in Hv.
  destruct (VersionUtils.coerceSemver_object v) eqn:Hobj; [discriminate|].
  rewrite <- Hobj. now apply in_map.
Qed.

Lemma sortPackageVersions_throws_witness :
  exists msg, APTStrategy.sortPackageVersions ["1.0.0"; "stable"] false
                (JString "1.0.0") = Throw msg.
Proof.
  apply (sortPackageVersions_throws ["1.0.0"; "stable"] false (JString "1.0.0")).
  right. right. exists "stable". split; [right; left; reflexivity | reflexivity].
Defined.

(** X6: a cutoff string that does not coerce to a semver filters nothing:
    every coerced version comes back, in sorted order. *)
Theorem sortPackageVersions_cutoff_ignored vs svs ascending c :
  VersionUtils.coerceSemver_string c = None ->
  map VersionUtils.coerceSemver_string vs = map Some svs ->
  exists out,
    APTStrategy.sortPackageVersions vs ascending (JString c)
    = Return (map Semver.version out)
    /\ Permutation out svs
    /\ length out = length vs.
Proof.
  intros Hc Hvs.
  destruct (coerceSemver_objects vs svs Hvs) as (objects & Hobj & Hfst).
  exists (map fst (APTStrategy.array_sort (APTStrategy.comparefn ascending) objects)).
  assert (Hp : Permutation
                 (map fst (APTStrategy.array_sort
                             (APTStrategy.comparefn ascending) objects)) svs).
  { rewrite <- Hfst. apply Permutation_map, array_sort_Permutation. }
  split_and!; [| exact Hp |].
  - unfold APTStrategy.sortPackageVersions. simpl.
    rewrite <- coerceSemver_object_fst in Hc.
    destruct (VersionUtils.coerceSemver_object c); [discriminate|].
    rewrite Hobj, all_some_Some. simpl. now rewrite map_map.
  - rewrite (Permutation_length Hp).
    rewrite <- (length_map Some svs), <- Hvs. apply length_map.
Qed.

Lemma sortPackageVersions_cutoff_ignored_witness :
  exists out,
    APTStrategy.sortPackageVersions ["1.0.0"; "2.0.0"] true (JString "newest")
    = Return (map Semver.version out)
    /\ Permutation out [Semver.mkSemVer 1 0 0 []; Semver.mkSemVer 2 0 0 []]
    /\ length out = length ["1.0.0"; "2.0.0"].
Proof.
  apply (sortPackageVersions_cutoff_ignored ["1.0.0"; "2.0.0"]
           [Semver.mkSemVer 1 0 0 []; Semver.mkSemVer 2 0 0 []] true "newest").
  - vm_compute. reflexivity.
  - vm_compute. reflexivity.
Defined.

(** ** Iterative-deepening search: budget, order and shape of the yields *)

Section IddfsYields.

Variable registry : jsval -> jsval -> completion (list string).
Variable n : nat.

(** How many environments the generator may still yield. *)
Definition remaining (c : iddfs_config) : nat :=
  match c with
  | CStart _ => S n
  | CFirstYield _ => n
  | CLoop st | CYield st _ => n - totalCount st
  end.

Lemma lateral_totalCount st : totalCount (lateral registry st) = totalCount st.
Proof. unfold lateral. now destruct (_ !! _). Qed.

Lemma lateral_depth st : depth (lateral registry st) = depth st.
Proof. unfold lateral. now destruct (_ !! _). Qed.

Lemma lateral_mutatorIndex st : (mutatorIndex (lateral registry st) < 2)%nat.
Proof.
  unfold lateral.
  destruct (versionMutators registry !! (mutatorIndex st + 1)%nat) eqn:E; simpl; [|lia].
  apply lookup_lt_Some in E. exact E.
Qed.

Lemma iddfs_step_remaining c o :
  iddfs_step registry n c = Return o ->
  match o with
  | OStep c' => (remaining c' <= remaining c)%nat
  | OYield _ c' => (S (remaining c') <= remaining c)%nat
  | OExhausted _ | OBudget _ | OStuck => True
  end.
Proof.
  destruct c as [e|e|st|st dep]; simpl.
  - intros [= <-]. simpl. lia.
  - intros [= <-]. simpl. lia.
  - destruct (totalCount st <? n)%nat eqn:Hlt; [|intros [= <-]; exact I].
    apply Nat.ltb_lt in Hlt.
    destruct (dependencies (st_env st) !! index st) as [dep|].
    + unfold iddfs_mutate.
      destruct (versionMutators registry !! mutatorIndex st) as [m|]; [|discriminate].
      destruct (apply m dep) as [[r|]|]; simpl; try discriminate.
      * destruct (_ =? _)%nat; intros [= <-]; simpl; lia.
      * intros [= <-]. simpl. rewrite lateral_totalCount. lia.
    + unfold iddfs_no_dependency.
      destruct (0 <? currentDepth st)%nat.
      * destruct (pop _) as [[m muts']|]; [|discriminate].
        destruct (iddfs m) as [info|]; [|discriminate].
        destruct (mutator_lookup _ _) as [mut|]; [|discriminate].
        destruct (_ !! _) as [d|]; [|intros [= <-]; exact I].
        destruct (undo mut d m) as [d'|]; simpl; [|discriminate].
        intros [= <-]. simpl. rewrite lateral_totalCount. simpl. lia.
      * destruct (_ =? _)%nat; intros [= <-]; simpl; [exact I | lia].
  - intros [= <-]. simpl. unfold iddfs_resume. rewrite lateral_totalCount. simpl. lia.
Qed.

Lemma iddfs_run_remaining fuel : forall c,
  (length (fst (iddfs_run registry fuel n c)) <= remaining c)%nat.
Proof.
  induction fuel as [|fuel IH]; intros c; simpl; [lia|].
  destruct (iddfs_step registry n c) as [o|msg] eqn:Hstep; simpl; [|lia].
  pose proof (iddfs_step_remaining c o Hstep) as Ho.
  destruct o as [c'|y c'|st|st|]; simpl; try lia.
  - specialize (IH c'). lia.
  - specialize (IH c'). destruct (iddfs_run registry fuel n c') as [ys fin].
    simpl in *. lia.
Qed.

End IddfsYields.

(** X7: [IDDFS(environment, n)] yields the environment it was given and then
    at most [n] mutated environments, however it ends and whatever the
    registry answers. *)
Theorem iddfs_yields_within_budget registry fuel n environment :
  (length (fst (iddfs_run registry fuel n (CStart environment))) <= S n)%nat.
Proof. apply (iddfs_run_remaining registry n fuel (CStart environment)). Qed.

(** Two dependency objects that differ at most in the value of
    [version]. *)
Definition same_package (o o0 : object) : Prop :=
  map fst o = map fst o0 /\ forall k, k <> "version" -> get o k = get o0 k.

Section IddfsShape.

Variable registry : jsval -> jsval -> completion (list string).
Variable n : nat.
Variable environment0 : Environment.

Local Abbreviation applied0 := (applied registry environment0).
Local Abbreviation config_ok0 := (config_ok registry environment0).

Lemma applied_shape deps muts d :
  applied0 deps muts d ->
  Forall2 same_package deps (dependencies environment0)
  /\ exists added, muts = mutations environment0 ++ added /\ length added = d.
Proof.
  induction 1 as [|deps muts d i k dep mutator r Happ [IHd (added & IHm & IHl)] Hi Hk Hr].
  - split; [|exists []; split; [now rewrite app_nil_r | reflexivity]].
    apply Forall2_same_length_lookup_2; [reflexivity|].
    intros j x y Hx Hy. rewrite Hx in Hy. injection Hy as <-. split; auto.
  - split.
    + destruct (Forall2_lookup_l _ _ _ _ _ IHd Hi) as (y & Hy & Hsame & Hget).
      rewrite <- (list_insert_id _ _ _ Hy). apply Forall2_insert; [exact IHd|].
      destruct (mutator_apply_result registry mutator dep r
                  (mutators_In registry _ _ Hk) Hr) as (s & nv & Hv & Hm & _).
      rewrite Hm. split.
      * rewrite set_key_keys; [exact Hsame|]. eapply get_string_has_key, Hv.
      * intros key Hkey. rewrite get_set_key_other by congruence. now apply Hget.
    + exists (added ++ [mkMutation (mutation_type (mutation r)) (changes (mutation r))
                          (Some (mkIddfsInfo i k))]).
      unfold push. rewrite IHm, <- app_assoc. split; [reflexivity|].
      rewrite length_app. simpl. lia.
Qed.

(** The depth the generator is searching at. *)
Definition depth_of (c : iddfs_config) : nat :=
  match c with
  | CStart _ => 0
  | CFirstYield _ => 1
  | CLoop st | CYield st _ => depth st
  end.

(** What one transition yields: the initial environment at the start,
    and afterwards an environment [depth] mutations away from it. *)
Lemma iddfs_step_yield c o :
  config_ok0 c -> iddfs_step registry n c = Return o ->
  match o with
  | OStep c' => (depth_of c <= depth_of c')%nat
  | OYield e c' =>
      (depth_of c <= depth_of c')%nat
      /\ env_id e = env_id environment0
      /\ applied0 (dependencies e) (mutations e) (depth_of c)
      /\ match c with CStart _ => True | _ => (1 <= depth_of c)%nat end
  | OExhausted _ | OBudget _ | OStuck => True
  end.
Proof.
  intros Hok. destruct c as [e|e|st|st dep]; simpl.
  - intros [= <-]. simpl in *. subst e. split_and!; auto. constructor.
  - intros [= <-]. simpl. lia.
  - destruct (totalCount st <? n)%nat eqn:Hlt; [|intros [= <-]; exact I].
    destruct Hok as [Hid Happ].
    destruct (dependencies (st_env st) !! index st) as [dep|] eqn:Hdep.
    + unfold iddfs_mutate.
      destruct (versionMutators registry !! mutatorIndex st) as [m|] eqn:Hk;
        [|discriminate].
      destruct (apply m dep) as [[r|]|] eqn:Hr; simpl; try discriminate.
      * pose proof (applied_push _ _ _ _ _ _ _ _ _ _ Happ Hdep Hk Hr) as Hnext.
        destruct (currentDepth st + 1 =? depth st)%nat eqn:Hleaf;
          intros [= <-]; simpl; [|lia].
        apply Nat.eqb_eq in Hleaf. split_and!; try lia; [exact Hid|].
        rewrite <- Hleaf, Nat.add_1_r. exact Hnext.
      * intros [= <-]. simpl. rewrite lateral_depth. lia.
    + unfold iddfs_no_dependency.
      destruct (0 <? currentDepth st)%nat.
      * destruct (pop _) as [[m muts']|]; [|discriminate].
        destruct (iddfs m) as [info|]; [|discriminate].
        destruct (mutator_lookup _ _) as [mut|]; [|discriminate].
        destruct (dependencies (st_env st) !! iddfs_index info) as [d|];
          [|intros [= <-]; exact I].
        destruct (undo mut d m) as [d'|]; simpl; [|discriminate].
        intros [= <-]. simpl. rewrite lateral_depth. simpl. lia.
      * destruct (_ =? _)%nat; intros [= <-]; simpl; [exact I | lia].
  - intros [= <-]. simpl. unfold iddfs_resume. rewrite lateral_depth. simpl. lia.
Qed.

(** What a yielded environment looks like, [d] mutations away from the
    initial one. *)
Definition yielded_at (d : nat) (e : Environment) : Prop :=
  env_id e = env_id environment0
  /\ Forall2 same_package (dependencies e) (dependencies environment0)
  /\ exists added,
       mutations e = mutations environment0 ++ added /\ length added = d.

Definition not_start (c : iddfs_config) : Prop :=
  match c with CStart _ => False | _ => True end.

Lemma iddfs_step_not_start c o :
  iddfs_step registry n c = Return o ->
  match o with
  | OStep c' | OYield _ c' => not_start c'
  | OExhausted _ | OBudget _ | OStuck => True
  end.
Proof.
  destruct c as [e|e|st|st dep]; simpl; try (intros [= <-]; exact I).
  unfold iddfs_mutate, iddfs_no_dependency, bindC.
  intros H. repeat case_match; simplify_eq; exact I.
Qed.

(** Every environment yielded from [c] on is at least [depth_of c]
    mutations away from the initial one, and the yields come in order of
    depth. *)
Lemma iddfs_run_yields fuel : forall c,
  config_ok0 c -> not_start c ->
  let ys := fst (iddfs_run registry fuel n c) in
  Forall (fun e => exists d, (depth_of c <= d)%nat /\ (1 <= d)%nat /\ yielded_at d e) ys
  /\ StronglySorted
       (fun a b => (length (mutations a) <= length (mutations b))%nat) ys.
Proof.
  induction fuel as [|fuel IH]; intros c Hok Hns; simpl; [split; constructor|].
  destruct (iddfs_step registry n c) as [o|msg] eqn:Hstep; simpl;
    [|split; constructor].
  pose proof (iddfs_step_ok registry n environment0 c o Hok Hstep) as Ho.
  pose proof (iddfs_step_yield c o Hok Hstep) as Hy.
  pose proof (iddfs_step_not_start c o Hstep) as Hn.
  destruct o as [c'|y c'|st|st|]; simpl; try (split; constructor).
  - destruct (IH c' Ho Hn) as [IH1 IH2]. split; [|exact IH2].
    eapply Forall_impl; [exact IH1|]. simpl.
    intros e (d & Hd & H1 & He). exists d. split_and!; auto; lia.
  - destruct (IH c' Ho Hn) as [IH1 IH2].
    destruct (iddfs_run registry fuel n c') as [ys fin]. simpl in *.
    destruct Hy as (Hle & Hid & Happ & Hone).
    assert (H1 : (1 <= depth_of c)%nat) by (destruct c; [contradiction|exact Hone..]).
    destruct (applied_shape _ _ _ Happ) as [Hdeps (added & Hm & Hl)].
    split.
    + constructor.
      * exists (depth_of c). split_and!; auto. split_and!; auto. eauto.
      * eapply Forall_impl; [exact IH1|]. simpl.
        intros e (d & Hd & H1' & He). exists d. split_and!; auto; lia.
    + constructor; [exact IH2|].
      eapply Forall_impl; [exact IH1|]. simpl.
      intros e (d & Hd & _ & _ & _ & added' & Hm' & Hl').
      rewrite Hm, Hm', !length_app. lia.
Qed.

End IddfsShape.

(** X8: the first environment [IDDFS] yields is the one it was given.  Every
    later one has the same id and the same packages in the same places,
    each differing from the original at most in its [version], and a
    mutation stack that extends the original one by at least one entry. *)
Theorem iddfs_yields_same_packages registry fuel n environment :
  exists rest,
    fst (iddfs_run registry (S fuel) n (CStart environment)) = environment :: rest
    /\ Forall (fun e =>
                env_id e = env_id environment
                /\ Forall2 same_package (dependencies e) (dependencies environment)
                /\ exists added,
                     mutations e = mutations environment ++ added /\ added <> [])
         rest.
Proof.
  simpl.
  destruct (iddfs_run_yields registry n environment fuel (CFirstYield environment)
              eq_refl I) as [Hall _].
  destruct (iddfs_run registry fuel n (CFirstYield environment)) as [ys fin].
  exists ys. split; [reflexivity|]. simpl in Hall.
  eapply Forall_impl; [exact Hall|]. simpl.
  intros e (d & _ & Hd & Hid & Hdeps & added & Hm & Hl).
  split_and!; auto. exists added. split; [exact Hm|].
  intros ->. simpl in Hl. lia.
Qed.

(** X9: iterative deepening: the environments come out in order of the
    number of mutations they carry, the unmutated one first. *)
Theorem iddfs_yields_deepen registry fuel n environment :
  StronglySorted (fun a b => (length (mutations a) <= length (mutations b))%nat)
    (fst (iddfs_run registry fuel n (CStart environment))).
Proof.
  destruct fuel as [|fuel]; simpl; [constructor|].
  destruct (iddfs_run_yields registry n environment fuel (CFirstYield environment)
              eq_refl I) as [Hall Hsorted].
  destruct (iddfs_run registry fuel n (CFirstYield environment)) as [ys fin].
  simpl in *. constructor; [exact Hsorted|].
  eapply Forall_impl; [exact Hall|]. simpl.
  intros e (d & _ & _ & _ & _ & added & -> & _). rewrite length_app. lia.
Qed.

(** ** Iterative-deepening search: when no error is raised *)

Section IddfsSafe.

Variable registry : jsval -> jsval -> completion (list string).
Variable n : nat.
Variable environment0 : Environment.

(** A dependency the mutators can work on: it is pinned to a version
    string and the registry answers for it. *)
Definition mutable (o : object) : Prop :=
  (exists s, get o "version" = JString s)
  /\ exists versions, registry (get o "system") (get o "name") = Return versions.

Hypothesis dependencies_mutable : Forall mutable (dependencies environment0).

Lemma applied_mutable deps muts d :
  applied registry environment0 deps muts d -> Forall mutable deps.
Proof.
  induction 1 as [|deps muts d i k dep mutator r Happ IH Hi Hk Hr];
    [exact dependencies_mutable|].
  apply Forall_insert; [exact IH|].
  destruct (mutator_apply_result registry mutator dep r
              (mutators_In registry _ _ Hk) Hr) as (s & nv & Hv & Hm & _).
  pose proof (proj1 (Forall_lookup _ _) IH _ _ Hi) as [_ [versions Hreg]].
  rewrite Hm. split.
  - exists nv. apply get_set_key.
  - exists versions. now rewrite !get_set_key_other by discriminate.
Qed.

Lemma apply_returns m d :
  In m (versionMutators registry) -> mutable d -> exists r, apply m d = Return r.
Proof.
  intros Hin [[s Hv] [versions Hreg]].
  assert (Hrange : forall name range,
            exists r, apply_with_range registry name d range = Return r).
  { intros name range. unfold apply_with_range, getSemverLookupTable.
    rewrite Hreg. simpl.
    destruct (match Semver.maxSatisfying _ range with
              | Some k => table_get _ k
              | None => None
              end) as [nv|]; [|eauto].
    destruct (String.eqb nv ""); eauto. }
  simpl in Hin. destruct Hin as [<- | [<- | []]]; simpl;
    unfold decrementSemverMajor_apply, decrementSemverMinor_apply;
    rewrite Hv; simpl;
    destruct (VersionUtils.coerceSemver_string s) as [v|]; eauto;
    destruct (0 <? _); eauto.
Qed.

(** Backtracking finds what the forward step recorded, so it raises
    nothing. *)
Lemma no_dependency_returns st :
  state_ok registry environment0 st ->
  exists o, iddfs_no_dependency registry st = Return o.
Proof.
  intros [Hid Happ]. unfold iddfs_no_dependency.
  destruct (0 <? currentDepth st)%nat eqn:Hd.
  - destruct (currentDepth st) as [|d] eqn:Hcd; [discriminate|].
    inversion Happ as [|deps muts d' i k dep mutator r Hprev Hlook Hk Hr Hdeps Hmuts Hd'].
    subst d'. rewrite pop_push. simpl.
    destruct (mutator_apply_result registry mutator dep r
                (mutators_In registry _ _ Hk) Hr) as (s & nv & _ & _ & Hmu).
    rewrite Hmu. simpl.
    destruct (mutator_lookup_undo registry mutator (mutators_In registry _ _ Hk))
      as (m' & -> & Hundo).
    rewrite list_lookup_insert_eq by (eapply lookup_lt_Some, Hlook).
    rewrite Hundo.
    pose proof (semver_undo_restores registry mutator dep r
                  (Some (mkIddfsInfo i k)) (mutators_In registry _ _ Hk) Hr) as Hu.
    rewrite Hmu in Hu. simpl in Hu. rewrite Hu. simpl. eauto.
  - destruct (depthCount st =? 0)%nat; eauto.
Qed.

Definition index_ok (c : iddfs_config) : Prop :=
  match c with
  | CLoop st => (mutatorIndex st < 2)%nat
  | _ => True
  end.

Lemma iddfs_step_index c o :
  index_ok c -> iddfs_step registry n c = Return o ->
  match o with
  | OStep c' | OYield _ c' => index_ok c'
  | OExhausted _ | OBudget _ | OStuck => True
  end.
Proof.
  intros Hidx. destruct c as [e|e|st|st dep]; simpl in *.
  - intros [= <-]. exact I.
  - intros [= <-]. simpl. lia.
  - destruct (totalCount st <? n)%nat; [|intros [= <-]; exact I].
    destruct (dependencies (st_env st) !! index st) as [dep|].
    + unfold iddfs_mutate.
      destruct (versionMutators registry !! mutatorIndex st) as [m|]; [|discriminate].
      destruct (apply m dep) as [[r|]|]; simpl; try discriminate.
      * destruct (_ =? _)%nat; intros [= <-]; simpl; auto.
      * intros [= <-]. simpl. apply lateral_mutatorIndex.
    + unfold iddfs_no_dependency.
      destruct (0 <? currentDepth st)%nat.
      * destruct (pop _) as [[m muts']|]; [|discriminate].
        destruct (iddfs m) as [info|]; [|discriminate].
        destruct (mutator_lookup _ _) as [mut|]; [|discriminate].
        destruct (dependencies (st_env st) !! iddfs_index info) as [d|];
          [|intros [= <-]; exact I].
        destruct (undo mut d m) as [d'|]; simpl; [|discriminate].
        intros [= <-]. simpl. apply lateral_mutatorIndex.
      * destruct (_ =? _)%nat; intros [= <-]; simpl; [exact I | lia].
  - intros [= <-]. simpl. unfold iddfs_resume. apply lateral_mutatorIndex.
Qed.

(** The invariant of the loop that keeps it from raising. *)
Definition config_safe (c : iddfs_config) : Prop :=
  config_ok registry environment0 c /\ index_ok c.

Lemma iddfs_step_returns c :
  config_safe c -> exists o, iddfs_step registry n c = Return o.
Proof.
  intros [Hok Hidx]. destruct c as [e|e|st|st dep]; simpl in *; eauto.
  destruct (totalCount st <? n)%nat; eauto.
  destruct (dependencies (st_env st) !! index st) as [dep|] eqn:Hdep.
  - unfold iddfs_mutate.
    destruct (versionMutators registry !! mutatorIndex st) as [m|] eqn:Hk.
    2:{ apply lookup_ge_None in Hk. simpl in Hk. lia. }
    destruct Hok as [Hid Happ].
    destruct (apply_returns m dep (mutators_In registry _ _ Hk)
                (proj1 (Forall_lookup _ _) (applied_mutable _ _ _ Happ) _ _ Hdep))
      as [r ->].
    simpl. destruct r as [r|]; eauto.
    destruct (currentDepth st + 1 =? depth st)%nat; eauto.
  - now apply no_dependency_returns.
Qed.

Lemma iddfs_step_safe c :
  config_safe c ->
  exists o, iddfs_step registry n c = Return o
            /\ match o with
               | OStep c' | OYield _ c' => config_safe c'
               | OExhausted _ | OBudget _ | OStuck => True
               end.
Proof.
  intros Hc. destruct (iddfs_step_returns c Hc) as [o Hstep].
  destruct Hc as [Hok Hidx]. exists o. split; [exact Hstep|].
  pose proof (iddfs_step_ok registry n environment0 c o Hok Hstep) as Ho.
  pose proof (iddfs_step_index c o Hidx Hstep) as Hi.
  destruct o; auto; split; auto.
Qed.

Lemma iddfs_run_safe fuel : forall c,
  config_safe c ->
  match snd (iddfs_run registry fuel n c) with
  | Exhausted e => e = environment0
  | BudgetReached _ | OutOfFuel => True
  | Thrown _ | Stuck => False
  end.
Proof.
  induction fuel as [|fuel IH]; intros c Hc; simpl; [exact I|].
  destruct (iddfs_step_safe c Hc) as (o & Hstep & Ho).
  pose proof (iddfs_step_ok registry n environment0 c o (proj1 Hc) Hstep) as Hok.
  rewrite Hstep. destruct o as [c'|y c'|st|st|]; simpl; auto.
  - apply IH, Ho.
  - specialize (IH c' Ho). destruct (iddfs_run registry fuel n c') as [ys fin].
    simpl in *. exact IH.
Qed.

End IddfsSafe.

(** X10: [IDDFS] raises no error when every dependency of the environment is
    pinned to a version string and the registry answers for each of
    them: the generator then only ever stops because the budget is used
    up or because a depth pass yielded nothing, in which case the
    environment is as it was given. *)
Theorem iddfs_never_throws registry fuel n environment :
  Forall (mutable registry) (dependencies environment) ->
  match snd (iddfs_run registry fuel n (CStart environment)) with
  | Exhausted e => e = environment
  | BudgetReached _ | OutOfFuel => True
  | Thrown _ | Stuck => False
  end.
Proof.
  intros Hdeps.
  apply (iddfs_run_safe registry n environment Hdeps fuel (CStart environment)).
  split; [reflexivity | exact I].
Qed.

Lemma iddfs_never_throws_witness :
  match snd (iddfs_run Samples.registry 20 10 (CStart sample_environment)) with
  | Exhausted e => e = sample_environment
  | BudgetReached _ | OutOfFuel => True
  | Thrown _ | Stuck => False
  end.
Proof.
  apply (iddfs_never_throws Samples.registry 20 10 sample_environment).
  repeat constructor; eexists; reflexivity.
Defined.

(** ** Python heuristics: reading the imported module off a line *)

Section ExtractImportModule.

Import PythonStrategy.

Definition is_letter (c : ascii) : bool :=
  code_between 97 122 c || code_between 65 90 c.

Definition is_digit (c : ascii) : bool := code_between 48 57 c.

Definition is_underscore (c : ascii) : bool := Ascii.eqb c "_".

Definition is_dot (c : ascii) : bool := Ascii.eqb c ".".

(** A dotted Python module path that starts with a letter:
    [numpy], [os.path], [sklearn.cross_validation]. *)
Definition dotted_name (m : string) : bool :=
  match m with
  | String c r =>
      is_letter c
      && all_chars (fun x => is_letter x || is_digit x || is_underscore x || is_dot x) r
  | EmptyString => false
  end.

(** What may follow the module on the line: nothing, or a space and
    anything that stays on the line. *)
Definition rest_of_line (tail : string) : bool :=
  match tail with
  | EmptyString => true
  | String c t => is_space c && all_chars not_terminator t
  end.

Lemma is_letter_start c : is_letter c = true -> resource_start c = true.
Proof.
  unfold is_letter, resource_start, code_between.
  destruct c as [[] [] [] [] [] [] [] []]; vm_compute; congruence.
Qed.

Lemma name_char_resource c :
  is_letter c || is_digit c || is_underscore c || is_dot c = true ->
  resource_char c = true.
Proof. destruct c as [[] [] [] [] [] [] [] []]; vm_compute; congruence. Qed.

Lemma is_letter_not_space c : is_letter c = true -> is_space c = false.
Proof. destruct c as [[] [] [] [] [] [] [] []]; vm_compute; congruence. Qed.

Lemma is_space_not_resource c : is_space c = true -> resource_char c = false.
Proof. destruct c as [[] [] [] [] [] [] [] []]; vm_compute; congruence. Qed.

Lemma span_run p r tail :
  all_chars p r = true ->
  match tail with
  | EmptyString => True
  | String c _ => p c = false
  end ->
  span p (r ++ tail) = (r, tail).
Proof.
  intros Hr Ht. induction r as [|c r IH]; simpl in *.
  - destruct tail as [|c t]; [reflexivity|]. simpl. now rewrite Ht.
  - apply andb_true_iff in Hr as [Hc Hr]. now rewrite Hc, IH.
Qed.

Lemma all_chars_impl (p q : ascii -> bool) s :
  (forall c, p c = true -> q c = true) -> all_chars p s = true -> all_chars q s = true.
Proof.
  intros Hpq. induction s as [|c s IH]; simpl; [reflexivity|].
  intros H. apply andb_true_iff in H as [Hc Hs]. now rewrite Hpq, IH.
Qed.

Lemma match_statement_after_keyword m tail :
  dotted_name m = true -> rest_of_line tail = true ->
  match match_resource (snd (span is_space (m ++ tail))) with
  | Some (r, EmptyString) => Some r
  | Some (r, String c' t) =>
      if is_space c' && all_chars not_terminator t then Some r else None
  | None => None
  end = Some m.
Proof.
  intros Hm Ht. destruct m as [|c r]; [discriminate|]. simpl in Hm.
  apply andb_true_iff in Hm as [Hc Hr]. simpl.
  rewrite (is_letter_not_space c Hc). simpl.
  rewrite (is_letter_start c Hc).
  rewrite (span_run resource_char r tail).
  - destruct tail as [|c' t]; [reflexivity|]. simpl in Ht. now rewrite Ht.
  - eapply all_chars_impl; [|exact Hr]. apply name_char_resource.
  - destruct tail as [|c' t]; [exact I|]. simpl in Ht.
    apply andb_true_iff in Ht as [Hsp _]. now apply is_space_not_resource.
Qed.

End ExtractImportModule.

(** X11: [extractImportModule] reads the module off an import statement: for
    a dotted module path [m] that starts with a letter, the lines
    [import m], [import m as ...], [from m import ...] (the keyword, a
    space, [m], and then nothing or a space and the rest of the line)
    all give [m]. *)
Theorem extractImportModule_statement keyword m tail :
  keyword = "import" \/ keyword = "from" ->
  dotted_name m = true ->
  rest_of_line tail = true ->
  PythonStrategy.extractImportModule (Some (keyword ++ " " ++ m ++ tail)%string)
  = Some m.
Proof.
  intros Hk Hm Ht.
  pose proof (match_statement_after_keyword m tail Hm Ht) as H.
  unfold PythonStrategy.extractImportModule, PythonStrategy.match_import_statement.
  destruct Hk as [-> | ->]; simpl;
    change (String.append "" (String.append m tail)) with (String.append m tail);
    now rewrite H.
Qed.

Lemma extractImportModule_statement_witness :
  PythonStrategy.extractImportModule
    (Some ("from" ++ " " ++ "sklearn.cross_validation"
             ++ " import train_test_split")%string)
  = Some "sklearn.cross_validation".
Proof.
  apply (extractImportModule_statement "from" "sklearn.cross_validation"
           " import train_test_split").
  - right. reflexivity.
  - vm_compute. reflexivity.
  - vm_compute. reflexivity.
Defined.

(** ** Python heuristics: which dependency an exception is blamed on *)

Lemma jsval_eqb_true a b : jsval_eqb a b = true -> a = b.
Proof.
  destruct a, b; simpl; try discriminate; auto.
  intros H. apply String.eqb_eq in H. now subst.
Qed.

Lemma findIndex_spec {A} (p : A -> bool) (l : list A) :
  let i := PythonStrategy.findIndex p l in
  (i = -1 /\ Forall (fun x => p x = false) l)
  \/ (0 <= i
      /\ exists x, l !! Z.to_nat i = Some x /\ p x = true
                   /\ forall j y, (j < Z.to_nat i)%nat -> l !! j = Some y -> p y = false).
Proof.
  induction l as [|x l IH]; simpl.
  - left. split; [reflexivity | constructor].
  - destruct (p x) eqn:Hx.
    + right. split; [lia|]. exists x. split_and!; auto. intros j y Hj. simpl in Hj. lia.
    + destruct IH as [[Hi Hall] | (Hi & y & Hy & Hpy & Hfirst)].
      * left. rewrite Hi. simpl. split; [reflexivity | now constructor].
      * right. destruct (Z.ltb_spec (PythonStrategy.findIndex p l) 0); [lia|].
        split; [lia|]. exists y.
        replace (Z.to_nat (PythonStrategy.findIndex p l + 1))
          with (S (Z.to_nat (PythonStrategy.findIndex p l))) by lia.
        split_and!; auto.
        intros [|j] z Hj Hz; simpl in Hz.
        -- injection Hz as <-. exact Hx.
        -- eapply Hfirst; [|exact Hz]. lia.
Qed.

Lemma existsb_filter_nil {A} (p : A -> bool) (l : list A) :
  existsb p l = false <-> List.filter p l = [].
Proof.
  induction l as [|x l IH]; simpl; [tauto|].
  destruct (p x); simpl; [split; discriminate | exact IH].
Qed.

Lemma filter_split {A} (p : A -> bool) (l : list A) : forall a x b,
  List.filter p l = a ++ x :: b ->
  exists l1 l2, l = l1 ++ x :: l2 /\ p x = true
                /\ List.filter p l1 = a /\ List.filter p l2 = b.
Proof.
  induction l as [|y l IH]; simpl; intros a x b H.
  - destruct a; discriminate.
  - destruct (p y) eqn:Hy.
    + destruct a as [|a0 a]; simpl in H; injection H as -> H.
      * exists [], l. simpl. auto.
      * destruct (IH _ _ _ H) as (l1 & l2 & -> & Hx & H1 & H2).
        exists (a0 :: l1), l2. simpl. rewrite Hy, H1. auto.
    + destruct (IH _ _ _ H) as (l1 & l2 & -> & Hx & H1 & H2).
      exists (y :: l1), l2. simpl. rewrite Hy. auto.
Qed.

Section Blame.

Import PythonStrategy.

Variable environment : PyEnvironment.

Local Abbreviation deps := (py_dependencies environment).
Local Abbreviation system := (metadata_system environment).
Local Abbreviation prefix := (site_packages_prefix (language_version environment)).

(** No dependency of the environment owns the frame. *)
Definition unmanaged (frame : Frame) : Prop :=
  Forall (fun d => owns_frame system (frame_path prefix frame) d = false) deps.

(** Dependency number [i] is the first one that owns the frame. *)
Definition first_owner (frame : Frame) (i : Z) : Prop :=
  0 <= i
  /\ exists d, deps !! Z.to_nat i = Some d
               /\ get d "system" = system
               /\ owns_frame system (frame_path prefix frame) d = true
               /\ forall j y, (j < Z.to_nat i)%nat -> deps !! j = Some y ->
                              owns_frame system (frame_path prefix frame) y = false.

Lemma first_managed_spec frames :
  match first_managed deps system prefix frames with
  | Some i =>
      exists before frame after,
        frames = before ++ frame :: after
        /\ Forall unmanaged before /\ first_owner frame i
  | None => Forall unmanaged frames
  end.
Proof.
  induction frames as [|frame frames IH]; simpl; [constructor|].
  destruct (findIndex_spec (owns_frame system (frame_path prefix frame)) deps)
    as [[Hi Hall] | (Hi & d & Hd & Hown & Hfirst)].
  - rewrite Hi. simpl.
    destruct (first_managed deps system prefix frames) as [i|].
    + destruct IH as (before & f & after & -> & Hb & Hf).
      exists (frame :: before), f, after. split_and!; auto.
    + constructor; auto.
  - destruct (Z.leb_spec 0 (findIndex (owns_frame system (frame_path prefix frame)) deps));
      [|lia].
    exists (@nil Frame), frame, frames. split_and!; auto.
    split; [exact Hi|]. exists d. split_and!; auto.
    unfold owns_frame in Hown. apply andb_true_iff in Hown as [Hsys _].
    now apply jsval_eqb_true.
Qed.

End Blame.

(** X12: when the trace has frames under the site-packages prefix,
    [dependencyProducingException] blames the first dependency that owns
    the deepest owned frame: the frame it picks lies under the prefix,
    dependency [i] belongs to the environment's system and is the first
    whose dotted name spells the leading directories of the frame's path,
    and no dependency owns a site-packages frame further down the trace.
    It returns [null] only when no dependency owns any such frame, and it
    never throws. *)
Theorem dependencyProducingException_deepest environment validation e :
  PythonStrategy.execution validation = Some e ->
  let prefix :=
    PythonStrategy.site_packages_prefix (PythonStrategy.language_version environment) in
  let stack := PythonStrategy.stack_of e in
  existsb (PythonStrategy.in_site_packages prefix) stack = true ->
  match PythonStrategy.dependencyProducingException environment validation with
  | Return (Some i) =>
      exists before frame after,
        stack = before ++ frame :: after
        /\ PythonStrategy.in_site_packages prefix frame = true
        /\ first_owner environment frame i
        /\ Forall (fun f => PythonStrategy.in_site_packages prefix f = true ->
                            unmanaged environment f) after
  | Return None =>
      Forall (fun f => PythonStrategy.in_site_packages prefix f = true ->
                       unmanaged environment f) stack
  | Throw _ => False
  end.
Proof.
  intros He prefix stack Hsome.
  unfold PythonStrategy.dependencyProducingException. rewrite He.
  fold prefix. fold stack.
  destruct (List.filter (PythonStrategy.in_site_packages prefix) stack)
    as [|f0 fs] eqn:Hfilter.
  { apply existsb_filter_nil in Hfilter. congruence. }
  pose proof (first_managed_spec environment (rev (f0 :: fs))) as Hspec.
  fold prefix in Hspec.
  destruct (PythonStrategy.first_managed _ _ prefix (rev (f0 :: fs))) as [i|].
  - destruct Hspec as (before & frame & after & Hrev & Hbefore & Hown).
    assert (Hsplit : f0 :: fs = rev after ++ frame :: rev before).
    { rewrite <- (rev_involutive (f0 :: fs)), Hrev, rev_app_distr. simpl.
      now rewrite <- app_assoc. }
    rewrite <- Hfilter in Hsplit.
    destruct (filter_split _ _ _ _ _ Hsplit) as (l1 & l2 & Hstack & Hin & _ & H2).
    exists l1, frame, l2. split_and!; auto.
    apply Forall_forall. intros f Hf Hsite.
    assert (Hfb : In f before).
    { apply in_rev. rewrite <- H2. apply filter_In. split; [|exact Hsite].
      now apply list_elem_of_In. }
    exact (proj1 (List.Forall_forall _ _) Hbefore f Hfb).
  - apply Forall_forall. intros f Hf Hsite.
    assert (Hfr : In f (rev (f0 :: fs))).
    { apply -> in_rev. rewrite <- Hfilter. apply filter_In. split; [|exact Hsite].
      now apply list_elem_of_In. }
    exact (proj1 (List.Forall_forall _ _) Hspec f Hfr).
Qed.

(** An environment for Python 3.7 with two pip dependencies, and a
    validation whose trace runs from the snippet through scikit-learn's
    package directory and numpy's into a package that is not managed. *)
Definition sample_py_environment : PythonStrategy.PyEnvironment :=
  PythonStrategy.mkPyEnvironment "3.7" (JString "pip")
    [PythonStrategy.mkMapping "numpy" "numpy";
     PythonStrategy.mkMapping "yaml" "PyYAML"]
    [Samples.dependency "numpy" "1.16.0"; Samples.dependency "sklearn" "0.20.3"].

Definition sample_trace : list PythonStrategy.Frame :=
  [Samples.frame Samples.own_file 4;
   Samples.frame "/usr/local/lib/python3.7/site-packages/sklearn/utils/fixes.py" 30;
   Samples.frame "/usr/local/lib/python3.7/site-packages/numpy/core/numeric.py" 12;
   Samples.frame "/usr/local/lib/python3.7/site-packages/six.py" 7].

Definition sample_execution (name : string) (line : option string)
    (stack : list PythonStrategy.Frame) : PythonStrategy.Execution :=
  PythonStrategy.mkExecution name "" line (Some stack).

Definition sample_validation (name : string) (line : option string)
    (stack : list PythonStrategy.Frame) : PythonStrategy.EnvironmentValidation :=
  PythonStrategy.mkValidation "Failed" (Some (sample_execution name line stack)).

Lemma dependencyProducingException_deepest_witness :
  let prefix := PythonStrategy.site_packages_prefix "3.7" in
  match PythonStrategy.dependencyProducingException sample_py_environment
          (sample_validation "AttributeError" None sample_trace) with
  | Return (Some i) =>
      exists before frame after,
        sample_trace = before ++ frame :: after
        /\ PythonStrategy.in_site_packages prefix frame = true
        /\ first_owner sample_py_environment frame i
        /\ Forall (fun f => PythonStrategy.in_site_packages prefix f = true ->
                            unmanaged sample_py_environment f) after
  | Return None =>
      Forall (fun f => PythonStrategy.in_site_packages prefix f = true ->
                       unmanaged sample_py_environment f) sample_trace
  | Throw _ => False
  end.
Proof.
  apply (dependencyProducingException_deepest sample_py_environment
           (sample_validation "AttributeError" None sample_trace)
           (sample_execution "AttributeError" None sample_trace)).
  - reflexivity.
  - vm_compute. reflexivity.
Defined.

(** X13: the index [dependencyProducingException] returns is that of a
    dependency of the environment's system, with one exception: on an
    import error outside site-packages whose module is mapped to exactly
    one package that is not among the dependencies, it returns -1 rather
    than [null]. *)
Theorem dependencyProducingException_index environment validation i :
  PythonStrategy.dependencyProducingException environment validation
  = Return (Some i) ->
  (0 <= i
   /\ exists d, PythonStrategy.py_dependencies environment !! Z.to_nat i = Some d
                /\ get d "system" = PythonStrategy.metadata_system environment)
  \/ (i = -1
      /\ exists e mapping,
           PythonStrategy.execution validation = Some e
           /\ PythonStrategy.includes PythonStrategy.IMPORT_ERRORS
                (PythonStrategy.exception_name e) = true
           /\ In mapping (PythonStrategy.resourcePackageMapping environment)
           /\ Forall (fun d =>
                        PythonStrategy.matches_package
                          (PythonStrategy.mapping_package mapping)
                          (PythonStrategy.metadata_system environment) d = false)
                (PythonStrategy.py_dependencies environment)).
Proof.
  unfold PythonStrategy.dependencyProducingException.
  destruct (PythonStrategy.execution validation) as [e|] eqn:He; [|discriminate].
  destruct (List.filter _ (PythonStrategy.stack_of e)) as [|f0 fs] eqn:Hfilter.
  - destruct (PythonStrategy.includes _ _) eqn:Himp; [|discriminate].
    destruct (List.filter _ (PythonStrategy.resourcePackageMapping environment))
      as [|mapping [|]] eqn:Hmap; try discriminate.
    intros [= <-].
    destruct (findIndex_spec
                (PythonStrategy.matches_package
                   (PythonStrategy.mapping_package mapping)
                   (PythonStrategy.metadata_system environment))
                (PythonStrategy.py_dependencies environment))
      as [[Hi Hall] | (Hi & d & Hd & Hmatch & _)].
    + right. split; [exact Hi|]. exists e, mapping. split_and!; auto.
      assert (Hin : In mapping
                      (List.filter
                         (PythonStrategy.maps_resource
                            (PythonStrategy.extractImportModule
                               (PythonStrategy.exception_line e)))
                         (PythonStrategy.resourcePackageMapping environment))).
      { rewrite Hmap. now left. }
      now apply filter_In in Hin.
    + left. split; [exact Hi|]. exists d. split; [exact Hd|].
      unfold PythonStrategy.matches_package in Hmatch.
      apply andb_true_iff in Hmatch as [_ Hsys].
      apply andb_true_iff in Hsys as [Hsys _]. now apply jsval_eqb_true.
  - intros [= Hres].
    pose proof (first_managed_spec environment (rev (f0 :: fs))) as Hspec.
    change (rev (f0 :: fs)) with (rev fs ++ [f0]) in Hspec.
    rewrite Hres in Hspec.
    destruct Hspec as (_ & frame & _ & _ & _ & Hi & d & Hd & Hsys & _).
    left. split; [exact Hi|]. exists d. auto.
Qed.

Lemma dependencyProducingException_index_witness :
  PythonStrategy.dependencyProducingException sample_py_environment
    (sample_validation "ImportError" (Some "import yaml")
       [Samples.frame Samples.own_file 2])
  = Return (Some (-1))
  /\ ((0 <= -1
       /\ exists d, PythonStrategy.py_dependencies sample_py_environment
                      !! Z.to_nat (-1) = Some d
                    /\ get d "system"
                       = PythonStrategy.metadata_system sample_py_environment)
      \/ (-1 = -1
          /\ exists e mapping,
               PythonStrategy.execution
                 (sample_validation "ImportError" (Some "import yaml")
                    [Samples.frame Samples.own_file 2]) = Some e
               /\ PythonStrategy.includes PythonStrategy.IMPORT_ERRORS
                    (PythonStrategy.exception_name e) = true
               /\ In mapping (PythonStrategy.resourcePackageMapping sample_py_environment)
               /\ Forall (fun d =>
                            PythonStrategy.matches_package
                              (PythonStrategy.mapping_package mapping)
                              (PythonStrategy.metadata_system sample_py_environment) d
                            = false)
                    (PythonStrategy.py_dependencies sample_py_environment))).
Proof.
  split; [vm_compute; reflexivity|].
  apply (dependencyProducingException_index sample_py_environment
           (sample_validation "ImportError" (Some "import yaml")
              [Samples.frame Samples.own_file 2]) (-1)).
  vm_compute. reflexivity.
Defined.

(** X14: whenever [dependencyProducingException] names a dependency,
    [isRepairableVersionError] calls the exception repairable, unless it
    is a [FileNotFoundError], which is never repairable. *)
Theorem blamed_exception_repairable environment validation i :
  PythonStrategy.dependencyProducingException environment validation
  = Return (Some i) ->
  exists e,
    PythonStrategy.execution validation = Some e
    /\ PythonStrategy.isRepairableVersionError environment validation
       = Return (negb (String.eqb (PythonStrategy.exception_name e) "FileNotFoundError")).
Proof.
  unfold PythonStrategy.dependencyProducingException,
    PythonStrategy.isRepairableVersionError.
  destruct (PythonStrategy.execution validation) as [e|] eqn:He; [|discriminate].
  intros H. exists e. split; [reflexivity|].
  unfold PythonStrategy.includes at 1. simpl existsb. rewrite orb_false_r.
  destruct (String.eqb (PythonStrategy.exception_name e) "FileNotFoundError");
    [reflexivity|]. simpl negb.
  destruct (List.filter _ (PythonStrategy.stack_of e)) as [|f0 fs] eqn:Hfilter.
  - apply existsb_filter_nil in Hfilter. rewrite Hfilter.
    destruct (PythonStrategy.includes PythonStrategy.IMPORT_ERRORS _); [|discriminate].
    destruct (List.filter _ (PythonStrategy.resourcePackageMapping environment))
      as [|mapping [|]] eqn:Hmap; try discriminate.
    destruct (existsb _ (PythonStrategy.resourcePackageMapping environment)) eqn:Hex;
      [reflexivity|].
    apply existsb_filter_nil in Hex. rewrite Hex in Hmap. discriminate.
  - destruct (existsb _ (PythonStrategy.stack_of e)) eqn:Hex; [reflexivity|].
    apply existsb_filter_nil in Hex. rewrite Hex in Hfilter. discriminate.
Qed.

Lemma blamed_exception_repairable_witness :
  exists e,
    PythonStrategy.execution (sample_validation "AttributeError" None sample_trace)
    = Some e
    /\ PythonStrategy.isRepairableVersionError sample_py_environment
         (sample_validation "AttributeError" None sample_trace)
       = Return (negb (String.eqb (PythonStrategy.exception_name e) "FileNotFoundError")).
Proof.
  apply (blamed_exception_repairable sample_py_environment
           (sample_validation "AttributeError" None sample_trace) 0).
  vm_compute. reflexivity.
Defined.

(** ** Spreading wrapper: every search is resumed with its own validations *)

Section SpreadRouting.

Variables G E V M : Type.
Variable gen_next : G -> option V -> gen_result G E M.
Variable search : E -> nat -> G.
Variable responses : nat -> option V.

(** The part of the yield stream that concerns root [i]: what its search
    yielded, each time with the validation the consumer answered;
    [j] is the number of the first yield of [ys]. *)
Fixpoint exchanges (i : nat) (ys : list (nat * E)) (j : nat)
  : list (E * option V) :=
  match ys with
  | [] => []
  | (root, value) :: ys' =>
      if Nat.eqb root i then (value, responses j) :: exchanges i ys' (S j)
      else exchanges i ys' (S j)
  end.

(** [replays g input h]: resumed with [input], the coroutine [g] yields
    the values of [h] one after the other when each is answered with the
    validation paired with it. *)
Inductive replays : G -> option V -> list (E * option V) -> Prop :=
  | replays_nil g input : replays g input []
  | replays_cons g input value g' validation h :
      gen_next g input = GYield value g' ->
      replays g' validation h ->
      replays g input ((value, validation) :: h).

(** The queue as the loop finds it when the wrapper is resumed. *)
Definition queue_of (st : spread_state G V M) (input : option V)
  : list (entry G V) :=
  match current st with
  | Some (i, g) => generators st ++ [(i, g, input)]
  | None => generators st
  end.

Lemma spread_loop_split q : forall md i v st',
  spread_loop gen_next q md = SYield i v st' ->
  exists dropped g lv rest g',
    q = dropped ++ (i, g, lv) :: rest
    /\ gen_next g lv = GYield v g'
    /\ generators st' = rest
    /\ current st' = Some (i, g').
Proof.
  induction q as [|[[i0 g0] lv0] q IH]; simpl; intros md i v st' H; [discriminate|].
  destruct (gen_next g0 lv0) as [value g'|[value|]|msg] eqn:Hg; try discriminate.
  - injection H as <- <- <-. exists [], g0, lv0, q, g'. simpl. auto.
  - apply IH in H as (dropped & g & lv & rest & g' & -> & Hy & Hr & Hc).
    exists ((i0, g0, lv0) :: dropped), g, lv, rest, g'. auto.
  - apply IH in H as (dropped & g & lv & rest & g' & -> & Hy & Hr & Hc).
    exists ((i0, g0, lv0) :: dropped), g, lv, rest, g'. auto.
Qed.

Lemma spread_run_routes k : forall st input j,
  NoDup (ids G V (queue_of st input)) ->
  let ys := fst (spread_run gen_next k st input responses j) in
  (forall i g lv, In (i, g, lv) (queue_of st input) -> replays g lv (exchanges i ys j))
  /\ (forall i, ~ In i (ids G V (queue_of st input)) -> exchanges i ys j = []).
Proof.
  induction k as [|k IH]; intros st input j Hnd; simpl.
  { split; intros; [constructor | reflexivity]. }
  unfold spread_next. fold (queue_of st input).
  destruct (spread_loop gen_next (queue_of st input) (metadata st))
    as [i0 v st'| |] eqn:Hloop; simpl;
    try (split; intros; [constructor | reflexivity]).
  destruct (spread_loop_split _ _ _ _ _ Hloop)
    as (dropped & g0 & lv0 & rest & g0' & Hq & Hy & Hr & Hc).
  assert (Hq' : queue_of st' (responses j) = rest ++ [(i0, g0', responses j)]).
  { unfold queue_of. now rewrite Hc, Hr. }
  rewrite Hq in Hnd. unfold ids in Hnd. rewrite map_app in Hnd. simpl in Hnd.
  apply NoDup_app in Hnd as (Hnd_dropped & Hdisj & Hnd_rest).
  apply NoDup_cons in Hnd_rest as [Hi0 Hnd_rest].
  assert (Hnd' : NoDup (ids G V (queue_of st' (responses j)))).
  { rewrite Hq'. unfold ids. rewrite map_app. simpl.
    apply NoDup_app. split_and!; [exact Hnd_rest | | apply NoDup_singleton].
    intros x Hx Hx'. apply list_elem_of_singleton in Hx'. now subst. }
  specialize (IH st' (responses j) (S j) Hnd').
  destruct (spread_run gen_next k st' (responses j) responses (S j)) as [ys' fin].
  simpl in *. destruct IH as [IHin IHout].
  assert (Hrest_ne : forall x gx lvx, In (x, gx, lvx) rest -> x <> i0).
  { intros x gx lvx Hin ->. apply Hi0. apply list_elem_of_In.
    apply (in_map (fun e => fst (fst e))) in Hin. exact Hin. }
  assert (Hdropped : forall x gx lvx, In (x, gx, lvx) dropped ->
            x <> i0 /\ ~ In x (ids G V (queue_of st' (responses j)))).
  { intros x gx lvx Hin.
    assert (Hx : x ∈ map (fun e : entry G V => fst (fst e)) dropped).
    { apply list_elem_of_In. apply (in_map (fun e => fst (fst e))) in Hin. exact Hin. }
    specialize (Hdisj x Hx). split.
    - intros ->. apply Hdisj. now left.
    - rewrite Hq'. unfold ids. rewrite map_app. simpl. intros Hin'.
      apply in_app_or in Hin' as [Hin' | [<- | []]].
      + apply Hdisj. right. now apply list_elem_of_In.
      + apply Hdisj. now left. }
  split.
  - intros i g lv Hin. rewrite Hq in Hin.
    apply in_app_or in Hin as [Hin | [Hin | Hin]].
    + destruct (Hdropped _ _ _ Hin) as [Hne Hout].
      apply Nat.eqb_neq in Hne. rewrite Nat.eqb_sym, Hne.
      rewrite (IHout i Hout). constructor.
    + injection Hin as <- <- <-. rewrite Nat.eqb_refl.
      econstructor; [exact Hy|]. apply IHin. rewrite Hq'.
      apply in_or_app. right. now left.
    + pose proof (Hrest_ne _ _ _ Hin) as Hne.
      apply Nat.eqb_neq in Hne. rewrite Nat.eqb_sym, Hne.
      apply IHin. rewrite Hq'. apply in_or_app. now left.
  - intros i Hout.
    assert (Hne : i <> i0).
    { intros ->. apply Hout. rewrite Hq. unfold ids. rewrite map_app. simpl.
      apply in_or_app. right. now left. }
    apply Nat.eqb_neq in Hne. rewrite Nat.eqb_sym, Hne.
    apply IHout. rewrite Hq'. unfold ids. rewrite map_app. simpl. intros Hin.
    apply in_app_or in Hin as [Hin | [Hin | []]].
    + apply Hout. rewrite Hq. unfold ids. rewrite map_app. simpl.
      apply in_or_app. right. now right.
    + apply Nat.eqb_neq in Hne. congruence.
Qed.

Lemma imap_In {A B} (f : nat -> A -> B) (l : list A) i x :
  l !! i = Some x -> In (f i x) (imap f l).
Proof.
  revert f i. induction l as [|y l IH]; intros f [|i] H; simpl in *; try discriminate.
  - injection H as ->. now left.
  - right. apply (IH (f ∘ S) i H).
Qed.

End SpreadRouting.

Arguments exchanges {E V} responses i ys j.
Arguments replays {G E V M} gen_next g input h.

(** X15: the wrapper keeps the searches apart.  Whatever the consumer answers,
    the environments it receives for root [i] are the ones the search
    started on that root (with the per-root budget) yields when it is
    resumed first with [undefined] and then, each time, with the
    validation the consumer gave for that root's previous environment. *)
Theorem spread_routes_validations (G E V M : Type)
    (gen_next : G -> option V -> gen_result G E M) (search : E -> nat -> G)
    (responses : nat -> option V) environments n k i e :
  environments !! i = Some e ->
  replays gen_next (search e (per_root n (length environments))) None
    (exchanges responses i
       (fst (spread_run gen_next k (@spread_start G E V M search environments n)
               None responses 0)) 0).
Proof.
  intros He.
  assert (Hnd : NoDup (ids G V (queue_of G V M
                         (@spread_start G E V M search environments n) None))).
  { unfold queue_of. simpl. rewrite ids_imap with (o := 0%nat).
    - apply NoDup_seq.
    - reflexivity. }
  destruct (spread_run_routes G E V M gen_next responses k _ None 0%nat Hnd) as [Hin _].
  apply Hin. unfold queue_of. simpl.
  apply (imap_In (fun i e => (i, search e (per_root n (length environments)), None))
           environments i e He).
Qed.

(** A search that counts down from its root and adds the number it was
    resumed with to what it yields. *)
Definition echo_next (g : nat) (validation : option nat) : gen_result nat nat unit :=
  match g with
  | O => GDone None
  | S g' =>
      GYield (g + match validation with Some v => v | None => 0 end)%nat g'
  end.

Lemma spread_routes_validations_witness :
  replays echo_next 3%nat None
    (exchanges (fun j => Some (10 * (j + 1))%nat) 1%nat
       (fst (spread_run echo_next 4
               (@spread_start nat nat nat unit (fun e _ => e) [2; 3]%nat 10)
               None (fun j => Some (10 * (j + 1))%nat) 0)) 0).
Proof.
  apply (spread_routes_validations nat nat nat unit echo_next (fun e _ => e)
           (fun j => Some (10 * (j + 1))%nat) [2; 3]%nat 10 4 1 3%nat).
  reflexivity.
Defined.

(** ** The pump: the set of failed validations *)

Section PumpFailed.

Variables G E V MD : Type.
Variable gen_next : G -> heap V -> option nat -> gen_result G E MD * heap V.
Variable validateEnvironment : E -> completion V.
Variable status_code_of : V -> string.
Variable truncateInstallErrors : V -> V.
Variable V_eqb : V -> V -> bool.

(** The search reads the validation records it is handed but does not
    write to them (true of the iterative-deepening and level-order
    searches, not of the feedback-directed one). *)
Hypothesis search_reads_only : forall g h input, snd (gen_next g h input) = h.

Local Abbreviation iteration :=
  (pump_iteration gen_next validateEnvironment status_code_of
     truncateInstallErrors V_eqb).
Local Abbreviation turns :=
  (pump_turns gen_next validateEnvironment status_code_of
     truncateInstallErrors V_eqb).

(** The comparator tells the later record from the earlier one. *)
Definition differ (h : heap V) (earlier later : nat) : Prop :=
  isEqual V_eqb h later earlier = false.

(** What [inferenceMetadata.failedValidations] holds between turns: no
    two records that compare equal, no more entries than validations
    run, and only truncated validator results that did not succeed. *)
Definition failed_ok (st : pump_state G E V MD) : Prop :=
  StronglySorted (differ (records st)) (failedValidations st)
  /\ (length (failedValidations st) <= numValidations st)%nat
  /\ Forall (fun address =>
               exists v,
                 records st !! address = Some v
                 /\ String.eqb (status_code_of v) SUCCESS = false
                 /\ exists environment v0,
                      validateEnvironment environment = Return v0
                      /\ v = truncateInstallErrors v0)
       (failedValidations st).

Lemma baseUniq_app h a : forall result b,
  baseUniq V_eqb h result (a ++ b)
  = baseUniq V_eqb h (baseUniq V_eqb h result a) b.
Proof.
  induction a as [|x a IH]; intros result b; simpl; [reflexivity|].
  destruct (existsb _ result); apply IH.
Qed.

Lemma baseUniq_distinct h array : forall result,
  StronglySorted (differ h) (result ++ array) ->
  baseUniq V_eqb h result array = result ++ array.
Proof.
  induction array as [|x array IH]; intros result Hs; simpl.
  - now rewrite app_nil_r.
  - assert (existsb (fun seen => isEqual V_eqb h x seen) result = false) as ->.
    { apply not_true_is_false. intros Hex.
      apply existsb_exists in Hex as (y & Hy & Heq).
      apply StronglySorted_app in Hs as (Hs & _ & _).
      specialize (Hs y x). unfold differ in Hs. rewrite Hs in Heq; [discriminate| |].
      - now apply list_elem_of_In.
      - now left. }
    rewrite IH; rewrite <- app_assoc; [reflexivity | exact Hs].
Qed.

Lemma isEqual_grow h v a b x y :
  h !! a = Some x -> h !! b = Some y ->
  isEqual V_eqb (h ++ [v]) a b = isEqual V_eqb h a b.
Proof.
  intros Ha Hb. unfold isEqual, heap in *.
  now rewrite (lookup_app_l_Some _ _ _ _ Ha), (lookup_app_l_Some _ _ _ _ Hb), Ha, Hb.
Qed.

Lemma pump_iteration_failed st now_ms st' :
  failed_ok st -> iteration st now_ms = PContinue st' -> failed_ok st'.
Proof.
  intros (Hs & Hl & Hall). unfold pump_iteration.
  destruct (control st) as [environment g| |]; try discriminate.
  destruct (3600 <? _); [discriminate|].
  destruct (validateEnvironment environment) as [v0|] eqn:Hv; [|discriminate].
  destruct (String.eqb _ _) eqn:Hcode; [discriminate|].
  set (validation := truncateInstallErrors v0) in *.
  set (h := records st ++ [validation]).
  pose proof (search_reads_only g h (Some (length (records st)))) as Hread.
  destruct (gen_next g h (Some (length (records st)))) as [control' h'].
  simpl in Hread. subst h'. intros [= <-]. unfold failed_ok. simpl.
  assert (Hgrow : StronglySorted (differ h) (failedValidations st)).
  { clear Hl. induction Hs as [|a l Hs IH Ha]; constructor.
    - apply IH. now apply Forall_inv_tail in Hall.
    - apply Forall_cons in Hall as [(x & Hx & _) Hall].
      rewrite Forall_forall in Ha, Hall |- *. intros b Hb.
      destruct (Hall b Hb) as (y & Hy & _).
      unfold differ, h. rewrite (isEqual_grow _ _ _ _ _ _ Hy Hx). now apply Ha. }
  assert (Hkept : Forall (fun address =>
                    exists v, h !! address = Some v
                      /\ String.eqb (status_code_of v) SUCCESS = false
                      /\ exists environment v0,
                           validateEnvironment environment = Return v0
                           /\ v = truncateInstallErrors v0)
                    (failedValidations st)).
  { eapply Forall_impl; [exact Hall|]. simpl.
    intros address (v & Hlook & Hrest). exists v. split; [|exact Hrest].
    unfold h. now apply lookup_app_l_Some. }
  unfold unionWith. rewrite baseUniq_app, (baseUniq_distinct h _ []) by exact Hgrow.
  simpl.
  destruct (existsb _ (failedValidations st)) eqn:Hex.
  - split_and!; auto.
  - split_and!.
    + apply StronglySorted_app_2; [| exact Hgrow | repeat constructor].
      intros a b Ha Hb. apply list_elem_of_singleton in Hb. subst b.
      unfold differ.
      destruct (isEqual V_eqb h (length (records st)) a) eqn:Hab; [|reflexivity].
      assert (existsb (fun seen => isEqual V_eqb h (length (records st)) seen)
                (failedValidations st) = true); [|congruence].
      apply existsb_exists. exists a. split; [|exact Hab].
      now apply list_elem_of_In.
    + rewrite length_app. simpl. lia.
    + apply Forall_app. split; [exact Hkept|]. constructor; [|constructor].
      exists validation. split_and!.
      * unfold h. apply list_lookup_middle. reflexivity.
      * exact Hcode.
      * eauto.
Qed.

Lemma pump_turns_failed clock : forall st st',
  failed_ok st -> turns st clock = Some st' -> failed_ok st'.
Proof.
  induction clock as [|t clock IH]; simpl; intros st st' Hok H.
  - now injection H as <-.
  - destruct (iteration st t) as [st1| |] eqn:Hit; try discriminate.
    eapply IH; [|exact H]. eapply pump_iteration_failed; eauto.
Qed.

(** X16: when the search leaves the validation records it is handed
    untouched, then, however many turns the pump has run,
    [failedValidations] holds no two records that [_.isEqual]
    identifies, at most one entry per validation run, and only validator
    results (after truncation) whose status is not [Success]. *)
Theorem pump_failed_validations start_ms mutantGenerator clock st :
  turns (pump_start gen_next start_ms mutantGenerator) clock = Some st ->
  failed_ok st.
Proof.
  apply pump_turns_failed. unfold failed_ok, pump_start.
  destruct (gen_next mutantGenerator [] None). simpl.
  split_and!; [constructor | lia | constructor].
Qed.

End PumpFailed.

Lemma pump_failed_validations_witness :
  failed_ok nat nat string unit (fun _ => Return "Failed") (fun v => v)
    (fun v => v) String.eqb pump_after_two.
Proof.
  apply (pump_failed_validations nat nat string unit endless_next
           (fun _ => Return "Failed") (fun v => v) (fun v => v) String.eqb
           (fun g h input => eq_refl) 999 0%nat [1000; 1800000] pump_after_two).
  vm_compute. reflexivity.
Defined.

(** A search that writes to the record it is handed, as the
    feedback-directed search does when it sets [validations] on its
    checkpoint. *)
Definition marking_next (g : nat) (h : heap string) (input : option nat)
  : gen_result nat nat unit * heap string :=
  (GYield g (S g),
   match input with
   | Some address => <[address := "marked"]> h
   | None => h
   end).

(** Such writes reach the records that [failedValidations] holds: after
    two failed validations with different results, both entries read
    ["marked"], and [_.isEqual] identifies them. *)
Lemma pump_failed_validations_shared :
  pump_turns marking_next
    (fun environment => Return (if (environment =? 0)%nat then "A" else "B"))
    (fun v => v) (fun v => v) String.eqb
    (pump_start marking_next 0 0%nat) [1000; 2000]
  = Some (mkPump 0 [0%nat; 1%nat] 2 (GYield 2%nat 3%nat) ["marked"; "marked"])
  /\ isEqual String.eqb ["marked"; "marked"] 0 1 = true.
Proof. vm_compute. split; reflexivity. Qed.

(** ** Level-order traversal: a mutator without a result ends it *)

Section LevelOrderThrows.

Variable registry : jsval -> jsval -> completion (list string).

Lemma map_all_throws {A B} (f : A -> completion B) (l : list A) x :
  In x l -> (forall y, f x <> Return y) -> exists msg, map_all f l = Throw msg.
Proof.
  intros Hin Hx. induction l as [|a l IH]; simpl; [contradiction|].
  destruct (f a) as [y|msg] eqn:Ha; simpl; [|eauto].
  destruct Hin as [-> | Hin]; [now destruct (Hx y)|].
  destruct (IH Hin) as [msg ->]. simpl. eauto.
Qed.

Lemma mutatedEnvironments_throws environment m index d :
  In m (versionMutators registry) ->
  dependencies environment !! index = Some d ->
  (forall r, apply m d <> Return (Some r)) ->
  exists msg, mutatedEnvironments registry environment = Throw msg.
Proof.
  intros Hm Hd Hr. unfold mutatedEnvironments.
  destruct (map_all_throws
              (fun versionMutator =>
                 map_all (fun p => mutate_at environment versionMutator (fst p) (snd p))
                   (imap (fun index dependency => (index, dependency))
                      (dependencies environment)))
              (versionMutators registry) m Hm) as [msg ->]; [|simpl; eauto].
  intros ys Hys.
  destruct (map_all_throws
              (fun p => mutate_at environment m (fst p) (snd p))
              (imap (fun index dependency => (index, dependency))
                 (dependencies environment))
              (index, d)) as [msg Hmsg].
  - apply (imap_In (fun index dependency => (index, dependency)) _ _ _ Hd).
  - simpl. unfold mutate_at. intros y.
    destruct (apply m d) as [[r|]|msg]; simpl; try discriminate.
    now destruct (Hr r).
  - congruence.
Qed.

End LevelOrderThrows.

(** X17: [naiveLevelOrderTraversal] reads [mutationResult.mutant] before it
    tests the result.  So when two or more levels are asked for and some
    mutator has no result for some dependency of the first environment
    (its version cannot be decremented further, say), the traversal
    yields that environment and then ends with an error instead of going
    on with the other mutants. *)
Theorem naiveLevelOrderTraversal_throws registry environment rest levels m index d :
  (2 <= levels)%nat ->
  In m (versionMutators registry) ->
  dependencies environment !! index = Some d ->
  (forall r, apply m d <> Return (Some r)) ->
  exists msg,
    naiveLevelOrderTraversal registry (environment :: rest) levels
    = ([environment], Some msg).
Proof.
  intros Hl Hm Hd Hr.
  destruct levels as [|[|levels]]; try lia.
  destruct (mutatedEnvironments_throws registry environment m index d Hm Hd Hr)
    as [msg Hmsg].
  exists msg. unfold naiveLevelOrderTraversal. simpl. now rewrite Hmsg.
Qed.

Lemma naiveLevelOrderTraversal_throws_witness :
  exists msg,
    naiveLevelOrderTraversal Samples.registry [sample_environment] 3
    = ([sample_environment], Some msg).
Proof.
  apply (naiveLevelOrderTraversal_throws Samples.registry sample_environment [] 3
           (decrementSemverMajor Samples.registry) 0
           (Samples.dependency "scikit-learn" "0.19.0")).
  - lia.
  - left. reflexivity.
  - reflexivity.
  - intros r. vm_compute. discriminate.
Defined.

(** ** APT adapter: what an exact match is pinned to *)

(** X18: [searchForExactPackageMatch] never invents a version.  A match is an
    [apt] dependency of the requested name whose version is one the
    adapter lists: the requested one, or the first listed when none was
    requested.  Only when none was requested and none is listed does the
    match come back without a version. *)
Theorem searchForExactPackageMatch_listed getAvailablePackageVersions name version versions d :
  getAvailablePackageVersions name = Return versions ->
  APTStrategy.searchForExactPackageMatch getAvailablePackageVersions name version
  = Return (Some d) ->
  get d "name" = JString name
  /\ get d "system" = JString "apt"
  /\ ((exists v, get d "version" = JString v /\ In v versions
                 /\ (APTStrategy.truthy version = true -> version = JString v)
                 /\ (APTStrategy.truthy version = false -> head versions = Some v))
      \/ (get d "version" = JUndefined /\ versions = []
          /\ APTStrategy.truthy version = false)).
Proof.
  intros Hreg. unfold APTStrategy.searchForExactPackageMatch. rewrite Hreg. simpl.
  destruct (APTStrategy.truthy version) eqn:Ht; simpl.
  - destruct (APTStrategy.includes versions version) eqn:Hin; simpl; [|discriminate].
    intros [= <-]. simpl. split_and!; auto. left.
    destruct version as [| |v]; try discriminate.
    exists v. split_and!; auto; [|discriminate].
    simpl in Hin. apply existsb_exists in Hin as (x & Hx & Heq).
    apply String.eqb_eq in Heq. now subst.
  - intros [= <-]. simpl. split_and!; auto.
    destruct versions as [|v versions]; simpl.
    + right. auto.
    + left. exists v. split_and!; auto. discriminate.
Qed.

Lemma searchForExactPackageMatch_listed_witness :
  get [("name", JString "curl"); ("version", JString "7.58.0-2");
       ("system", JString "apt")] "name" = JString "curl"
  /\ get [("name", JString "curl"); ("version", JString "7.58.0-2");
          ("system", JString "apt")] "system" = JString "apt"
  /\ ((exists v, get [("name", JString "curl"); ("version", JString "7.58.0-2");
                      ("system", JString "apt")] "version" = JString v
                 /\ In v ["7.58.0-2"; "7.47.0-1"]
                 /\ (APTStrategy.truthy JUndefined = true -> JUndefined = JString v)
                 /\ (APTStrategy.truthy JUndefined = false ->
                     head ["7.58.0-2"; "7.47.0-1"] = Some v))
      \/ (get [("name", JString "curl"); ("version", JString "7.58.0-2");
               ("system", JString "apt")] "version" = JUndefined
          /\ ["7.58.0-2"; "7.47.0-1"] = []
          /\ APTStrategy.truthy JUndefined = false)).
Proof.
  apply (searchForExactPackageMatch_listed
           (fun _ => Return ["7.58.0-2"; "7.47.0-1"]) "curl" JUndefined
           ["7.58.0-2"; "7.47.0-1"]
           [("name", JString "curl"); ("version", JString "7.58.0-2");
            ("system", JString "apt")]).
  - reflexivity.
  - reflexivity.
Defined.

(** ** pip adapter: when normalization is idempotent *)

(** The number of underscores in a name. *)
Fixpoint underscores (s : string) : nat :=
  match s with
  | EmptyString => 0
  | String c s' => ((if Ascii.eqb c "_" then 1 else 0) + underscores s')%nat
  end.

Lemma lower_char_underscore c :
  Ascii.eqb (lower_char c) "_" = Ascii.eqb c "_".
Proof. destruct c as [[] [] [] [] [] [] [] []]; vm_compute; reflexivity. Qed.

Lemma lower_char_idempotent c : lower_char (lower_char c) = lower_char c.
Proof. destruct c as [[] [] [] [] [] [] [] []]; vm_compute; reflexivity. Qed.

Lemma toLowerCase_idempotent s : toLowerCase (toLowerCase s) = toLowerCase s.
Proof. induction s as [|c s IH]; simpl; [reflexivity|]. now rewrite lower_char_idempotent, IH. Qed.

Lemma toLowerCase_underscores s : underscores (toLowerCase s) = underscores s.
Proof.
  induction s as [|c s IH]; simpl; [reflexivity|].
  now rewrite lower_char_underscore, IH.
Qed.

Lemma toLowerCase_replace_first s :
  toLowerCase (replace_first "_" "-" s) = replace_first "_" "-" (toLowerCase s).
Proof.
  induction s as [|c s IH]; simpl; [reflexivity|].
  rewrite lower_char_underscore. destruct (Ascii.eqb c "_"); simpl; [reflexivity|].
  now rewrite IH.
Qed.

Lemma replace_first_fixed s :
  replace_first "_" "-" s = s <-> underscores s = 0%nat.
Proof.
  induction s as [|c s IH]; simpl; [tauto|].
  destruct (Ascii.eqb c "_") eqn:Hc; simpl.
  - apply Ascii.eqb_eq in Hc. subst c. split; [discriminate | lia].
  - rewrite <- IH. split; [now intros [= ->] | now intros ->].
Qed.

Lemma replace_first_underscores s :
  underscores (replace_first "_" "-" s) = pred (underscores s).
Proof.
  induction s as [|c s IH]; simpl; [reflexivity|].
  destruct (Ascii.eqb c "_") eqn:Hc; simpl; [reflexivity|].
  now rewrite Hc, IH.
Qed.

(** X19: normalizing a pip package name a second time changes nothing exactly
    when the name has at most one underscore. *)
Theorem normalizePackageName_idempotent_iff pkg :
  PIPStrategy.normalizePackageName (PIPStrategy.normalizePackageName pkg)
  = PIPStrategy.normalizePackageName pkg
  <-> (underscores pkg <= 1)%nat.
Proof.
  unfold PIPStrategy.normalizePackageName.
  rewrite toLowerCase_replace_first, toLowerCase_idempotent.
  rewrite replace_first_fixed, replace_first_underscores, toLowerCase_underscores.
  lia.
Qed.

(** ** Semver mutators: the lookup table keeps the last spelling *)

(** The available version [v] coerces to the semver spelled [k]. *)
Definition spelled (k v : string) : bool :=
  match VersionUtils.coerceSemver_string v with
  | Some sv => String.eqb (Semver.version sv) k
  | None => false
  end.

Lemma table_get_fold_snoc pairs k0 v0 (t0 : table) k :
  table_get (fold_left (fun t kv => table_set t (fst kv) (snd kv))
               (pairs ++ [(k0, v0)]) t0) k
  = if String.eqb k0 k then Some v0
    else table_get (fold_left (fun t kv => table_set t (fst kv) (snd kv)) pairs t0) k.
Proof. rewrite fold_left_app. simpl. apply table_get_set. Qed.

(** X20: [getSemverLookupTable] fails only if the registry does.  Its table
    maps a semver string to the last of the available versions that
    coerce to it: when several spellings of one version are available,
    the one listed last is the one a mutator pins. *)
Theorem getSemverLookupTable_last_wins registry d avail :
  registry (get d "system") (get d "name") = Return avail ->
  exists t,
    getSemverLookupTable registry d = Return t
    /\ forall k, table_get t k = find (spelled k) (rev avail).
Proof.
  intros Hreg. unfold getSemverLookupTable. rewrite Hreg. simpl.
  eexists. split; [reflexivity|]. intros k. clear Hreg.
  induction avail as [|v avail IH] using rev_ind; [reflexivity|].
  rewrite omap_app, rev_app_distr. simpl. unfold spelled at 1.
  destruct (VersionUtils.coerceSemver_string v) as [sv|]; simpl.
  - rewrite table_get_fold_snoc. destruct (String.eqb (Semver.version sv) k); auto.
  - rewrite app_nil_r. exact IH.
Qed.

Lemma getSemverLookupTable_last_wins_witness :
  exists t,
    getSemverLookupTable (fun _ _ => Return ["1.0"; "0.9.1"; "1.0.0"])
      (Samples.dependency "example" "1.0") = Return t
    /\ forall k, table_get t k = find (spelled k) (rev ["1.0"; "0.9.1"; "1.0.0"]).
Proof.
  apply (getSemverLookupTable_last_wins (fun _ _ => Return ["1.0"; "0.9.1"; "1.0.0"])
           (Samples.dependency "example" "1.0") ["1.0"; "0.9.1"; "1.0.0"]).
  reflexivity.
Defined.

(** ** Python heuristics: the earlier exception does not depend on the order asked *)

(** X21: [firstExecutionException] is symmetric: swapping the two validations
    gives the same answer, be it one of the validations, [null] or the
    error. *)
Theorem firstExecutionException_symmetric v1 v2 :
  PythonStrategy.firstExecutionException v2 v1
  = PythonStrategy.firstExecutionException v1 v2.
Proof.
  unfold PythonStrategy.firstExecutionException.
  destruct (PythonStrategy.get_line v1) as [l1|], (PythonStrategy.get_line v2) as [l2|];
    try reflexivity.
  destruct (Z.ltb_spec l1 l2), (Z.ltb_spec l2 l1); try reflexivity; lia.
Qed.

(** ** Iterative-deepening search: every run ends *)

Section IddfsTerminates.

Variable registry : jsval -> jsval -> completion (list string).
Variable n : nat.
Variable environment0 : Environment.

Hypothesis dependencies_mutable :
  Forall (mutable registry) (dependencies environment0).

Local Abbreviation mutators := (versionMutators registry).
Local Abbreviation len := (length (dependencies environment0)).

(** The search position within one level, as a number: which dependency
    and which mutator come next. *)
Definition digit (index mi : nat) : nat := (2 * index + mi + 1)%nat.

(** One more than the largest digit. *)
Definition base : nat := (2 * len + 3)%nat.

(** [traced deps muts ds]: as [applied], and [ds] lists the positions at
    which the mutations on the stack were applied, outermost first. *)
Inductive traced : list object -> list Mutation -> list nat -> Prop :=
  | traced_none :
      traced (dependencies environment0) (mutations environment0) []
  | traced_push deps muts ds i k dep mutator r :
      traced deps muts ds ->
      deps !! i = Some dep ->
      mutators !! k = Some mutator ->
      apply mutator dep = Return (Some r) ->
      traced (<[i := mutant r]> deps)
        (push muts (mkMutation (mutation_type (mutation r)) (changes (mutation r))
                      (Some (mkIddfsInfo i k))))
        (ds ++ [digit i k]).

Lemma traced_applied deps muts ds :
  traced deps muts ds -> applied registry environment0 deps muts (length ds).
Proof.
  induction 1 as [|deps muts ds i k dep mutator r Ht IH Hi Hk Hr]; [constructor|].
  rewrite length_app, Nat.add_1_r. simpl. econstructor; eauto.
Qed.

Lemma traced_length deps muts ds : traced deps muts ds -> length deps = len.
Proof.
  induction 1 as [|deps muts ds i k dep mutator r Ht IH Hi Hk Hr]; [reflexivity|].
  now rewrite length_insert.
Qed.

Lemma traced_digits deps muts ds :
  traced deps muts ds -> Forall (fun d => (1 <= d < base)%nat) ds.
Proof.
  induction 1 as [|deps muts ds i k dep mutator r Ht IH Hi Hk Hr]; [constructor|].
  apply Forall_app. split; [exact IH|]. constructor; [|constructor].
  apply lookup_lt_Some in Hi, Hk. apply traced_length in Ht. simpl in Hk.
  unfold digit, base. lia.
Qed.

Lemma traced_nil deps muts :
  traced deps muts [] ->
  deps = dependencies environment0 /\ muts = mutations environment0.
Proof.
  intros H. inversion H as [|? ? ds ? ? ? ? ? ? ? ? ? Hds]; [auto|].
  destruct ds; discriminate.
Qed.

Lemma traced_snoc_inv deps muts ds :
  traced deps muts ds -> ds <> [] ->
  exists deps' muts' ds' i k dep mutator r,
    traced deps' muts' ds'
    /\ deps' !! i = Some dep
    /\ mutators !! k = Some mutator
    /\ apply mutator dep = Return (Some r)
    /\ deps = <[i := mutant r]> deps'
    /\ muts = push muts' (mkMutation (mutation_type (mutation r))
                            (changes (mutation r)) (Some (mkIddfsInfo i k)))
    /\ ds = ds' ++ [digit i k].
Proof.
  intros H Hne. destruct H as [|deps muts ds i k dep mutator r Ht Hi Hk Hr];
    [contradiction|].
  exists deps, muts, ds, i, k, dep, mutator, r. split_and!; auto.
Qed.

(** What backtracking does to a state whose last mutation is known. *)
Lemma no_dependency_backtrack st deps muts i k dep mutator r :
  dependencies (st_env st) = <[i := mutant r]> deps ->
  mutations (st_env st)
  = push muts (mkMutation (mutation_type (mutation r)) (changes (mutation r))
                 (Some (mkIddfsInfo i k))) ->
  deps !! i = Some dep ->
  mutators !! k = Some mutator ->
  apply mutator dep = Return (Some r) ->
  (0 < currentDepth st)%nat ->
  iddfs_no_dependency registry st
  = Return (OStep (CLoop (lateral registry
      (mkIddfs (with_env st deps muts) (currentDepth st - 1) (depth st)
         (totalCount st) (depthCount st) i k)))).
Proof.
  intros Hdeps Hmuts Hlook Hk Hr Hd. unfold iddfs_no_dependency.
  apply Nat.ltb_lt in Hd. rewrite Hd, Hmuts, pop_push. simpl.
  destruct (mutator_apply_result registry mutator dep r
              (mutators_In registry _ _ Hk) Hr) as (s & nv & _ & _ & Hmu).
  rewrite Hmu. simpl.
  destruct (mutator_lookup_undo registry mutator (mutators_In registry _ _ Hk))
    as (m' & -> & Hundo).
  rewrite Hdeps, list_lookup_insert_eq by (eapply lookup_lt_Some, Hlook).
  rewrite Hundo.
  pose proof (semver_undo_restores registry mutator dep r
                (Some (mkIddfsInfo i k)) (mutators_In registry _ _ Hk) Hr) as Hu.
  rewrite Hmu in Hu. simpl in Hu. rewrite Hu. simpl.
  now rewrite insert_restore by exact Hlook.
Qed.

(** The positions of the levels above, read as one number in [base]. *)
Definition horner (ds : list nat) : nat :=
  fold_left (fun a d => (a * base + d)%nat) ds 0%nat.

Lemma horner_snoc ds d : horner (ds ++ [d]) = (horner ds * base + d)%nat.
Proof. unfold horner. now rewrite fold_left_app. Qed.

Lemma horner_bound ds :
  Forall (fun d => (1 <= d < base)%nat) ds -> (horner ds < base ^ length ds)%nat.
Proof.
  induction ds as [|d ds IH] using rev_ind; intros H.
  - simpl. unfold horner. simpl. lia.
  - apply Forall_app in H as [Hds Hd]. apply Forall_inv in Hd.
    specialize (IH Hds). rewrite horner_snoc, length_app, Nat.add_1_r.
    simpl. nia.
Qed.

(** How much one position at the current level counts. *)
Definition weight (st : iddfs_state) : nat :=
  (base ^ (depth st - 1 - currentDepth st))%nat.

(** How far the depth pass has come. *)
Definition position (st : iddfs_state) (ds : list nat) : nat :=
  ((horner ds * base + digit (index st) (mutatorIndex st)) * weight st)%nat.

Definition ceiling : nat := (base ^ (n + 1))%nat.

Definition stride : nat := (2 * ceiling + 2)%nat.

Definition phase (st : iddfs_state) : nat :=
  if (depthCount st =? 0)%nat then 0%nat else 1%nat.

(** A number that every transition of the loop makes smaller. *)
Definition potential (st : iddfs_state) (ds : list nat) : nat :=
  (((n - totalCount st) * 2 + phase st) * stride
   + 2 * (ceiling - position st ds))%nat.

(** The invariant of the loop head. *)
Definition loop_inv (st : iddfs_state) (ds : list nat) : Prop :=
  env_id (st_env st) = env_id environment0
  /\ traced (dependencies (st_env st)) (mutations (st_env st)) ds
  /\ length ds = currentDepth st
  /\ (currentDepth st < depth st)%nat
  /\ (index st <= len)%nat
  /\ (mutatorIndex st < 2)%nat
  /\ (totalCount st <= n)%nat
  /\ (depth st + phase st <= totalCount st + 1)%nat.

Lemma base_pos : (0 < base)%nat.
Proof. unfold base. lia. Qed.

Lemma weight_pos st : (0 < weight st)%nat.
Proof. unfold weight. apply Nat.neq_0_lt_0, Nat.pow_nonzero. unfold base. lia. Qed.

Lemma position_bound st ds : loop_inv st ds -> (position st ds < ceiling)%nat.
Proof.
  intros (_ & Ht & Hl & Hcd & Hi & Hm & Htc & Hd).
  pose proof (horner_bound ds (traced_digits _ _ _ Ht)) as Hh.
  rewrite Hl in Hh. unfold position, ceiling, weight.
  assert (Hcur : (digit (index st) (mutatorIndex st) < base)%nat)
    by (unfold digit, base; lia).
  assert (Hhead : (horner ds * base + digit (index st) (mutatorIndex st)
                   < base ^ (currentDepth st + 1))%nat).
  { rewrite Nat.add_1_r. simpl. nia. }
  assert (Hpow : (base ^ (currentDepth st + 1)
                  * base ^ (depth st - 1 - currentDepth st)
                  <= base ^ (n + 1))%nat).
  { rewrite <- Nat.pow_add_r. apply Nat.pow_le_mono_r; [unfold base; lia|].
    unfold phase in Hd. destruct (depthCount st =? 0)%nat; lia. }
  pose proof (weight_pos st) as Hw. unfold weight in Hw. nia.
Qed.

Lemma potential_lt_position st ds st' ds' :
  totalCount st' = totalCount st ->
  depthCount st' = depthCount st ->
  (position st ds < position st' ds')%nat ->
  (position st' ds' < ceiling)%nat ->
  (potential st' ds' < potential st ds)%nat.
Proof.
  intros Htc Hdc Hp Hc. unfold potential, phase. rewrite Htc, Hdc. lia.
Qed.

Lemma potential_lt_yield st ds st' ds' :
  (totalCount st < n)%nat ->
  totalCount st' = (totalCount st + 1)%nat ->
  depthCount st' <> 0%nat ->
  (potential st' ds' + 1 < potential st ds)%nat.
Proof.
  intros Hlt Htc Hdc. unfold potential, phase, stride. rewrite Htc.
  apply Nat.eqb_neq in Hdc. rewrite Hdc.
  replace (n - (totalCount st + 1))%nat with (n - totalCount st - 1)%nat by lia.
  assert (1 <= n - totalCount st)%nat by lia.
  destruct (depthCount st =? 0)%nat; nia.
Qed.

Lemma potential_lt_reset st ds st' ds' :
  totalCount st' = totalCount st ->
  depthCount st <> 0%nat ->
  depthCount st' = 0%nat ->
  (potential st' ds' < potential st ds)%nat.
Proof.
  intros Htc Hdc Hdc'. unfold potential, phase, stride. rewrite Htc, Hdc'.
  apply Nat.eqb_neq in Hdc. rewrite Hdc. simpl. nia.
Qed.

(** Moving on to the next mutator or dependency advances the position
    by one step of the current level. *)
Lemma lateral_inv st ds :
  loop_inv st ds -> (index st < len)%nat ->
  loop_inv (lateral registry st) ds
  /\ position (lateral registry st) ds = (position st ds + weight st)%nat
  /\ totalCount (lateral registry st) = totalCount st
  /\ depthCount (lateral registry st) = depthCount st.
Proof.
  intros (Hid & Ht & Hl & Hcd & Hi & Hm & Htc & Hd) Hlt.
  unfold lateral, loop_inv, position, weight, phase, digit in *.
  destruct (mutatorIndex st) as [|[|mi]] eqn:Hmi; [| |lia]; simpl;
    (split_and!; auto; try lia).
Qed.

Lemma weight_deeper st st' :
  depth st' = depth st ->
  currentDepth st' = (currentDepth st + 1)%nat ->
  (currentDepth st' < depth st')%nat ->
  weight st = (base * weight st')%nat.
Proof.
  intros Hd Hc Hlt. unfold weight. rewrite Hd, Hc in *.
  replace (depth st - 1 - currentDepth st)%nat
    with (S (depth st - 1 - (currentDepth st + 1)))%nat by lia.
  reflexivity.
Qed.

Definition config_inv (c : iddfs_config) (ds : list nat) : Prop :=
  match c with
  | CStart e | CFirstYield e => e = environment0 /\ ds = []
  | CLoop st => loop_inv st ds
  | CYield st dependency => loop_inv (iddfs_resume registry st dependency) ds
  end.

Definition config_potential (c : iddfs_config) (ds : list nat) : nat :=
  match c with
  | CStart e => (potential (mkIddfs e 0 1 0 0 0 0) [] + 2)%nat
  | CFirstYield e => (potential (mkIddfs e 0 1 0 0 0 0) [] + 1)%nat
  | CLoop st => potential st ds
  | CYield st dependency =>
      (potential (iddfs_resume registry st dependency) ds + 1)%nat
  end.

(** One transition from the loop head: the run ends, or goes on from a
    configuration of smaller potential. *)
Lemma loop_step st ds :
  loop_inv st ds ->
  match iddfs_step registry n (CLoop st) with
  | Return (OStep c') | Return (OYield _ c') =>
      exists ds', config_inv c' ds'
                  /\ (config_potential c' ds' < potential st ds)%nat
  | Return (OExhausted st') => st_env st' = environment0
  | Return (OBudget _) => True
  | Return OStuck | Throw _ => False
  end.
Proof.
  intros Hinv. pose proof Hinv as (Hid & Ht & Hl & Hcd & Hi & Hm & Htc & Hd).
  simpl. destruct (totalCount st <? n)%nat eqn:Hlt; [|exact I].
  apply Nat.ltb_lt in Hlt.
  destruct (dependencies (st_env st) !! index st) as [dep|] eqn:Hdep.
  - (* the next dependency was found *)
    assert (Hidx : (index st < len)%nat).
    { apply lookup_lt_Some in Hdep. now rewrite (traced_length _ _ _ Ht) in Hdep. }
    unfold iddfs_mutate.
    destruct (versionMutators registry !! mutatorIndex st) as [m|] eqn:Hk.
    2:{ apply lookup_ge_None in Hk. simpl in Hk. lia. }
    pose proof (traced_applied _ _ _ Ht) as Happ.
    destruct (apply_returns registry m dep (mutators_In registry _ _ Hk)
                (proj1 (Forall_lookup _ _)
                   (applied_mutable registry environment0 dependencies_mutable
                      _ _ _ Happ) _ _ Hdep))
      as [r Hr].
    rewrite Hr. simpl. destruct r as [r|].
    + pose proof (traced_push _ _ _ _ _ _ _ _ Ht Hdep Hk Hr) as Hnext.
      destruct (currentDepth st + 1 =? depth st)%nat eqn:Hleaf.
      * (* a leaf: yield, and come back one step further *)
        exists ds. unfold config_inv, config_potential, iddfs_resume. simpl.
        rewrite pop_push, insert_restore by exact Hdep.
        match goal with
        | |- context [lateral registry ?x] => set (pre := x)
        end.
        assert (Hpre : loop_inv pre ds).
        { unfold loop_inv, pre, phase in *. simpl.
          replace (depthCount st + 1 =? 0)%nat with false
            by (symmetry; apply Nat.eqb_neq; lia).
          destruct (depthCount st =? 0)%nat; split_and!; auto; lia. }
        destruct (lateral_inv pre ds Hpre Hidx) as (Hinv' & _ & Htc' & Hdc').
        split; [exact Hinv'|].
        apply potential_lt_yield; [exact Hlt | rewrite Htc'; reflexivity |].
        rewrite Hdc'. unfold pre. simpl. lia.
      * (* not yet a leaf: one level down *)
        apply Nat.eqb_neq in Hleaf.
        exists (ds ++ [digit (index st) (mutatorIndex st)]).
        set (st' := mkIddfs _ _ _ _ _ _ _).
        assert (Hinv' : loop_inv st' (ds ++ [digit (index st) (mutatorIndex st)])).
        { unfold loop_inv, st', phase in *. simpl.
          rewrite length_app. simpl. split_and!; auto; lia. }
        split; [exact Hinv'|]. simpl.
        apply potential_lt_position; try reflexivity; [|now apply position_bound].
        unfold position. rewrite horner_snoc.
        rewrite (weight_deeper st st'); [|reflexivity|reflexivity|unfold st'; simpl; lia].
        pose proof (weight_pos st') as Hw. unfold st' at 2 3. simpl.
        unfold digit. nia.
    + (* no result: next mutator or dependency *)
      exists ds. destruct (lateral_inv st ds Hinv Hidx) as (Hinv' & Hpos & Htc' & Hdc').
      split; [exact Hinv'|]. simpl.
      apply potential_lt_position; auto; [|now apply position_bound].
      rewrite Hpos. pose proof (weight_pos st). lia.
  - (* no dependency left at this level *)
    destruct (currentDepth st) as [|d] eqn:Hcur.
    + (* the root level *)
      unfold iddfs_no_dependency. rewrite Hcur. simpl.
      destruct ds; [|discriminate].
      destruct (depthCount st =? 0)%nat eqn:Hdc.
      * apply traced_nil in Ht as [Hdeps Hmuts].
        destruct (st_env st) as [id deps muts], environment0 as [id0 deps0 muts0].
        simpl in *. now subst.
      * exists []. set (st' := mkIddfs _ _ _ _ _ _ _).
        assert (Hinv' : loop_inv st' []).
        { unfold loop_inv, st', phase in *. simpl. rewrite Hdc in Hd.
          split_and!; auto; lia. }
        split; [exact Hinv'|]. simpl.
        apply potential_lt_reset; [reflexivity | | reflexivity].
        now apply Nat.eqb_neq.
    + (* backtracking *)
      destruct (traced_snoc_inv _ _ _ Ht)
        as (deps & muts & ds0 & i & k & dep & mutator & r
            & Hprev & Hlook & Hk & Hr & Hdeps & Hmuts & Hds).
      { intros ->. discriminate. }
      rewrite (no_dependency_backtrack st deps muts i k dep mutator r)
        by (auto; lia).
      exists ds0.
      set (pre := mkIddfs (with_env st deps muts) (currentDepth st - 1) (depth st)
                    (totalCount st) (depthCount st) i k).
      assert (Hi' : (i < len)%nat).
      { apply lookup_lt_Some in Hlook. now rewrite (traced_length _ _ _ Hprev) in Hlook. }
      assert (Hk' : (k < 2)%nat) by (apply lookup_lt_Some in Hk; exact Hk).
      assert (Hlen : length ds0 = d).
      { rewrite Hds, length_app in Hl. simpl in Hl. lia. }
      assert (Hpre : loop_inv pre ds0).
      { unfold loop_inv, pre, phase in *. simpl. rewrite Hcur. simpl.
        split_and!; auto; lia. }
      destruct (lateral_inv pre ds0 Hpre Hi') as (Hinv' & Hpos & Htc' & Hdc').
      split; [exact Hinv'|]. simpl.
      apply potential_lt_position; auto; [|now apply position_bound].
      assert (Hwp : weight pre = (base * weight st)%nat).
      { apply weight_deeper; [reflexivity | unfold pre; simpl; lia | lia]. }
      rewrite Hpos. subst ds. unfold position. rewrite horner_snoc, !Hwp.
      unfold pre at 1 2. simpl.
      pose proof (weight_pos st) as Hw.
      assert (Hcurd : (digit (index st) (mutatorIndex st) < base)%nat)
        by (unfold digit, base; lia).
      nia.
Qed.

(** A run has ended properly: the budget is used up, or a depth pass
    yielded nothing and the environment is as it was given. *)
Definition ended (fin : iddfs_end) : Prop :=
  match fin with
  | Exhausted e => e = environment0
  | BudgetReached _ => True
  | Thrown _ | Stuck | OutOfFuel => False
  end.

Lemma iddfs_run_S fuel c :
  iddfs_run registry (S fuel) n c
  = match iddfs_step registry n c with
    | Throw msg => ([], Thrown msg)
    | Return (OStep c') => iddfs_run registry fuel n c'
    | Return (OYield e c') =>
        let '(ys, fin) := iddfs_run registry fuel n c' in (e :: ys, fin)
    | Return (OExhausted st) => ([], Exhausted (st_env st))
    | Return (OBudget st) => ([], BudgetReached (st_env st))
    | Return OStuck => ([], Stuck)
    end.
Proof. reflexivity. Qed.

Lemma loop_inv_initial : loop_inv (mkIddfs environment0 0 1 0 0 0 0) [].
Proof.
  unfold loop_inv, phase. simpl. split_and!; auto; try lia. constructor.
Qed.

Lemma iddfs_run_ends fuel : forall c ds,
  config_inv c ds -> (config_potential c ds < fuel)%nat ->
  ended (snd (iddfs_run registry fuel n c)).
Proof.
  induction fuel as [|fuel IH]; intros c ds Hinv Hpot; [lia|].
  rewrite iddfs_run_S. destruct c as [e|e|st|st dep].
  - destruct Hinv as [-> ->]. simpl in *.
    specialize (IH (CFirstYield environment0) [] (conj eq_refl eq_refl)).
    destruct (iddfs_run registry fuel n (CFirstYield environment0)) as [ys fin].
    simpl in *. apply IH. lia.
  - destruct Hinv as [-> ->]. simpl in *.
    apply (IH (CLoop (mkIddfs environment0 0 1 0 0 0 0)) []);
      [exact loop_inv_initial | simpl; lia].
  - pose proof (loop_step st ds Hinv) as Hstep. simpl in Hpot.
    destruct (iddfs_step registry n (CLoop st)) as [[c'|y c'|st'|st'|]|msg];
      try contradiction; simpl; auto.
    + destruct Hstep as (ds' & Hinv' & Hlt). apply (IH c' ds' Hinv'). lia.
    + destruct Hstep as (ds' & Hinv' & Hlt).
      specialize (IH c' ds' Hinv').
      destruct (iddfs_run registry fuel n c') as [ys fin]. simpl in *.
      apply IH. lia.
  - simpl in *. apply (IH (CLoop (iddfs_resume registry st dep)) ds);
      [exact Hinv | simpl; lia].
Qed.

End IddfsTerminates.

(** A number of transitions that is enough for [IDDFS] with budget [n]
    on an environment of [len] dependencies. *)
Definition iddfs_bound (n len : nat) : nat :=
  ((2 * n + 1) * (2 * (2 * len + 3) ^ (n + 1) + 2) + 1)%nat.

Lemma iddfs_bound_enough registry n environment :
  (config_potential registry n environment (CStart environment) []
   < iddfs_bound n (length (dependencies environment)))%nat.
Proof.
  unfold config_potential, potential, phase, iddfs_bound, stride, ceiling, base.
  simpl. set (c := ((2 * length (dependencies environment) + 3) ^ (n + 1))%nat).
  nia.
Qed.

(** X22: [IDDFS] always comes to an end when every dependency is pinned to a
    version string and the registry answers for each.  A run of
    [iddfs_bound n len] transitions or more, a number fixed by the
    budget [n] and the number [len] of dependencies alone, stops because
    the budget is used up or because a depth pass yielded nothing, and
    in the latter case the environment is as it was given; it neither
    throws nor is still running. *)
Theorem iddfs_terminates registry n environment fuel :
  Forall (mutable registry) (dependencies environment) ->
  (iddfs_bound n (length (dependencies environment)) <= fuel)%nat ->
  match snd (iddfs_run registry fuel n (CStart environment)) with
  | Exhausted e => e = environment
  | BudgetReached _ => True
  | Thrown _ | Stuck | OutOfFuel => False
  end.
Proof.
  intros Hdeps Hfuel.
  apply (iddfs_run_ends registry n environment Hdeps _ (CStart environment) []).
  - split; reflexivity.
  - pose proof (iddfs_bound_enough registry n environment). lia.
Qed.

Lemma iddfs_terminates_witness :
  match snd (iddfs_run Samples.registry 1261 2 (CStart sample_environment)) with
  | Exhausted e => e = sample_environment
  | BudgetReached _ => True
  | Thrown _ | Stuck | OutOfFuel => False
  end.
Proof.
  apply (iddfs_terminates Samples.registry 2 sample_environment 1261).
  - repeat constructor; eexists; reflexivity.
  - vm_compute. reflexivity.
Defined.

(** X23: without a pin the search cannot start.  When the first dependency
    of the environment has no version (as [searchForExactPackageMatch]
    returns it for a package without any listed version), [IDDFS] yields
    the environment as given and then fails in the first mutator with
    the error of [coerceSemver], for every budget [n >= 1]. *)
Theorem iddfs_unpinned_throws registry fuel n environment d rest :
  dependencies environment = d :: rest ->
  get d "version" = JUndefined \/ get d "version" = JNull ->
  (1 <= n)%nat ->
  iddfs_run registry (3 + fuel) n (CStart environment)
  = ([environment], Thrown "Undefined or null value passed to coerceSemver.").
Proof.
  intros Hdeps Hv Hn.
  assert (Hstep : iddfs_step registry n (CLoop (mkIddfs environment 0 1 0 0 0 0))
                  = Throw "Undefined or null value passed to coerceSemver.").
  { pose proof (apply_unpinned_throws registry (decrementSemverMajor registry) d
                  (or_introl eq_refl) Hv) as Happ.
    simpl in Happ. simpl.
    assert ((0 <? n)%nat = true) as -> by (apply Nat.ltb_lt; lia).
    rewrite Hdeps. simpl. unfold iddfs_mutate. simpl. now rewrite Happ. }
  change (3 + fuel)%nat with (S (S (S fuel))).
  rewrite iddfs_run_S. cbn [iddfs_step].
  rewrite iddfs_run_S. cbn [iddfs_step].
  rewrite iddfs_run_S, Hstep. reflexivity.
Qed.

Lemma iddfs_unpinned_throws_witness :
  iddfs_run Samples.registry (3 + 7) 10
    (CStart (mkEnvironment "0" [unpinned; Samples.scikit] []))
  = ([mkEnvironment "0" [unpinned; Samples.scikit] []],
     Thrown "Undefined or null value passed to coerceSemver.").
Proof.
  apply (iddfs_unpinned_throws Samples.registry 7 10
           (mkEnvironment "0" [unpinned; Samples.scikit] []) unpinned
           [Samples.scikit]).
  - reflexivity.
  - left. reflexivity.
  - lia.
Defined.
